(** * utreexo bridge node: forest engine and proof/TTL flat files

    A shallow embedding of the Go sources
      - bridgenode/flatfileworker (flatFileBlockWorker, flatFileTTLWorker),
      - bridgenode/server.go      (GetUDataBytesFromFile),
      - accumulator/forest.go     (removev5, promote, lonely, addv2, Modify,
                                   reMap, sanity, PosMapSanity, FindLeaf,
                                   ReconstructStats, RestoreForest,
                                   WriteMiscData, WriteForestToDisk),
      - accumulator/forestdata.go (ramForestData, diskForestData,
                                   diskForestCache, cacheForestData),
    the properties of them that the specification states, and further
    properties of runs of the workers, of the reader, of the forest and
    of its backends.

    Machine integers are [Z] with the wrap-around written out, bytes are
    [Z] in [0, 256), files are byte lists with a cursor, the position map
    is a [gmap]. *)

From Stdlib Require Import ZArith List Lia Bool.
From stdpp Require Import base option list list_numbers sorting gmap.
Import ListNotations.

Local Open Scope Z_scope.

(* ===================================================================== *)
(** ** Machine integers and big-endian encodings (encoding/binary)       *)
(* ===================================================================== *)

Module Enc.

(** Unsigned [w]-bit wrap-around: the value a Go [uintw] holds. *)
Definition wrapU (w x : Z) : Z := x mod 2 ^ w.

(** Signed [w]-bit wrap-around: the value a Go [intw] holds. *)
Definition wrapS (w x : Z) : Z := (x + 2 ^ (w - 1)) mod 2 ^ w - 2 ^ (w - 1).

Definition u8 := wrapU 8.
Definition u32 := wrapU 32.
Definition u64 := wrapU 64.
Definition i32 := wrapS 32.
Definition i64 := wrapS 64.

(** [binary.Write(w, binary.BigEndian, x)] for an integer of [n] bytes:
    the [n] low bytes of [x], most significant first. *)
Fixpoint be_bytes (n : nat) (x : Z) : list Z :=
  match n with
  | O => []
  | S k => (x / 256 ^ Z.of_nat k) mod 256 :: be_bytes k x
  end.

(** The unsigned number a big-endian byte string stands for. *)
Definition be_value (bs : list Z) : Z :=
  fold_left (fun acc b => acc * 256 + b) bs 0.

(** [binary.Read] into a [uint32], an [int64], a [uint64], a [uint8]. *)
Definition be_u32 (bs : list Z) : Z := be_value bs.
Definition be_i64 (bs : list Z) : Z := wrapS 64 (be_value bs).
Definition be_u64 (bs : list Z) : Z := be_value bs.

Definition is_byte (b : Z) : Prop := 0 <= b < 256.

Lemma be_bytes_length n x : length (be_bytes n x) = n.
Proof. induction n as [|k IH]; simpl; [reflexivity | now rewrite IH]. Qed.

Lemma be_bytes_is_byte n x : Forall is_byte (be_bytes n x).
Proof.
  induction n as [|k IH]; simpl; constructor; [|exact IH].
  unfold is_byte. apply Z.mod_pos_bound. lia.
Qed.

Lemma fold_be_app bs acc :
  fold_left (fun a b => a * 256 + b) bs acc
  = acc * 256 ^ Z.of_nat (length bs) + be_value bs.
Proof.
  unfold be_value. revert acc.
  induction bs as [|b bs IH]; intros acc.
  - simpl. lia.
  - cbn [fold_left length]. rewrite IH, (IH (0 * 256 + b)).
    rewrite Nat2Z.inj_succ, Z.pow_succ_r by lia. ring.
Qed.

(** Reading back what was written gives the number modulo [256 ^ n]. *)
Lemma be_value_be_bytes n x :
  be_value (be_bytes n x) = x mod 256 ^ Z.of_nat n.
Proof.
  induction n as [|k IH].
  - simpl. now rewrite Z.mod_1_r.
  - cbn [be_bytes]. unfold be_value. cbn [fold_left].
    rewrite fold_be_app, be_bytes_length, IH.
    rewrite Nat2Z.inj_succ, Z.pow_succ_r by lia.
    assert (Hp : 0 < 256 ^ Z.of_nat k) by (apply Z.pow_pos_nonneg; lia).
    rewrite (Z.mul_comm 256), Z.rem_mul_r by lia.
    ring.
Qed.

Lemma wrapU_small w x : 0 <= x < 2 ^ w -> wrapU w x = x.
Proof. intros H. unfold wrapU. now apply Z.mod_small. Qed.

Lemma wrapS_small w x :
  0 < w -> - 2 ^ (w - 1) <= x < 2 ^ (w - 1) -> wrapS w x = x.
Proof.
  intros Hw H. unfold wrapS.
  assert (E : 2 ^ w = 2 * 2 ^ (w - 1)).
  { replace w with (Z.succ (w - 1)) at 1 by lia. apply Z.pow_succ_r. lia. }
  rewrite Z.mod_small; lia.
Qed.

End Enc.

(* ===================================================================== *)
(** ** Files (os.File): a byte list, a cursor and the O_APPEND flag      *)
(* ===================================================================== *)

Module OsFile.

Record File := mkFile {
  content : list Z;      (* the bytes of the file *)
  cursor : Z;            (* the handle's offset *)
  appendMode : bool      (* opened with os.O_APPEND *)
}.

(** [os.OpenFile]: a fresh handle at offset 0. *)
Definition openFile (append : bool) (bytes : list Z) : File :=
  mkFile bytes 0 append.

Definition size (f : File) : Z := Z.of_nat (length (content f)).

(** [f.Seek(off, 0)]: fails on a negative offset, the cursor then stays. *)
Definition seekStart (f : File) (off : Z) : option File :=
  if off <? 0 then None else Some (mkFile (content f) off (appendMode f)).

(** [f.Seek(0, 2)]: the cursor goes to the end, which is returned. *)
Definition seekEnd (f : File) : File * Z :=
  (mkFile (content f) (size f) (appendMode f), size f).

(** Bytes [d] stored at byte offset [p]; a gap past the end reads as 0. *)
Definition overwrite (c : list Z) (p : nat) (d : list Z) : list Z :=
  take p c ++ replicate (p - length c) 0 ++ d ++ drop (p + length d) c.

(** [f.Write(d)]: with O_APPEND every write lands at the end of the file
    whatever the cursor is; without it the bytes go at the cursor. *)
Definition write (f : File) (d : list Z) : File :=
  if appendMode f then
    mkFile (content f ++ d) (size f + Z.of_nat (length d)) true
  else
    mkFile (overwrite (content f) (Z.to_nat (cursor f)) d)
           (cursor f + Z.of_nat (length d)) false.

(** The bytes from the cursor on. *)
Definition rest (f : File) : list Z := drop (Z.to_nat (cursor f)) (content f).

Definition advance (f : File) (n : nat) : File :=
  mkFile (content f) (cursor f + Z.of_nat n) (appendMode f).

(** [io.ReadFull(f, buf)] with [len(buf) = n], as [binary.Read] does it:
    all [n] bytes or an error. *)
Definition readFull (f : File) (n : nat) : option (list Z * File) :=
  if (n <=? length (rest f))%nat
  then Some (take n (rest f), advance f n)
  else None.

(** [f.Read(buf)] with [len(buf) = n]: what is there, up to [n] bytes;
    an error (io.EOF) when nothing is left and [n > 0]. *)
Definition read (f : File) (n : nat) : option (list Z * File) :=
  match n, rest f with
  | O, _ => Some ([], f)
  | S _, [] => None
  | S _, _ => let got := take n (rest f) in Some (got, advance f (length got))
  end.

End OsFile.

(* ===================================================================== *)
(** ** The proof/TTL flat-file workers                                   *)
(* ===================================================================== *)

Module FlatFile.
Import Enc OsFile.

(** *** flatFileBlockWorker *)

(** The worker's variables; [offsetChan] is what it has sent so far. *)
Record BlockWorker := mkBlockWorker {
  proofFile : File;
  offsetFile : File;
  curOffset : Z;            (* int64 *)
  proofWriteHeight : Z;     (* int32 *)
  offsetChan : list Z
}.

(** How the code before the main loop ends: it reaches the loop, it
    panics, or the model's fuel is used up. *)
Inductive Startup (A : Type) :=
| Started (a : A)
| Panicked (sent : list Z)
| OutOfFuel.
Arguments Started {A} a.
Arguments Panicked {A} sent.
Arguments OutOfFuel {A}.

(** The start-up loop
      for offsetPos < offsetMax {
        err = binary.Read(offsetFile, binary.BigEndian, &curOffset)
        if err != nil { panic(err) }
        offsetChan <- curOffset
      }
    [offsetPos] is not assigned in the body.  The result is the offset
    file handle, [curOffset] and what was sent. *)
Fixpoint populate (fuel : nat) (offsetPos offsetMax : Z) (f : File)
    (cur : Z) (sent : list Z) : Startup (File * Z * list Z) :=
  match fuel with
  | O => OutOfFuel
  | S k =>
      if offsetPos <? offsetMax then
        match readFull f 8 with
        | None => Panicked sent
        | Some (bs, f') =>
            let cur' := be_i64 bs in
            populate k offsetPos offsetMax f' cur' (sent ++ [cur'])
        end
      else Started (f, cur, sent)
  end.

(** The worker up to its main loop, on the bytes the two files hold. *)
Definition startup (fuel : nat) (proofBytes offsetBytes : list Z)
    : Startup BlockWorker :=
  let proofFile := openFile true proofBytes in
  let offsetFile := openFile true offsetBytes in
  let '(offsetFile, offsetMax) := seekEnd offsetFile in
  if negb (Z.rem offsetMax 8 =? 0) then Panicked []
  else
    let r :=
      if 0 <? offsetMax then
        match seekStart offsetFile 0 with
        | None => Panicked []
        | Some f => populate fuel (cursor f) offsetMax f 0 []
        end
      else Started (offsetFile, 0, [])
    in
    match r with
    | Started (offsetFile, curOffset, sent) =>
        let proofWriteHeight := i32 (Z.quot curOffset 8) in
        Started (mkBlockWorker proofFile offsetFile curOffset
                   proofWriteHeight sent)
    | Panicked sent => Panicked sent
    | OutOfFuel => OutOfFuel
    end.

(** The resume height the specification states: the length of the offset
    file in bytes divided by 8. *)
Definition spec_resume_height (offsetBytes : list Z) : Z :=
  Z.of_nat (length offsetBytes) / 8.

(** One round of the main loop, for the payload [pbytes] taken from
    [proofChan].  Writes are taken to succeed (an I/O error ends the
    worker). *)
Definition step (w : BlockWorker) (pbytes : list Z) : BlockWorker :=
  let off :=
    match seekStart (offsetFile w) (proofWriteHeight w * 8) with
    | Some f => f
    | None => offsetFile w
    end in
  let off := write off (be_bytes 8 (curOffset w)) in
  let pf := write (proofFile w) (be_bytes 4 (u32 (Z.of_nat (length pbytes)))) in
  let pf := write pf pbytes in
  let written := Z.of_nat (length pbytes) in
  let cur := i64 (curOffset w + (written + 4)) in
  mkBlockWorker pf off cur (i32 (proofWriteHeight w + 1))
    (offsetChan w ++ [cur]).

(** What the specification asks a record to start with. *)
Definition magic : list Z := [0xaa; 0xff; 0xaa; 0xff].

(** The record the specification describes for a payload. *)
Definition spec_record (pbytes : list Z) : list Z :=
  magic ++ be_bytes 4 (u32 (Z.of_nat (length pbytes))) ++ pbytes.

(** *** flatFileTTLWorker *)

Record txoStart := mkTxoStart {
  createHeight : Z;         (* int32 *)
  indexWithinBlock : Z      (* unsigned, [idxBits] wide *)
}.

Record ttlResultBlock := mkTtlResultBlock {
  Height : Z;               (* int32 *)
  Created : list txoStart
}.

Record TTLWorker := mkTTLWorker {
  inRamOffsets : list Z;
  maxOffsetHeight : Z;      (* int32 *)
  ttlProofFile : File
}.

Inductive TTLResult :=
| TTLDone (w : TTLWorker) (chan : list Z)
| TTLBlocked                (* waits on an empty offsetChan *)
| TTLPanic.                 (* index out of range *)

Section TTL.

(** The declaration of [txoStart] is not among the sources at hand: the
    width of [indexWithinBlock], in which [c.indexWithinBlock*4] is
    computed, is a parameter. *)
Variable idxBits : Z.

(** [flatFileTTLWorker] opens the proof file with
    O_APPEND|O_CREATE|O_WRONLY. *)
Definition ttlStart (proofBytes : list Z) : TTLWorker :=
  mkTTLWorker [] 1 (openFile true proofBytes).

(** [case nextOffset := <-offsetChan]. *)
Definition gotOffset (w : TTLWorker) (nextOffset : Z) : TTLWorker :=
  mkTTLWorker (inRamOffsets w ++ [nextOffset]) (i32 (maxOffsetHeight w + 1))
    (ttlProofFile w).

(** [for ttlRes.Height > maxOffsetHeight { inRamOffsets = append(
    inRamOffsets, <-offsetChan); maxOffsetHeight++ }], with [chan] what
    the block worker has sent and the TTL worker not yet received. *)
Fixpoint catchUp (h : Z) (w : TTLWorker) (chan : list Z) : TTLResult :=
  match chan with
  | [] => if maxOffsetHeight w <? h then TTLBlocked else TTLDone w []
  | o :: chan' =>
      if maxOffsetHeight w <? h then catchUp h (gotOffset w o) chan'
      else TTLDone w chan
  end.

(** The offset the worker seeks to for one entry. *)
Definition ttlSeekPos (offs : Z) (c : txoStart) : Z :=
  i64 (i64 (offs + 4) + wrapU idxBits (indexWithinBlock c * 4)).

(** One entry of [ttlRes.Created]: seek (errors ignored), write. *)
Definition patchOne (h : Z) (w : TTLWorker) (c : txoStart) : option TTLWorker :=
  if (0 <=? createHeight c) && (createHeight c <? Z.of_nat (length (inRamOffsets w)))
  then
    match inRamOffsets w !! Z.to_nat (createHeight c) with
    | None => None
    | Some offs =>
        let f := match seekStart (ttlProofFile w) (ttlSeekPos offs c) with
                 | Some f => f
                 | None => ttlProofFile w
                 end in
        let f := write f (be_bytes 4 (i32 (h - createHeight c))) in
        Some (mkTTLWorker (inRamOffsets w) (maxOffsetHeight w) f)
    end
  else None.

Fixpoint patchAll (h : Z) (w : TTLWorker) (cs : list txoStart)
    : option TTLWorker :=
  match cs with
  | [] => Some w
  | c :: cs' =>
      match patchOne h w c with
      | None => None
      | Some w' => patchAll h w' cs'
      end
  end.

(** [case ttlRes := <-ttlResultChan]. *)
Definition gotTTL (w : TTLWorker) (chan : list Z)
    (ttlRes : ttlResultBlock) : TTLResult :=
  match catchUp (Height ttlRes) w chan with
  | TTLDone w' chan' =>
      match patchAll (Height ttlRes) w' (Created ttlRes) with
      | Some w'' => TTLDone w'' chan'
      | None => TTLPanic
      end
  | other => other
  end.

End TTL.

End FlatFile.

(* ===================================================================== *)
(** ** Properties of the flat-file workers                               *)
(* ===================================================================== *)

Module FlatFileProps.
Import Enc OsFile FlatFile.

(** A handle opened with O_APPEND only ever grows its file. *)
Lemma write_append f d :
  appendMode f = true -> content (write f d) = content f ++ d.
Proof. intros H. unfold write. now rewrite H. Qed.

Lemma write_keeps_mode f d : appendMode (write f d) = appendMode f.
Proof. unfold write. destruct (appendMode f) eqn:E; reflexivity. Qed.

(** Without O_APPEND the bytes land at the cursor. *)
Lemma write_in_place f d :
  appendMode f = false ->
  content (write f d) = overwrite (content f) (Z.to_nat (cursor f)) d.
Proof. intros H. unfold write. now rewrite H. Qed.

(** *** The block worker's main loop *)

(** Each round appends the 4-byte length and the payload, and nothing
    before them. *)
Lemma step_appends w pbytes :
  appendMode (proofFile w) = true ->
  content (proofFile (step w pbytes))
  = content (proofFile w)
    ++ be_bytes 4 (u32 (Z.of_nat (length pbytes))) ++ pbytes.
Proof.
  intros H. unfold step. cbn [proofFile].
  rewrite write_append by (now rewrite write_keeps_mode).
  rewrite write_append by exact H.
  now rewrite <- app_assoc.
Qed.

Lemma step_curOffset w pbytes :
  curOffset (step w pbytes)
  = i64 (curOffset w + (Z.of_nat (length pbytes) + 4)).
Proof. reflexivity. Qed.

(** The bytes of a round are 4 shorter than the record of the
    specification, so they are never that record. *)
Lemma step_bytes_not_spec_record pbytes :
  be_bytes 4 (u32 (Z.of_nat (length pbytes))) ++ pbytes <> spec_record pbytes.
Proof.
  intros E. apply (f_equal (@length Z)) in E.
  unfold spec_record, magic in E.
  rewrite !length_app, be_bytes_length in E. cbn [length] in E. lia.
Qed.

(** C1 (code as written, at the payload [[7]] on fresh files): the worker
    starts, appends [00 00 00 01 07] to the proof file, which is not the
    record [aa ff aa ff 00 00 00 01 07] of the specification, and moves
    [curOffset] from 0 to 5, not to 8 + 1. *)
Theorem block_worker_writes_no_magic :
  exists w0,
    startup 1 [] [] = Started w0 /\
    curOffset w0 = 0 /\
    content (proofFile w0) = [] /\
    content (proofFile (step w0 [7])) = [0; 0; 0; 1; 7] /\
    spec_record [7] = [0xaa; 0xff; 0xaa; 0xff; 0; 0; 0; 1; 7] /\
    curOffset (step w0 [7]) = 5 /\
    curOffset (step w0 [7]) <> curOffset w0 + (8 + Z.of_nat (length [7])).
Proof.
  eexists. split; [reflexivity|].
  repeat split; try reflexivity. discriminate.
Qed.

(** *** The block worker's start-up *)

Lemma readFull_rest f n bs f' :
  readFull f n = Some (bs, f') ->
  0 <= cursor f ->
  (length (rest f') = length (rest f) - n)%nat /\ 0 <= cursor f'.
Proof.
  unfold readFull. destruct (n <=? length (rest f))%nat eqn:E; [|discriminate].
  intros [= <- <-] Hc. unfold rest, advance; cbn [cursor content].
  split; [|lia].
  rewrite !length_drop. lia.
Qed.

(** While [offsetPos < offsetMax] holds the loop can only end in a panic:
    it is never left through its condition. *)
Lemma populate_never_started fuel offsetPos offsetMax f cur sent r :
  offsetPos < offsetMax ->
  populate fuel offsetPos offsetMax f cur sent <> Started r.
Proof.
  intros Hlt. revert f cur sent.
  induction fuel as [|k IH]; intros f cur sent; cbn [populate]; [discriminate|].
  destruct (Z.ltb_spec offsetPos offsetMax) as [_|]; [|lia].
  destruct (readFull f 8) as [[bs f']|]; [apply IH | discriminate].
Qed.

(** With fuel for one more read than the file has entries left, the loop
    ends, in the panic of the failed read. *)
Lemma populate_panics fuel offsetPos offsetMax f cur sent :
  offsetPos < offsetMax ->
  0 <= cursor f ->
  (length (rest f) / 8 < fuel)%nat ->
  exists sent', populate fuel offsetPos offsetMax f cur sent = Panicked sent'.
Proof.
  intros Hlt. revert f cur sent.
  induction fuel as [|k IH]; intros f cur sent Hc Hf; [lia|].
  cbn [populate].
  destruct (Z.ltb_spec offsetPos offsetMax) as [_|]; [|lia].
  destruct (readFull f 8) as [[bs f']|] eqn:E; [|eauto].
  destruct (readFull_rest _ _ _ _ E Hc) as [Hl Hc'].
  apply IH; [exact Hc'|].
  assert (8 <= length (rest f))%nat.
  { unfold readFull in E.
    destruct (Nat.leb_spec 8 (length (rest f))); [lia | discriminate]. }
  rewrite Hl.
  assert (length (rest f) / 8 = S ((length (rest f) - 8) / 8))%nat.
  { replace (length (rest f)) with ((length (rest f) - 8) + 1 * 8)%nat at 1 by lia.
    rewrite Nat.div_add by lia. lia. }
  lia.
Qed.

(** On every offset file that is not empty the worker panics before its
    main loop: no resume height is ever computed. *)
Lemma startup_nonempty_panics fuel proofBytes offsetBytes :
  offsetBytes <> [] ->
  (length offsetBytes mod 8 = 0)%nat ->
  (length offsetBytes / 8 < fuel)%nat ->
  exists sent, startup fuel proofBytes offsetBytes = Panicked sent.
Proof.
  intros Hne Hm Hf. unfold startup, seekEnd, size, openFile.
  cbn [content appendMode].
  assert (Hr : Z.rem (Z.of_nat (length offsetBytes)) 8 = 0).
  { rewrite Z.rem_mod_nonneg by lia.
    change 8 with (Z.of_nat 8). rewrite <- Nat2Z.inj_mod, Hm. reflexivity. }
  rewrite Hr. cbn [Z.eqb negb].
  assert (Hpos : 0 < Z.of_nat (length offsetBytes)).
  { destruct offsetBytes; [congruence | cbn [length]; lia]. }
  destruct (Z.ltb_spec 0 (Z.of_nat (length offsetBytes))) as [_|]; [|lia].
  unfold seekStart. cbn [Z.ltb Z.compare cursor].
  destruct (populate_panics fuel 0 (Z.of_nat (length offsetBytes))
              (mkFile offsetBytes 0 true) 0 []) as [sent Hs].
  - exact Hpos.
  - cbn. lia.
  - unfold rest. cbn [cursor content Z.to_nat drop]. exact Hf.
  - exists sent. cbn [content appendMode]. now rewrite Hs.
Qed.

(** On an empty offset file the worker starts at height 0. *)
Lemma startup_empty fuel proofBytes :
  startup fuel proofBytes []
  = Started (mkBlockWorker (openFile true proofBytes)
               (mkFile [] 0 true) 0 0 []).
Proof. reflexivity. Qed.

(** C7 (code as written, at the offset file of one entry, the 8 bytes of
    offset 0): the specification's resume height is 1; the worker reads
    the entry, sends it, reads again at the end of the file and panics,
    whatever the fuel of the model. *)
Theorem startup_one_entry_panics :
  spec_resume_height (be_bytes 8 0) = 1 /\
  startup 2 [] (be_bytes 8 0) = Panicked [0] /\
  forall fuel w, startup fuel [] (be_bytes 8 0) <> Started w.
Proof.
  split; [reflexivity|]. split; [reflexivity|].
  intros fuel w.
  destruct fuel as [|[|k]]; discriminate.
Qed.

(** *** The TTL worker *)

(** The proof file as the block worker leaves it after two payloads of
    12 zero bytes on fresh files: two 16-byte records. *)
Definition two_records : list Z :=
  content (proofFile
    (step (step (mkBlockWorker (openFile true []) (openFile true []) 0 0 [])
             (replicate 12 0)) (replicate 12 0))).

(** The seek target is 4 past the offset, not 8, plus 4 per index. *)
Lemma ttlSeekPos_value idxBits offs c :
  0 <= offs < 2 ^ 62 ->
  0 <= indexWithinBlock c * 4 < 2 ^ idxBits ->
  idxBits <= 62 ->
  ttlSeekPos idxBits offs c = offs + 4 + indexWithinBlock c * 4.
Proof.
  intros Ho Hi Hb. unfold ttlSeekPos.
  rewrite (wrapU_small idxBits) by exact Hi.
  assert (2 ^ idxBits <= 2 ^ 62) by (apply Z.pow_le_mono_r; lia).
  unfold i64. rewrite (wrapS_small 64 (offs + 4)) by (cbn; lia).
  rewrite wrapS_small by (cbn; lia). reflexivity.
Qed.

(** The handle of the TTL worker is in append mode from its start on. *)
Lemma patchOne_mode idxBits h w c w' :
  patchOne idxBits h w c = Some w' ->
  appendMode (ttlProofFile w) = true ->
  appendMode (ttlProofFile w') = true /\
  content (ttlProofFile w')
  = content (ttlProofFile w) ++ be_bytes 4 (i32 (h - createHeight c)).
Proof.
  unfold patchOne. intros H Hm.
  destruct (_ && _); [|discriminate].
  destruct (inRamOffsets w !! _) as [offs|]; [|discriminate].
  injection H as <-. cbn [ttlProofFile].
  assert (Hs : appendMode
            (match seekStart (ttlProofFile w) (ttlSeekPos idxBits offs c) with
             | Some f => f | None => ttlProofFile w end) = true
          /\ content
            (match seekStart (ttlProofFile w) (ttlSeekPos idxBits offs c) with
             | Some f => f | None => ttlProofFile w end)
            = content (ttlProofFile w)).
  { unfold seekStart. destruct (_ <? 0); cbn; auto. }
  destruct Hs as [Hs1 Hs2].
  rewrite write_keeps_mode, write_append by exact Hs1.
  now rewrite Hs1, Hs2.
Qed.

(** C2 (code as written, on the two records above, with the offsets 16
    and 32 the block worker sent, for the TTL block of height 3 with the
    entry (createHeight 0, indexWithinBlock 1)): the worker seeks to
    16 + 4 + 4 = 24, not to 16 + 8 + 4 = 28; its handle is in append mode,
    so the four bytes [00 00 00 03] land at the end of the file, which
    grows from 32 to 36 bytes; bytes 28..31 stay zero.  The same holds for
    a 16-bit and a 32-bit index. *)
Theorem ttl_worker_patches_elsewhere :
  length two_records = 32%nat /\
  ttlSeekPos 16 16 (mkTxoStart 0 1) = 24 /\
  ttlSeekPos 32 16 (mkTxoStart 0 1) = 24 /\
  gotTTL 16 (ttlStart two_records) [16; 32]
    (mkTtlResultBlock 3 [mkTxoStart 0 1])
  = TTLDone (mkTTLWorker [16; 32] 3
               (mkFile (two_records ++ [0; 0; 0; 3]) 36 true)) [] /\
  gotTTL 32 (ttlStart two_records) [16; 32]
    (mkTtlResultBlock 3 [mkTxoStart 0 1])
  = TTLDone (mkTTLWorker [16; 32] 3
               (mkFile (two_records ++ [0; 0; 0; 3]) 36 true)) [] /\
  take 4 (drop 28 (two_records ++ [0; 0; 0; 3])) = [0; 0; 0; 0] /\
  be_bytes 4 (3 - 0) = [0; 0; 0; 3].
Proof. repeat split; reflexivity. Qed.

End FlatFileProps.

(* ===================================================================== *)
(** ** The read side: GetUDataBytesFromFile (bridgenode/server.go)       *)
(* ===================================================================== *)

Module ProofReader.
Import Enc OsFile.

(** The two files of a proof directory; [None] is a file that
    [os.OpenFile] cannot open. *)
Record proofDir := mkProofDir {
  pOffsetFile : option (list Z);
  pFile : option (list Z)
}.

(** What the function does to the outside, in order. *)
Inductive Event :=
| OpenOffsetFile
| OpenProofFile
| SeekOffsetFile (pos : Z)
| ReadOffset
| SeekProofFile (pos : Z)
| ReadMagic
| ReadSize
| Alloc (size : Z)          (* b = make([]byte, size) *)
| ReadPayload
| CloseFiles.

(** The named results [(b []byte, err error)] and the events so far.
    [b = None] is the nil slice, [err = true] a non-nil error. *)
Record Outcome := mkOutcome {
  b : option (list Z);
  err : bool;
  trace : list Event
}.

Definition fail (tr : list Event) : Outcome := mkOutcome None true tr.

Definition realMagic : list Z := [0xaa; 0xff; 0xaa; 0xff].

Definition maxSize : Z := Z.shiftl 1 24.

(** [int64(8*height)]: the product is computed in int32. *)
Definition offsetEntryPos (height : Z) : Z := i32 (8 * height).

Definition bytes_eqb (x y : list Z) : bool :=
  if decide (x = y) then true else false.

Definition GetUDataBytesFromFile (dir : proofDir) (height : Z) : Outcome :=
  if height =? 0 then fail []
  else
    match pOffsetFile dir with
    | None => fail [OpenOffsetFile]
    | Some obytes =>
    let offsetFile := openFile false obytes in
    let tr := [OpenOffsetFile] in
    match pFile dir with
    | None => fail (tr ++ [OpenProofFile])
    | Some pbytes =>
    let proofFile := openFile false pbytes in
    let tr := tr ++ [OpenProofFile] in
    let tr := tr ++ [SeekOffsetFile (offsetEntryPos height)] in
    match seekStart offsetFile (offsetEntryPos height) with
    | None => fail tr
    | Some offsetFile =>
    let tr := tr ++ [ReadOffset] in
    match readFull offsetFile 8 with
    | None => fail tr
    | Some (obs, offsetFile) =>
    let offset := be_i64 obs in
    let tr := tr ++ [SeekProofFile offset] in
    match seekStart proofFile offset with
    | None => fail tr
    | Some proofFile =>
    let tr := tr ++ [ReadMagic] in
    match read proofFile 4 with
    | None => fail tr
    | Some (readMagic, proofFile) =>
    if negb (length readMagic =? 4)%nat then fail tr
    else if negb (bytes_eqb readMagic realMagic) then fail tr
    else
    let tr := tr ++ [ReadSize] in
    match readFull proofFile 4 with
    | None => fail tr
    | Some (sbs, proofFile) =>
    let size := be_u32 sbs in
    if maxSize <? size then fail tr
    else
    let tr := tr ++ [Alloc size] in
    let buf := replicate (Z.to_nat size) 0 in
    let tr := tr ++ [ReadPayload] in
    match read proofFile (Z.to_nat size) with
    | None => mkOutcome (Some buf) true tr
    | Some (got, proofFile) =>
        let buf := got ++ drop (length got) buf in
        mkOutcome (Some buf) false (tr ++ [CloseFiles])
    end end end end end end end end.

(** The entry of the offset file that the function reads for [height]. *)
Definition recordedOffset (obytes : list Z) (height : Z) : option Z :=
  if offsetEntryPos height <? 0 then None
  else
    let bs := take 8 (drop (Z.to_nat (offsetEntryPos height)) obytes) in
    if (length bs =? 8)%nat then Some (be_i64 bs) else None.

(** The [n] bytes of the proof file at byte offset [off]. *)
Definition bytesAt (pbytes : list Z) (off : Z) (n : nat) : list Z :=
  take n (drop (Z.to_nat off) pbytes).

(** The length field of the record at [off], when the file holds it. *)
Definition recordedSize (pbytes : list Z) (off : Z) : option Z :=
  let bs := bytesAt pbytes (off + 4) 4 in
  if (length bs =? 4)%nat then Some (be_u32 bs) else None.

End ProofReader.

Module ProofReaderProps.
Import Enc OsFile ProofReader.

Lemma bytes_eqb_true x y : bytes_eqb x y = true <-> x = y.
Proof. unfold bytes_eqb. destruct (decide (x = y)); split; congruence. Qed.


(** Reading the offset entry is [recordedOffset]. *)
Lemma read_offset_entry obytes height :
  match seekStart (openFile false obytes) (offsetEntryPos height) with
  | None => recordedOffset obytes height = None
  | Some f =>
      match readFull f 8 with
      | None => recordedOffset obytes height = None
      | Some (obs, _) => recordedOffset obytes height = Some (be_i64 obs)
      end
  end.
Proof.
  unfold recordedOffset, seekStart, readFull, rest, openFile.
  destruct (offsetEntryPos height <? 0); [reflexivity|].
  cbn [cursor content].
  set (d := drop (Z.to_nat (offsetEntryPos height)) obytes).
  rewrite length_take.
  destruct (Nat.leb_spec 8 (length d)).
  - rewrite Nat.min_l by lia. reflexivity.
  - destruct (Nat.eqb_spec (8 `min` length d) 8); [lia | reflexivity].
Qed.

(** What the function does once the offset [off] is known: the part of the
    body from [proofFile.Seek(offset, 0)] on. *)
Definition afterOffset (pbytes : list Z) (off : Z) (tr : list Event) : Outcome :=
  let tr := tr ++ [SeekProofFile off] in
  if off <? 0 then fail tr
  else
    let tr := tr ++ [ReadMagic] in
    if bool_decide (drop (Z.to_nat off) pbytes = []) then fail tr
    else if negb (length (bytesAt pbytes off 4) =? 4)%nat then fail tr
    else if negb (bytes_eqb (bytesAt pbytes off 4) realMagic) then fail tr
    else
      let tr := tr ++ [ReadSize] in
      match recordedSize pbytes off with
      | None => fail tr
      | Some size =>
          if maxSize <? size then fail tr
          else
            let tr := tr ++ [Alloc size; ReadPayload] in
            let buf := replicate (Z.to_nat size) 0 in
            match read (mkFile pbytes (off + 4 + 4) false) (Z.to_nat size) with
            | None => mkOutcome (Some buf) true tr
            | Some (got, _) =>
                mkOutcome (Some (got ++ drop (length got) buf)) false
                  (tr ++ [CloseFiles])
            end
      end.

Lemma GetUData_unfold dir height obytes pbytes off :
  height <> 0 ->
  pOffsetFile dir = Some obytes ->
  pFile dir = Some pbytes ->
  recordedOffset obytes height = Some off ->
  GetUDataBytesFromFile dir height
  = afterOffset pbytes off
      [OpenOffsetFile; OpenProofFile; SeekOffsetFile (offsetEntryPos height);
       ReadOffset].
Proof.
  intros Hh Ho Hp Hr. unfold GetUDataBytesFromFile.
  destruct (Z.eqb_spec height 0) as [|_]; [contradiction|].
  rewrite Ho, Hp.
  pose proof (read_offset_entry obytes height) as E.
  destruct (seekStart (openFile false obytes) (offsetEntryPos height))
    as [f|]; [|congruence].
  destruct (readFull f 8) as [[obs f']|]; [|congruence].
  assert (be_i64 obs = off) as -> by congruence.
  unfold afterOffset. cbn [app].
  unfold seekStart at 1. cbn [content appendMode openFile].
  destruct (off <? 0) eqn:Eoff; [reflexivity|].
  apply Z.ltb_ge in Eoff.
  unfold read at 1. unfold rest. cbn zeta. cbn [cursor content].
  unfold bytesAt at 1 2.
  destruct (drop (Z.to_nat off) pbytes) as [|b0 d] eqn:Ed.
  { rewrite bool_decide_eq_true_2 by reflexivity. reflexivity. }
  rewrite bool_decide_eq_false_2 by discriminate.
  destruct (negb (length (take 4 (b0 :: d)) =? 4)%nat) eqn:El; [reflexivity|].
  apply negb_false_iff, Nat.eqb_eq in El.
  destruct (negb (bytes_eqb (take 4 (b0 :: d)) realMagic)); [reflexivity|].
  unfold advance. cbn [content cursor appendMode]. rewrite El.
  unfold recordedSize, bytesAt, readFull, rest. cbn [content cursor].
  change (Z.of_nat 4) with 4.
  set (d4 := drop (Z.to_nat (off + 4)) pbytes).
  rewrite length_take.
  destruct (Nat.leb_spec 4 (length d4)).
  - rewrite Nat.min_l by lia. rewrite Nat.eqb_refl.
    unfold advance. cbn [content cursor appendMode].
    destruct (maxSize <? be_u32 (take 4 d4)); [reflexivity|].
    change (Z.of_nat 4) with 4.
    destruct (read _ _) as [[got f'']|]; cbn [app]; rewrite <- ?app_assoc;
      reflexivity.
  - destruct (Nat.eqb_spec (4 `min` length d4) 4); [lia | reflexivity].
Qed.


(** C10: for the height 0 the function returns an error at once: the
    result is (nil, error) and nothing was opened, sought or read. *)
Theorem GetUData_height_zero dir :
  GetUDataBytesFromFile dir 0 = mkOutcome None true [].
Proof. reflexivity. Qed.








(** *** C8 past the height 2^29 *)






End ProofReaderProps.

(* ===================================================================== *)
(** ** The forest (accumulator/forest.go, accumulator/forestdata.go)     *)
(* ===================================================================== *)

Module Accumulator.
Import Enc.

(** A [Hash] is a [[32]byte], a [MiniHash] a prefix of one. *)
Abbreviation Hash := (list Z) (only parsing).
Abbreviation MiniHash := (list Z) (only parsing).

Definition leafSize : nat := 32.

(** [var empty Hash]: the all-zero hash. *)
Definition empty : Hash := replicate leafSize 0.

(** Modelled from the spec: [Mini] is not among the sources at hand; a
    MiniHash is "a short prefix of a Hash (implementation-defined, at
    least 8 bytes)", here the first 12 bytes. *)
Definition Mini (h : Hash) : MiniHash := take 12 h.

Record Leaf := mkLeaf {
  leafHash : Hash;          (* the embedded Hash *)
  Remember : bool
}.

Definition hash_eqb (x y : Hash) : bool := bool_decide (x = y).

(** *** Positions *)

(** Modelled from the spec: [parent] is not among the sources at hand.
    Positions are numbered from the bottom left, row after row, in a
    perfect tree of [rows] rows above the leaves: the leaves are
    [0 .. 2^rows - 1], row 1 follows, the top is the highest position.
    The parent drops the lowest bit and sets bit [rows]. *)
Definition parent (position rows : Z) : Z :=
  Z.lor (Z.shiftr position 1) (u64 (Z.shiftl 1 rows)).

(** [rise] times the parent. *)
Fixpoint parentMany (rise : nat) (position rows : Z) : Z :=
  match rise with
  | O => position
  | S k => parent (parentMany k position rows) rows
  end.

(** The right child, again and again down to the leaves:
    [for pos&marker != 0 { pos = ((pos << 1) & mask) | 1 }]. *)
Fixpoint descend (fuel : nat) (pos marker mask : Z) : Z :=
  match fuel with
  | O => pos
  | S k =>
      if Z.land pos marker =? 0 then pos
      else descend k (Z.lor (Z.land (Z.shiftl pos 1) mask) 1) marker mask
  end.

(** Modelled from the spec: [inForest] is not among the sources at hand.
    "A position is in forest iff it lies within a live subtree rooted at
    one of the current roots": the leaves [0 .. numLeaves - 1] are live,
    so a position is in the forest iff the right-most leaf below it is
    live; the positions from [2^(rows+1) - 1] on are outside the tree. *)
Definition inForest (pos numLeaves rows : Z) : bool :=
  if pos <? numLeaves then true
  else
    let marker := u64 (Z.shiftl 1 rows) in
    let mask := u64 (Z.shiftl marker 1 - 1) in
    if mask <=? pos then false
    else descend (Z.to_nat rows) pos marker mask <? numLeaves.

(** The roots of the rows below [k], for the leaves from [position] on. *)
Fixpoint rootsBelow (k : nat) (position leaves rows : Z) : list Z :=
  match k with
  | O => []
  | S r =>
      if Z.testbit leaves (Z.of_nat r)
      then parentMany r position rows
           :: rootsBelow r (position + 2 ^ Z.of_nat r) leaves rows
      else rootsBelow r position leaves rows
  end.

(** Modelled from the spec: [getRootsForwards] is not among the sources at
    hand.  "The bits of numLeaves select which roots exist", one root
    [row] rows above the first leaf of its tree.  [addv2] takes the root of
    row [h], counted from the lowest tree, at [len(list) - (h+1)]: the
    list runs from the tallest tree, on the left, to the lowest. *)
Definition getRootsForwards (numLeaves rows : Z) : list Z :=
  rootsBelow (S (Z.to_nat rows)) 0 numLeaves rows.

(** [sortUint64s]: the slice, ascending. *)
Definition sortUint64s (s : list Z) : list Z := merge_sort Z.le s.

(** One sweep over a sorted list: two neighbours that are siblings give
    way to their parent. *)
Fixpoint collapseTwins (rows : Z) (fuel : nat) (l : list Z) : list Z :=
  match fuel with
  | O => l
  | S k =>
      match l with
      | a :: b :: t =>
          if (Z.lor a 1 =? b) && negb (a =? b)
          then parent a rows :: collapseTwins rows k t
          else a :: collapseTwins rows k (b :: t)
      | _ => l
      end
  end.

Fixpoint condenseRounds (rows : Z) (rounds : nat) (l : list Z) : list Z :=
  match rounds with
  | O => l
  | S k =>
      condenseRounds rows k (sortUint64s (collapseTwins rows (length l) l))
  end.

(** Modelled from the spec: [condenseDeletions] is not among the sources
    at hand.  "Adjacent siblings collapse to their parent; the process
    iterates upward until no pair collapses", one round per row. *)
Definition condenseDeletions_spec (dels : list Z) (rows : Z) : list Z :=
  condenseRounds rows (Z.to_nat rows) dels.

(** *** The engine's state and its effects *)

(** A forest on the RAM backend: [data] is [ramForestData.m]. *)
Record Forest := mkForest {
  numLeaves : Z;                      (* uint64 *)
  rows : Z;                           (* uint8 *)
  data : list Hash;                   (* ramForestData.m *)
  positionMap : gmap MiniHash Z
}.

(** A call returns with a value and the forest as it left it, panics
    (an index out of range, a failed allocation), or does not end within
    the fuel of the model. *)
Inductive Res (A : Type) :=
| Ok (a : A) (f : Forest)
| Panic
| OutOfFuel.
Arguments Ok {A} a f.
Arguments Panic {A}.
Arguments OutOfFuel {A}.

Definition M (A : Type) : Type := Forest -> Res A.

#[global] Instance M_ret : MRet M := fun A a f => Ok a f.
#[global] Instance M_bind : MBind M := fun A B k m f =>
  match m f with
  | Ok a f' => k a f'
  | Panic => Panic
  | OutOfFuel => OutOfFuel
  end.

Definition get : M Forest := fun f => Ok f f.
Definition panic {A} : M A := fun _ => Panic.
Definition outOfFuel {A} : M A := fun _ => OutOfFuel.

(** [for _, x := range l { body(x) }]. *)
Fixpoint forEach {A} (l : list A) (body : A -> M unit) : M unit :=
  match l with
  | [] => mret tt
  | x :: l' => body x ;; forEach l' body
  end.

(** *** ramForestData *)

Definition inRange (pos : Z) (m : list Hash) : bool :=
  (0 <=? pos) && (pos <? Z.of_nat (length m)).

(** [r.m[pos]]: out of range it panics. *)
Definition read (pos : Z) : M Hash := fun f =>
  if inRange pos (data f) then
    match data f !! Z.to_nat pos with
    | Some h => Ok h f
    | None => Panic
    end
  else Panic.

(** [r.m[pos] = h]. *)
Definition write (pos : Z) (h : Hash) : M unit := fun f =>
  if inRange pos (data f) then
    Ok tt (mkForest (numLeaves f) (rows f) (<[Z.to_nat pos := h]> (data f))
             (positionMap f))
  else Panic.

Definition size : M Z := fun f => Ok (Z.of_nat (length (data f))) f.

(** The most bytes the Go runtime hands out in one allocation on a 64-bit
    platform, and so the most 32-byte hashes in a slice. *)
Definition maxAlloc : Z := 2 ^ 48.
Definition maxSlots : Z := maxAlloc / Z.of_nat leafSize.

(** [r.m = append(r.m, make([]Hash, newSize-r.size())...)]: the
    difference is a uint64; an allocation past the limit panics. *)
Definition resize (newSize : Z) : M unit := fun f =>
  let grow := u64 (newSize - Z.of_nat (length (data f))) in
  if (grow <=? maxSlots) && (Z.of_nat (length (data f)) + grow <=? maxSlots)
  then Ok tt (mkForest (numLeaves f) (rows f)
                (data f ++ replicate (Z.to_nat grow) empty) (positionMap f))
  else Panic.

Definition setNumLeaves (n : Z) : M unit := fun f =>
  Ok tt (mkForest n (rows f) (data f) (positionMap f)).

Definition setRows (r : Z) : M unit := fun f =>
  Ok tt (mkForest (numLeaves f) r (data f) (positionMap f)).

Definition setPositionMap (pm : gmap MiniHash Z) : M unit := fun f =>
  Ok tt (mkForest (numLeaves f) (rows f) (data f) pm).

(** [NewForest] for a [RamForest]. *)
Definition NewForest : Res unit :=
  resize (u64 (Z.shiftl 2 0 - 1)) (mkForest 0 0 [] ∅).

(** What [Modify] and [reMap] return as their [error]. *)
Inductive error :=
| ErrCantDelete          (* "can't delete %d leaves, only %d exist" *)
| ErrEmptyLeaf           (* "Can't add empty (all 0s) leaf to accumulator" *)
| ErrRemapSame           (* "can't remap %d to %d... it's the same" *)
| ErrRemapFar            (* "changing by more than 1 not programmed yet" *)
| ErrRowReduction.       (* "row reduction not implemented" *)

Section Engine.

(** [parentHash] is not among the sources at hand: the hash of the
    concatenation of two hashes, a parameter here. *)
Variable parentHash : Hash -> Hash -> Hash.

(** [condenseDeletions] is not among the sources at hand: the engine is
    stated over any function of its type ([condenseDeletions_spec] is one
    that follows the specification). *)
Variable condenseDeletions : list Z -> Z -> list Z.

(** [UndoBlock] and [BuildUndoData] are not among the sources at hand: the
    undo data is built from the forest, the number of additions and the
    sorted deletions, and leaves the forest as it is. *)
Variable UndoBlock : Type.
Variable BuildUndoData : Forest -> Z -> list Z -> UndoBlock.

(** The fuel of the loops that have no bound of their own. *)
Variable fuel : nat.

(** [promote] moves a node up to its parent and returns the parent
    position. *)
Definition promote (p : Z) : M Z :=
  f ← get;
  let parentPos := parent p (rows f) in
  h ← read p;
  write parentPos h;;
  mret parentPos.

(** A position is lonely if both its aunt and its sibling are in the
    forest and one of them reads empty. *)
Definition lonely (p : Z) : M bool :=
  f ← get;
  let auntPos := Z.lxor (parent p (rows f)) 1 in
  if inForest auntPos (numLeaves f) (rows f)
     && inForest (Z.lxor p 1) (numLeaves f) (rows f)
  then
    a ← read auntPos;
    if hash_eqb a empty then mret true
    else s ← read (Z.lxor p 1); mret (hash_eqb s empty)
  else mret false.

(** [if !f.lonely(p) { p = parent(p, f.rows) }]. *)
Definition riseOnce (p : Z) : M Z :=
  l ← lonely p;
  f ← get;
  if negb l then mret (parent p (rows f)) else mret p.

(** [for f.lonely(p) { p = parent(p, f.rows); if f.data.read(p^1) != empty
    { f.promote(p ^ 1) } else { f.promote(p) } }]. *)
Fixpoint riseWhileLonely (k : nat) (p : Z) : M Z :=
  l ← lonely p;
  if (l : bool) then
    match k with
    | O => outOfFuel
    | S k' =>
        f ← get;
        let p := parent p (rows f) in
        s ← read (Z.lxor p 1);
        (if negb (hash_eqb s empty) then promote (Z.lxor p 1) else promote p);;
        riseWhileLonely k' p
    end
  else mret p.

(** The body of the main loop of [removev5] for one condensed deletion
    [p]; [dirt] is the local slice of that name. *)
Definition removeOne (dirt : list Z) (p : Z) : M (list Z) :=
  promote (Z.lxor p 1);;
  p ← riseOnce p;
  p ← riseWhileLonely fuel p;
  f ← get;
  let dirtpos := parent p (rows f) in
  if bool_decide (last dirt = Some dirtpos) then mret dirt
  else mret (dirt ++ [dirtpos]).

Fixpoint removeEach (dirt : list Z) (ps : list Z) : M (list Z) :=
  match ps with
  | [] => mret dirt
  | p :: ps' => dirt ← removeOne dirt p; removeEach dirt ps'
  end.

(** [removev5]; the error it returns is always nil. *)
Definition removev5 (dels : list Z) : M unit :=
  forEach dels (fun d =>
    h ← read d;
    f ← get;
    setPositionMap (delete (Mini h) (positionMap f)));;
  f ← get;
  let condensedDels := condenseDeletions dels (rows f) in
  removeEach [] condensedDels;;
  f ← get;
  setNumLeaves (u64 (numLeaves f - Z.of_nat (length dels))).

(** [for h := uint8(0); (f.numLeaves>>h)&1 == 1; h++ { ... }] of [addv2],
    with [list] the roots, [n] the running hash and [pos] its position. *)
Fixpoint addRise (k : nat) (h : Z) (list : list Z) (n : Hash) (pos : Z)
    : M unit :=
  f ← get;
  if Z.land (Z.shiftr (numLeaves f) h) 1 =? 1 then
    match k with
    | O => outOfFuel
    | S k' =>
        let rootPos := Z.of_nat (length list) - u8 (h + 1) in
        if (0 <=? rootPos) && (rootPos <? Z.of_nat (length list)) then
          match list !! Z.to_nat rootPos with
          | None => panic
          | Some rp =>
              root ← read rp;
              let n := parentHash root n in
              let pos := parent pos (rows f) in
              write pos n;;
              addRise k' (u8 (h + 1)) list n pos
          end
        else panic
    end
  else mret tt.

(** The body of the loop of [addv2] for one leaf. *)
Definition addOne (add : Leaf) : M unit :=
  f ← get;
  setPositionMap (<[Mini (leafHash add) := numLeaves f]> (positionMap f));;
  let list := getRootsForwards (numLeaves f) (rows f) in
  let pos := numLeaves f in
  let n := leafHash add in
  write pos n;;
  addRise 64 0 list n pos;;
  f ← get;
  setNumLeaves (u64 (numLeaves f + 1)).

Definition addv2 (adds : list Leaf) : M unit := forEach adds addOne.

(** [Add] adds leaves to the forest. *)
Definition Add (adds : list Leaf) : M unit := addv2 adds.

(** The loop over the rows of [reMap], [k] rows from the one at [pos]. *)
Fixpoint remapRows (k : nat) (pos reach : Z) : M unit :=
  match k with
  | O => mret tt
  | S k' =>
      let runLength := Z.shiftr reach 1 in
      forEach (seqZ 0 runLength) (fun x =>
        let srcPos := u64 (Z.shiftr pos 1 + x) in
        sz ← size;
        ok ← (if srcPos <? sz
              then h ← read srcPos; mret (negb (hash_eqb h empty))
              else mret false);
        src ← read srcPos;
        if (ok : bool) then write (u64 (pos + x)) src else mret tt);;
      remapRows k' (u64 (pos + reach)) (Z.shiftr reach 1)
  end.

(** [reMap] changes the rows in the forest. *)
Definition reMap (destRows : Z) : M (option error) :=
  f ← get;
  if destRows =? rows f then mret (Some ErrRemapSame)
  else if (u8 (rows f + 1) <? destRows)
          || ((0 <? rows f) && (destRows <? u8 (rows f - 1)))
  then mret (Some ErrRemapFar)
  else if destRows <? rows f then mret (Some ErrRowReduction)
  else
    resize (u64 (u64 (Z.shiftl 2 destRows) - 1));;
    let pos := u64 (Z.shiftl 1 destRows) in
    let reach := Z.shiftr pos 1 in
    remapRows (Z.to_nat (destRows - 1)) pos reach;;
    let first := u64 (Z.shiftl 1 (rows f)) in
    forEach (seqZ first (u64 (Z.shiftl 1 destRows) - first))
      (fun x => write x empty);;
    setRows destRows;;
    mret None.

(** [for int64(f.numLeaves)+delta > int64(1<<f.rows) { reMap(f.rows + 1) }]. *)
Fixpoint remapLoop (k : nat) (delta : Z) : M (option error) :=
  f ← get;
  if i64 (Z.shiftl 1 (rows f)) <? i64 (i64 (numLeaves f) + delta) then
    match k with
    | O => outOfFuel
    | S k' =>
        e ← reMap (u8 (rows f + 1));
        match e with
        | Some err => mret (Some err)
        | None => remapLoop k' delta
        end
    end
  else mret None.

(** [Modify]: the result is the pair of the undo block and the error. *)
Definition Modify (adds : list Leaf) (delsUn : list Z)
    : M (option UndoBlock * option error) :=
  f ← get;
  let numdels := Z.of_nat (length delsUn) in
  let numadds := Z.of_nat (length adds) in
  let delta := i64 (i64 (numadds - numdels)) in
  if i64 (i64 (numLeaves f) + delta) <? 0 then mret (None, Some ErrCantDelete)
  else
    let dels := sortUint64s delsUn in
    if existsb (fun a => hash_eqb (leafHash a) empty) adds
    then mret (None, Some ErrEmptyLeaf)
    else
      e ← remapLoop fuel delta;
      match e with
      | Some err => mret (None, Some err)
      | None =>
          removev5 dels;;
          f ← get;
          let ub := BuildUndoData f (u64 numadds) dels in
          addv2 adds;;
          mret (Some ub, None)
      end.

End Engine.

End Accumulator.

(* ===================================================================== *)
(** ** The geometry of positions                                         *)
(* ===================================================================== *)

Module Geometry.
Import Enc Accumulator.

(** The first position of row [k] in a tree of [R] rows above the leaves. *)
Definition rowStart (R k : Z) : Z := 2 ^ (R + 1) - 2 ^ (R + 1 - k).

Lemma pow2_gt0 n : 0 <= n -> 0 < 2 ^ n.
Proof. intros. apply Z.pow_pos_nonneg; lia. Qed.

Lemma pow2_succ n : 0 <= n -> 2 ^ (n + 1) = 2 * 2 ^ n.
Proof. intros. now rewrite Z.pow_add_r, Z.pow_1_r, Z.mul_comm by lia. Qed.

Lemma pow2_split a b : 0 <= a -> 0 <= b -> 2 ^ (a + b) = 2 ^ a * 2 ^ b.
Proof. intros. now apply Z.pow_add_r. Qed.

Lemma pow2_le a b : 0 <= a <= b -> 2 ^ a <= 2 ^ b.
Proof. intros. apply Z.pow_le_mono_r; lia. Qed.

Lemma pow2_lt a b : 0 <= a < b -> 2 ^ a < 2 ^ b.
Proof. intros. apply Z.pow_lt_mono_r; lia. Qed.

Lemma land_pow2_small x n : 0 <= n -> 0 <= x < 2 ^ n -> Z.land x (2 ^ n) = 0.
Proof.
  intros Hn Hx. apply Z.bits_inj'. intros m Hm.
  rewrite Z.land_spec, Z.bits_0, Z.pow2_bits_eqb by lia.
  destruct (Z.eqb_spec n m) as [<-|]; [|apply andb_false_r].
  rewrite andb_true_r.
  destruct (Z.eq_dec x 0) as [->|]; [apply Z.bits_0|].
  apply Z.bits_above_log2; [lia|].
  apply Z.log2_lt_pow2; lia.
Qed.

Lemma lor_pow2 x n : 0 <= n -> 0 <= x < 2 ^ n -> Z.lor x (2 ^ n) = x + 2 ^ n.
Proof.
  intros Hn Hx. pose proof (land_pow2_small x n Hn Hx) as H.
  rewrite <- Z.lxor_lor by exact H. symmetry. now apply Z.add_nocarry_lxor.
Qed.

Lemma lor_1_even x : 0 <= x -> Z.lor (2 * x) 1 = 2 * x + 1.
Proof.
  intros Hx.
  assert (H : Z.land (2 * x) 1 = 0).
  { apply Z.bits_inj'. intros m Hm.
    rewrite Z.land_spec, Z.bits_0.
    destruct (Z.eq_dec m 0) as [->|].
    - rewrite Z.testbit_even_0. reflexivity.
    - change 1 with (2 ^ 0). rewrite Z.pow2_bits_false by lia.
      apply andb_false_r. }
  rewrite <- Z.lxor_lor by exact H. symmetry. now apply Z.add_nocarry_lxor.
Qed.

Lemma u64_shiftl1 R : 0 <= R < 64 -> u64 (Z.shiftl 1 R) = 2 ^ R.
Proof.
  intros H. rewrite Z.shiftl_1_l. apply wrapU_small.
  split; [apply Z.pow_nonneg; lia | apply pow2_lt; lia].
Qed.

(** The parent in plain arithmetic. *)
Lemma parent_arith q R :
  0 <= R < 64 -> 0 <= q < 2 ^ (R + 1) -> parent q R = q / 2 + 2 ^ R.
Proof.
  intros HR Hq. unfold parent. rewrite u64_shiftl1 by exact HR.
  rewrite Z.shiftr_div_pow2 by lia. change (2 ^ 1) with 2.
  apply lor_pow2; [lia|].
  rewrite pow2_succ in Hq by lia.
  split; [apply Z.div_pos; lia | apply Z.div_lt_upper_bound; lia].
Qed.

Lemma rowStart_0 R : 0 <= R -> rowStart R 0 = 0.
Proof. intros. unfold rowStart. rewrite Z.sub_0_r. lia. Qed.

(** Row [k] holds [2 ^ (R - k)] positions. *)
Lemma rowStart_succ R k :
  0 <= k <= R -> rowStart R (k + 1) = rowStart R k + 2 ^ (R - k).
Proof.
  intros H. unfold rowStart.
  replace (R + 1 - k) with ((R - k) + 1) by lia.
  replace (R + 1 - (k + 1)) with (R - k) by lia.
  rewrite (pow2_succ (R - k)) by lia. lia.
Qed.

Lemma rowStart_bounds R k :
  0 <= k <= R -> 2 ^ (R + 1) - 2 * 2 ^ (R - k) = rowStart R k.
Proof.
  intros H. unfold rowStart.
  replace (R + 1 - k) with ((R - k) + 1) by lia.
  now rewrite (pow2_succ (R - k)) by lia.
Qed.

(** Positions of the rows [0 .. R] fill [0 .. 2^(R+1) - 2]. *)
Lemma coords_in_tree R k i :
  0 <= k <= R -> 0 <= i < 2 ^ (R - k) ->
  0 <= rowStart R k + i < 2 ^ (R + 1) - 1.
Proof.
  intros Hk Hi. rewrite <- rowStart_bounds by exact Hk.
  pose proof (pow2_gt0 (R - k)).
  assert (2 ^ (R - k) <= 2 ^ R) by (apply pow2_le; lia).
  rewrite (pow2_succ R) by lia. lia.
Qed.

(** Every position of the tree lies in one row. *)
Lemma coords_exist R q :
  0 <= R -> 0 <= q < 2 ^ (R + 1) - 1 ->
  exists k i, 0 <= k <= R /\ 0 <= i < 2 ^ (R - k) /\ q = rowStart R k + i.
Proof.
  intros HR Hq.
  assert (G : forall n : nat, (Z.of_nat n <= R + 1) ->
            q < rowStart R (Z.of_nat n) ->
            exists k i, 0 <= k <= R /\ 0 <= i < 2 ^ (R - k)
                        /\ q = rowStart R k + i).
  { induction n as [|n IH]; intros Hn Hlt.
    - rewrite rowStart_0 in Hlt; lia.
    - destruct (Z_lt_le_dec q (rowStart R (Z.of_nat n))) as [Hl|Hg].
      + apply IH; [lia | exact Hl].
      + exists (Z.of_nat n), (q - rowStart R (Z.of_nat n)).
        rewrite Nat2Z.inj_succ in Hlt, Hn. unfold Z.succ in Hlt.
        rewrite rowStart_succ in Hlt by lia. lia. }
  apply (G (Z.to_nat (R + 1))); [lia|].
  rewrite Z2Nat.id by lia. unfold rowStart.
  replace (R + 1 - (R + 1)) with 0 by lia. cbn. lia.
Qed.

(** The parent of position [i] of row [k] is position [i / 2] of row
    [k + 1]; for the top this is the first position outside the tree. *)
Lemma parent_coords R k i :
  0 <= R < 64 -> 0 <= k <= R -> 0 <= i < 2 ^ (R - k) ->
  parent (rowStart R k + i) R = rowStart R (k + 1) + i / 2.
Proof.
  intros HR Hk Hi.
  pose proof (coords_in_tree R k i Hk Hi) as Hq.
  rewrite parent_arith by lia.
  rewrite rowStart_succ by lia. rewrite <- rowStart_bounds by lia.
  rewrite (pow2_succ R) by lia.
  replace (2 * 2 ^ R - 2 * 2 ^ (R - k) + i)
    with ((2 ^ R - 2 ^ (R - k)) * 2 + i) by lia.
  rewrite Z.div_add_l by lia. lia.
Qed.


Lemma land_pow2_set x n :
  0 <= n -> 0 <= x < 2 ^ n -> Z.land (x + 2 ^ n) (2 ^ n) = 2 ^ n.
Proof.
  intros Hn Hx. rewrite <- lor_pow2 by assumption.
  rewrite Z.land_lor_distr_l, land_pow2_small, Z.land_diag by assumption.
  apply Z.lor_0_l.
Qed.

(** The right child of an inner position. *)
Lemma right_child q R :
  0 <= R -> 2 ^ R <= q < 2 ^ (R + 1) ->
  Z.lor (Z.land (Z.shiftl q 1) (2 ^ (R + 1) - 1)) 1 = 2 * (q - 2 ^ R) + 1.
Proof.
  intros HR Hq. rewrite Z.shiftl_mul_pow2 by lia. change (2 ^ 1) with 2.
  replace (2 ^ (R + 1) - 1) with (Z.ones (R + 1))
    by (rewrite Z.ones_equiv; lia).
  rewrite Z.land_ones by lia.
  rewrite pow2_succ in * by lia.
  replace (q * 2) with (2 * (q - 2 ^ R) + 1 * (2 * 2 ^ R)) by lia.
  rewrite Z.mod_add by lia. rewrite Z.mod_small by lia.
  apply lor_1_even. lia.
Qed.

(** Going down to the right from position [i] of row [k] ends at the
    last leaf below it. *)
Lemma descend_coords R (k : nat) :
  0 <= R ->
  forall (fuel : nat) i,
    (k <= fuel)%nat -> Z.of_nat k <= R -> 0 <= i < 2 ^ (R - Z.of_nat k) ->
    descend fuel (rowStart R (Z.of_nat k) + i) (2 ^ R) (2 ^ (R + 1) - 1)
    = (i + 1) * 2 ^ Z.of_nat k - 1.
Proof.
  intros HR. induction k as [|k IH]; intros fuel i Hf Hk Hi.
  - change (Z.of_nat 0) with 0 in *. rewrite rowStart_0, Z.sub_0_r in * by lia.
    assert (E : Z.land i (2 ^ R) = 0) by (apply land_pow2_small; lia).
    destruct fuel; cbn [descend]; rewrite ?Z.add_0_l, ?E; cbn; lia.
  - destruct fuel as [|fuel]; [lia|]. cbn [descend].
    rewrite Nat2Z.inj_succ in *. unfold Z.succ in *.
    pose proof (coords_in_tree R (Z.of_nat k + 1) i ltac:(lia) Hi) as Hq.
    assert (Hge : 2 ^ R <= rowStart R (Z.of_nat k + 1) + i).
    { rewrite <- rowStart_bounds by lia.
      assert (2 * 2 ^ (R - (Z.of_nat k + 1)) <= 2 ^ R).
      { rewrite <- pow2_succ by lia. apply pow2_le. lia. }
      rewrite (pow2_succ R) by lia. lia. }
    set (q := rowStart R (Z.of_nat k + 1) + i) in *.
    replace q with ((q - 2 ^ R) + 2 ^ R) at 1 by lia.
    rewrite land_pow2_set by (rewrite ?pow2_succ in Hq by lia; lia).
    pose proof (pow2_gt0 R HR).
    destruct (Z.eqb_spec (2 ^ R) 0) as [|_]; [lia|].
    rewrite right_child by lia.
    replace (2 * (q - 2 ^ R) + 1) with (rowStart R (Z.of_nat k) + (2 * i + 1)).
    2:{ subst q. rewrite <- !rowStart_bounds by lia.
        replace (R - Z.of_nat k) with ((R - (Z.of_nat k + 1)) + 1) by lia.
        rewrite (pow2_succ (R - (Z.of_nat k + 1))) by lia.
        rewrite (pow2_succ R) by lia. lia. }
    rewrite IH; [| lia | lia |].
    + rewrite (pow2_succ (Z.of_nat k)) by lia. lia.
    + replace (R - Z.of_nat k) with ((R - (Z.of_nat k + 1)) + 1) by lia.
      rewrite (pow2_succ (R - (Z.of_nat k + 1))) by lia. lia.
Qed.

Lemma inForest_masks R :
  0 <= R < 63 ->
  u64 (Z.shiftl 1 R) = 2 ^ R /\
  u64 (Z.shiftl (u64 (Z.shiftl 1 R)) 1 - 1) = 2 ^ (R + 1) - 1.
Proof.
  intros HR. rewrite u64_shiftl1 by lia. split; [reflexivity|].
  rewrite Z.shiftl_mul_pow2 by lia. change (2 ^ 1) with 2.
  rewrite Z.mul_comm, <- pow2_succ by lia.
  apply wrapU_small.
  pose proof (pow2_gt0 (R + 1)).
  assert (2 ^ (R + 1) <= 2 ^ 63) by (apply pow2_le; lia).
  change (2 ^ 64) with (2 * 2 ^ 63). lia.
Qed.

(** Position [i] of row [k] is in the forest iff the [(i + 1) * 2 ^ k]
    leaves up to the last one below it are live. *)
Lemma inForest_coords R n k i :
  0 <= R < 63 -> 0 <= n <= 2 ^ R ->
  0 <= k <= R -> 0 <= i < 2 ^ (R - k) ->
  inForest (rowStart R k + i) n R = ((i + 1) * 2 ^ k <=? n).
Proof.
  intros HR Hn Hk Hi. unfold inForest.
  destruct (inForest_masks R HR) as [-> ->].
  pose proof (coords_in_tree R k i Hk Hi) as Hq.
  pose proof (pow2_gt0 k ltac:(lia)) as Hpk.
  destruct (Z.ltb_spec (rowStart R k + i) n) as [Hlt|Hge].
  - symmetry. apply Z.leb_le.
    destruct (Z.eq_dec k 0) as [->|Hk0].
    + rewrite rowStart_0 in Hlt by lia. cbn. lia.
    + exfalso. rewrite <- rowStart_bounds in Hlt by lia.
      assert (2 * 2 ^ (R - k) <= 2 ^ R).
      { rewrite <- pow2_succ by lia. apply pow2_le. lia. }
      rewrite (pow2_succ R) in Hlt by lia. lia.
  - destruct (Z.leb_spec (2 ^ (R + 1) - 1) (rowStart R k + i)); [lia|].
    replace k with (Z.of_nat (Z.to_nat k)) at 1 by lia.
    rewrite descend_coords; rewrite ?Z2Nat.id by lia; lia.
Qed.

Lemma inForest_outside R n q :
  0 <= R < 63 -> 0 <= n <= 2 ^ R -> 2 ^ (R + 1) - 1 <= q ->
  inForest q n R = false.
Proof.
  intros HR Hn Hq. unfold inForest.
  destruct (inForest_masks R HR) as [-> ->].
  pose proof (pow2_gt0 R). rewrite pow2_succ in Hq by lia.
  destruct (Z.ltb_spec q n); [lia|].
  destruct (Z.leb_spec (2 ^ (R + 1) - 1) q); [reflexivity|].
  rewrite pow2_succ in * by lia. lia.
Qed.

(** What it takes to be in the forest. *)
Lemma inForest_true R n q :
  0 <= R < 63 -> 0 <= n <= 2 ^ R -> 0 <= q ->
  inForest q n R = true ->
  exists k i, 0 <= k <= R /\ 0 <= i < 2 ^ (R - k) /\
              q = rowStart R k + i /\ (i + 1) * 2 ^ k <= n.
Proof.
  intros HR Hn Hq Hin.
  destruct (Z_lt_le_dec q (2 ^ (R + 1) - 1)) as [Hlt|Hge].
  - destruct (coords_exist R q ltac:(lia) ltac:(lia)) as (k & i & Hk & Hi & ->).
    exists k, i. repeat split; try lia.
    rewrite inForest_coords in Hin by assumption. now apply Z.leb_le.
  - rewrite inForest_outside in Hin by assumption. discriminate.
Qed.


(** [r] rows above leaf [p]. *)
Lemma parentMany_coords R (r : nat) p :
  0 <= R < 64 -> Z.of_nat r <= R -> 0 <= p < 2 ^ R ->
  parentMany r p R = rowStart R (Z.of_nat r) + p / 2 ^ Z.of_nat r
  /\ 0 <= p / 2 ^ Z.of_nat r < 2 ^ (R - Z.of_nat r).
Proof.
  intros HR. induction r as [|r IH]; intros Hr Hp.
  - cbn [parentMany]. change (Z.of_nat 0) with 0.
    rewrite rowStart_0, Z.sub_0_r, Z.pow_0_r, Z.div_1_r by lia. lia.
  - rewrite Nat2Z.inj_succ in *. unfold Z.succ in *.
    destruct (IH ltac:(lia) Hp) as [E Hb].
    cbn [parentMany]. rewrite E.
    rewrite parent_coords by lia.
    rewrite Z.div_div by (try apply pow2_gt0; lia).
    rewrite <- (Z.mul_comm 2), <- pow2_succ by lia.
    split; [reflexivity|].
    pose proof (pow2_gt0 (Z.of_nat r + 1) ltac:(lia)).
    split; [apply Z.div_pos; lia|].
    apply Z.div_lt_upper_bound; [lia|].
    rewrite <- pow2_split by lia.
    replace (Z.of_nat r + 1 + (R - (Z.of_nat r + 1))) with R by lia. lia.
Qed.

(** The loop condition [(numLeaves >> h) & 1 == 1] tests bit [h]. *)
Lemma bit_test n h :
  0 <= h -> (Z.land (Z.shiftr n h) 1 =? 1) = Z.testbit n h.
Proof.
  intros Hh. change 1 with (Z.ones 1) at 1. rewrite Z.land_ones by lia.
  change (2 ^ 1) with 2. rewrite <- Z.bit0_mod, Z.shiftr_spec by lia.
  rewrite Z.add_0_l. now destruct (Z.testbit n h).
Qed.

(** With bit [r] set there are [2 ^ r] more leaves past a multiple of
    [2 ^ (r + 1)]. *)
Lemma bit_split n r :
  0 <= n -> 0 <= r ->
  2 ^ r * (n / 2 ^ r)
  = 2 ^ (r + 1) * (n / 2 ^ (r + 1)) + (if Z.testbit n r then 2 ^ r else 0).
Proof.
  intros Hn Hr. pose proof (pow2_gt0 r Hr) as Hp.
  rewrite (pow2_succ r) by lia.
  replace (n / (2 * 2 ^ r)) with (n / 2 ^ r / 2)
    by (rewrite Z.div_div by lia; f_equal; lia).
  pose proof (Z.div_mod (n / 2 ^ r) 2 ltac:(lia)) as E.
  destruct (Z.testbit n r) eqn:Eb.
  - apply Z.testbit_true in Eb; [|lia]. lia.
  - apply Z.testbit_false in Eb; [|lia]. lia.
Qed.

(** Every root is a position in the forest. *)
Lemma rootsBelow_inForest R n (k : nat) :
  0 <= R < 63 -> 0 <= n <= 2 ^ R -> Z.of_nat k <= R + 1 ->
  forall t, In t (rootsBelow k (2 ^ Z.of_nat k * (n / 2 ^ Z.of_nat k)) n R) ->
       0 <= t /\ inForest t n R = true.
Proof.
  intros HR Hn. induction k as [|r IH]; intros Hk t Hin; [destruct Hin|].
  rewrite Nat2Z.inj_succ in *. unfold Z.succ in *.
  pose proof (bit_split n (Z.of_nat r) ltac:(lia) ltac:(lia)) as Hs.
  pose proof (pow2_gt0 (Z.of_nat r) ltac:(lia)) as Hp.
  assert (Hle : 2 ^ Z.of_nat r * (n / 2 ^ Z.of_nat r) <= n)
    by (apply Z.mul_div_le; lia).
  cbn [rootsBelow] in Hin.
  destruct (Z.testbit n (Z.of_nat r)) eqn:Eb.
  - set (pos := 2 ^ (Z.of_nat r + 1) * (n / 2 ^ (Z.of_nat r + 1))) in *.
    assert (Hpos : 0 <= pos).
    { subst pos. apply Z.mul_nonneg_nonneg;
        [pose proof (pow2_gt0 (Z.of_nat r + 1)); lia | apply Z.div_pos].
      - lia.
      - apply pow2_gt0. lia. }
    destruct Hin as [<-|Hin].
    + destruct (parentMany_coords R r pos ltac:(lia) ltac:(lia) ltac:(lia))
        as [-> Hb].
      split; [apply coords_in_tree; lia|].
      rewrite inForest_coords by lia.
      apply Z.leb_le.
      assert (E : pos / 2 ^ Z.of_nat r * 2 ^ Z.of_nat r = pos).
      { subst pos. rewrite (pow2_succ (Z.of_nat r)) by lia.
        replace (2 * 2 ^ Z.of_nat r * (n / (2 * 2 ^ Z.of_nat r)))
          with (2 * (n / (2 * 2 ^ Z.of_nat r)) * 2 ^ Z.of_nat r) by lia.
        rewrite Z.div_mul by lia. reflexivity. }
      lia.
    + apply IH; [lia|]. rewrite Hs. exact Hin.
  - apply IH; [lia|]. rewrite Hs, Z.add_0_r. exact Hin.
Qed.

Lemma roots_inForest R n t :
  0 <= R < 63 -> 0 <= n <= 2 ^ R ->
  In t (getRootsForwards n R) -> 0 <= t /\ inForest t n R = true.
Proof.
  intros HR Hn Hin. unfold getRootsForwards in Hin.
  apply (rootsBelow_inForest R n (S (Z.to_nat R))); [lia | lia | lia |].
  rewrite Nat2Z.inj_succ, Z2Nat.id by lia. unfold Z.succ.
  rewrite Z.div_small, Z.mul_0_r; [exact Hin|].
  pose proof (pow2_gt0 R). rewrite pow2_succ by lia. lia.
Qed.

(** With the bits [0 .. h] of the leaf count set there are more than [h]
    roots. *)
Lemma rootsBelow_length R n (k : nat) :
  forall (h : nat) pos,
    (h < k)%nat ->
    (forall j, (j <= h)%nat -> Z.testbit n (Z.of_nat j) = true) ->
    (h < length (rootsBelow k pos n R))%nat.
Proof.
  induction k as [|r IH]; intros h pos Hh Hbits; [lia|].
  cbn [rootsBelow].
  destruct (Nat.eq_dec h r) as [->|Hne].
  - rewrite Hbits by lia. cbn [length].
    destruct r as [|r']; [lia|].
    specialize (IH r' (pos + 2 ^ Z.of_nat (S r')) ltac:(lia)
                  ltac:(intros; apply Hbits; lia)). lia.
  - destruct (Z.testbit n (Z.of_nat r)); cbn [length].
    + specialize (IH h (pos + 2 ^ Z.of_nat r) ltac:(lia) Hbits). lia.
    + apply IH; [lia | exact Hbits].
Qed.

End Geometry.

(* ===================================================================== *)
(** ** Properties of the forest engine                                   *)
(* ===================================================================== *)

Module ForestProps.
Import Enc Accumulator Geometry.

(** *** Running the monad *)

Lemma bind_unfold {A B} (m : M A) (k : A -> M B) f :
  (m ≫= k) f
  = match m f with
    | Ok a f' => k a f'
    | Panic => Panic
    | OutOfFuel => OutOfFuel
    end.
Proof. reflexivity. Qed.

Lemma get_bind {B} (k : Forest -> M B) f : (get ≫= k) f = k f f.
Proof. reflexivity. Qed.

Lemma hash_eqb_true x y : hash_eqb x y = true <-> x = y.
Proof. unfold hash_eqb. apply bool_decide_eq_true. Qed.

Lemma hash_eqb_false x y : hash_eqb x y = false <-> x <> y.
Proof. unfold hash_eqb. apply bool_decide_eq_false. Qed.

(** The hash stored at a position, if the position is in range. *)
Definition slot (f : Forest) (pos : Z) : option Hash :=
  if inRange pos (data f) then data f !! Z.to_nat pos else None.

Lemma inRange_spec pos (m : list Hash) :
  inRange pos m = true <-> 0 <= pos < Z.of_nat (length m).
Proof. unfold inRange. lia. Qed.

Lemma read_slot pos f :
  read pos f = match slot f pos with Some h => Ok h f | None => Panic end.
Proof.
  unfold read, slot. destruct (inRange pos (data f)); [|reflexivity].
  destruct (data f !! Z.to_nat pos); reflexivity.
Qed.

Lemma slot_Some pos f :
  inRange pos (data f) = true -> exists h, slot f pos = Some h.
Proof.
  intros H. unfold slot. rewrite H. apply inRange_spec in H.
  destruct (lookup_lt_is_Some_2 (data f) (Z.to_nat pos)) as [h Hh]; [lia|].
  eauto.
Qed.

Lemma slot_inRange pos f h : slot f pos = Some h -> inRange pos (data f) = true.
Proof. unfold slot. destruct (inRange pos (data f)); [reflexivity|discriminate]. Qed.

Lemma write_Ok pos h f :
  inRange pos (data f) = true ->
  write pos h f
  = Ok tt (mkForest (numLeaves f) (rows f) (<[Z.to_nat pos := h]> (data f))
             (positionMap f)).
Proof. intros H. unfold write. now rewrite H. Qed.

Lemma write_inv pos h f u f' :
  write pos h f = Ok u f' ->
  inRange pos (data f) = true /\
  f' = mkForest (numLeaves f) (rows f) (<[Z.to_nat pos := h]> (data f))
         (positionMap f).
Proof.
  unfold write. destruct (inRange pos (data f)); [|discriminate].
  intros [= <-]. auto.
Qed.

(** A slot after a write elsewhere or at the same place. *)
Lemma slot_write pos h f q :
  inRange pos (data f) = true ->
  slot (mkForest (numLeaves f) (rows f) (<[Z.to_nat pos := h]> (data f))
          (positionMap f)) q
  = if Z.eq_dec q pos then Some h else slot f q.
Proof.
  intros Hr. unfold slot, inRange in *. cbn [data].
  rewrite length_insert.
  destruct (Z.eq_dec q pos) as [->|Hne].
  - rewrite Hr. apply list_lookup_insert_eq. lia.
  - destruct ((0 <=? q) && (q <? Z.of_nat (length (data f)))) eqn:E;
      [|reflexivity].
    apply list_lookup_insert_ne. lia.
Qed.


(** *** Bits of the leaf count *)

(** With the bits below [h] set, the leaf count ends in [2 ^ h - 1]. *)
Lemma ones_below n (h : nat) :
  0 <= n ->
  (forall j, 0 <= j < Z.of_nat h -> Z.testbit n j = true) ->
  n = 2 ^ Z.of_nat h * (n / 2 ^ Z.of_nat h) + (2 ^ Z.of_nat h - 1).
Proof.
  intros Hn. induction h as [|h IH]; intros Hb.
  - change (Z.of_nat 0) with 0. rewrite Z.pow_0_r, Z.div_1_r. lia.
  - rewrite Nat2Z.inj_succ in *. unfold Z.succ in *.
    pose proof (bit_split n (Z.of_nat h) Hn ltac:(lia)) as Hs.
    rewrite (Hb (Z.of_nat h)) in Hs by lia.
    specialize (IH ltac:(intros; apply Hb; lia)).
    rewrite (pow2_succ (Z.of_nat h)) in * by lia. lia.
Qed.

(** And the other way round. *)
Lemma bits_below n i k j :
  0 <= k -> 0 <= j < k -> n = i * 2 ^ k + (2 ^ k - 1) ->
  Z.testbit n j = true.
Proof.
  intros Hk Hj ->.
  rewrite <- (Z.mod_pow2_bits_low _ k) by lia.
  rewrite Z.add_comm, Z.mod_add by (pose proof (pow2_gt0 k); lia).
  pose proof (pow2_gt0 k Hk).
  rewrite Z.mod_small by lia.
  replace (2 ^ k - 1) with (Z.ones k) by (rewrite Z.ones_equiv; lia).
  apply Z.ones_spec_low. lia.
Qed.

(** *** The shape of a forest *)

(** The backend has the slots of a tree of [rows] rows, and the leaves
    fit in its bottom row. *)
Definition shaped (f : Forest) : Prop :=
  0 <= rows f < 63 /\
  Z.of_nat (length (data f)) = 2 ^ (rows f + 1) - 1 /\
  0 <= numLeaves f <= 2 ^ rows f.

(** Every position in the forest holds a hash that is not EMPTY. *)
Definition populated (f : Forest) : Prop :=
  forall q, 0 <= q -> inForest q (numLeaves f) (rows f) = true ->
    exists h, slot f q = Some h /\ h <> empty.

Lemma shaped_slot f k i :
  shaped f -> 0 <= k <= rows f -> 0 <= i < 2 ^ (rows f - k) ->
  inRange (rowStart (rows f) k + i) (data f) = true.
Proof.
  intros (HR & HL & Hn) Hk Hi. apply inRange_spec. rewrite HL.
  apply coords_in_tree; assumption.
Qed.

Lemma div_pow2_bound n R h :
  0 <= h <= R -> 0 <= n < 2 ^ R -> 0 <= n / 2 ^ h < 2 ^ (R - h).
Proof.
  intros Hh Hn. pose proof (pow2_gt0 h ltac:(lia)).
  split; [apply Z.div_pos; lia|].
  apply Z.div_lt_upper_bound; [lia|].
  rewrite <- pow2_split by lia. replace (h + (R - h)) with R by lia. lia.
Qed.

(** *** addv2 *)


Section Adding.
Variable parentHash : Hash -> Hash -> Hash.

(** The loop of [addv2] from row [h] on: it ends, it writes outputs of
    [parentHash] at inner positions only, one on each row up to the first
    clear bit of the leaf count. *)
Lemma addRise_total (k : nat) :
  forall h cur pos f,
    shaped f -> numLeaves f < 2 ^ rows f ->
    0 <= h -> 64 <= h + Z.of_nat k ->
    (forall j, 0 <= j < h -> Z.testbit (numLeaves f) j = true) ->
    pos = rowStart (rows f) h + numLeaves f / 2 ^ h ->
    exists f',
      addRise parentHash k h (getRootsForwards (numLeaves f) (rows f))
        cur pos f = Ok tt f' /\
      numLeaves f' = numLeaves f /\ rows f' = rows f /\
      positionMap f' = positionMap f /\
      length (data f') = length (data f) /\
      (forall q, slot f' q = slot f q \/
                 (2 ^ rows f <= q /\
                  exists l r, slot f' q = Some (parentHash l r))) /\
      (forall k', h < k' ->
         (forall j, h <= j < k' -> Z.testbit (numLeaves f) j = true) ->
         exists l r,
           slot f' (rowStart (rows f) k' + numLeaves f / 2 ^ k')
           = Some (parentHash l r)).
Proof.
  induction k as [|k IH]; intros h cur pos f Hsh Hroom Hh Hfuel Hbits Hpos.
  - (* no fuel: the bit tested is clear, for [h] is past 63 *)
    destruct Hsh as (HR & HL & Hn).
    cbn [addRise]. rewrite get_bind, bit_test by lia.
    assert (Hb : Z.testbit (numLeaves f) h = false).
    { destruct (Z.testbit (numLeaves f) h) eqn:E; [|reflexivity]. exfalso.
      pose proof (ones_below (numLeaves f) (Z.to_nat h) ltac:(lia)
                    ltac:(intros; apply Hbits; lia)) as E1.
      rewrite Z2Nat.id in E1 by lia.
      assert (2 ^ 63 < 2 ^ h) by (apply pow2_lt; lia).
      assert (2 ^ rows f <= 2 ^ 63) by (apply pow2_le; lia).
      assert (0 <= 2 ^ h * (numLeaves f / 2 ^ h)).
      { apply Z.mul_nonneg_nonneg; [lia|].
        apply Z.div_pos; [lia | apply pow2_gt0; lia]. }
      lia. }
    rewrite Hb. exists f. repeat split; auto.
    intros k' Hk' Hb'. rewrite Hb' in Hb by lia. discriminate.
  - pose proof Hsh as (HR & HL & Hn).
    cbn [addRise]. rewrite get_bind, bit_test by lia.
    destruct (Z.testbit (numLeaves f) h) eqn:Eb.
    2:{ exists f. repeat split; auto.
        intros k' Hk' Hb'. rewrite Hb' in Eb by lia. discriminate. }
    (* bits 0..h set: h + 1 <= rows *)
    assert (Hall : forall j, 0 <= j < h + 1 -> Z.testbit (numLeaves f) j = true).
    { intros j Hj. destruct (Z.eq_dec j h) as [->|]; [exact Eb|].
      apply Hbits. lia. }
    pose proof (ones_below (numLeaves f) (Z.to_nat (h + 1)) ltac:(lia)
                  ltac:(intros; apply Hall; lia)) as E1.
    rewrite Z2Nat.id in E1 by lia.
    assert (HhR : h + 1 <= rows f).
    { destruct (Z_le_gt_dec (h + 1) (rows f)); [assumption|]. exfalso.
      assert (2 ^ rows f < 2 ^ (h + 1)) by (apply pow2_lt; lia).
      assert (0 <= 2 ^ (h + 1) * (numLeaves f / 2 ^ (h + 1))).
      { apply Z.mul_nonneg_nonneg; [pose proof (pow2_gt0 (h + 1)); lia|].
        apply Z.div_pos; [lia | apply pow2_gt0; lia]. }
      lia. }
    assert (Hu8 : u8 (h + 1) = h + 1).
    { apply wrapU_small. cbn. lia. }
    rewrite Hu8.
    (* the root of row h is in the list *)
    set (roots := getRootsForwards (numLeaves f) (rows f)).
    assert (Hlen : (Z.to_nat h < length roots)%nat).
    { subst roots. unfold getRootsForwards.
      apply rootsBelow_length; [lia|].
      intros j Hj. apply Hall. lia. }
    assert (Hidx : (0 <=? Z.of_nat (length roots) - (h + 1))
                   && (Z.of_nat (length roots) - (h + 1)
                       <? Z.of_nat (length roots)) = true) by lia.
    rewrite Hidx.
    destruct (lookup_lt_is_Some_2 roots
                (Z.to_nat (Z.of_nat (length roots) - (h + 1))))
      as [rp Hrp]; [lia|].
    rewrite Hrp.
    (* reading the root *)
    assert (Hin : In rp roots).
    { apply list_elem_of_In. eapply list_elem_of_lookup_2. exact Hrp. }
    destruct (roots_inForest (rows f) (numLeaves f) rp HR Hn Hin)
      as [Hrp0 Hrpin].
    destruct (inForest_true (rows f) (numLeaves f) rp HR Hn Hrp0 Hrpin)
      as (kr & ir & Hkr & Hir & -> & _).
    destruct (slot_Some (rowStart (rows f) kr + ir) f) as [root Hroot].
    { apply shaped_slot; [exact Hsh | lia | lia]. }
    rewrite bind_unfold, read_slot, Hroot.
    (* writing the parent *)
    pose proof (div_pow2_bound (numLeaves f) (rows f) h ltac:(lia) ltac:(lia))
      as Hdiv.
    assert (Hpar : parent pos (rows f)
                   = rowStart (rows f) (h + 1) + numLeaves f / 2 ^ (h + 1)).
    { subst pos. rewrite parent_coords by lia.
      rewrite Z.div_div by (try apply pow2_gt0; lia).
      now rewrite <- (Z.mul_comm 2), <- pow2_succ by lia. }
    rewrite Hpar.
    pose proof (div_pow2_bound (numLeaves f) (rows f) (h + 1)
                  ltac:(lia) ltac:(lia)) as Hdiv1.
    assert (Hw : inRange (rowStart (rows f) (h + 1)
                          + numLeaves f / 2 ^ (h + 1)) (data f) = true).
    { apply shaped_slot; [exact Hsh | lia | lia]. }
    rewrite bind_unfold, write_Ok by exact Hw.
    set (f1 := mkForest _ _ _ _).
    destruct (IH (h + 1) (parentHash root cur)
                (rowStart (rows f) (h + 1) + numLeaves f / 2 ^ (h + 1)) f1)
      as (f' & Hrun & Hn' & Hr' & Hpm' & Hl' & Hsl & Hwr).
    + subst f1. unfold shaped. cbn [rows data numLeaves].
      rewrite length_insert. repeat split; lia.
    + exact Hroom.
    + lia.
    + lia.
    + exact Hall.
    + reflexivity.
    + subst f1. cbn [rows numLeaves] in *.
      exists f'. split; [exact Hrun|].
      split; [exact Hn'|]. split; [exact Hr'|]. split; [exact Hpm'|].
      split; [rewrite Hl'; cbn [data]; apply length_insert|].
      assert (Hge : 2 ^ rows f
                    <= rowStart (rows f) (h + 1) + numLeaves f / 2 ^ (h + 1)).
      { rewrite <- rowStart_bounds by lia.
        assert (2 * 2 ^ (rows f - (h + 1)) <= 2 ^ rows f).
        { rewrite <- pow2_succ by lia. apply pow2_le. lia. }
        rewrite (pow2_succ (rows f)) by lia. lia. }
      split.
      * intros q. destruct (Hsl q) as [Hq|Hq]; [|right; exact Hq].
        rewrite Hq. rewrite (slot_write _ _ f q Hw).
        destruct (Z.eq_dec q _) as [->|];
          [right; split; [exact Hge | eauto] | left; reflexivity].
      * intros k' Hk' Hb'.
        destruct (Z.eq_dec k' (h + 1)) as [->|Hne].
        -- destruct (Hsl (rowStart (rows f) (h + 1)
                          + numLeaves f / 2 ^ (h + 1))) as [Hq|(_ & Hq)];
             [|exact Hq].
           rewrite Hq, (slot_write _ _ f _ Hw).
           destruct (Z.eq_dec _ _); [eauto | contradiction].
        -- apply Hwr; [lia|]. intros j Hj. apply Hb'. lia.
Qed.


Lemma slot_same_data f g q : data f = data g -> slot f q = slot g q.
Proof. intros E. unfold slot. now rewrite E. Qed.

(** One leaf added where there is room: the leaf is stored at position
    [numLeaves], mapped to it, and counted; besides, only inner positions
    change, to outputs of [parentHash]. *)
Lemma addOne_total a f :
  shaped f -> numLeaves f < 2 ^ rows f ->
  exists f',
    addOne parentHash a f = Ok tt f' /\
    numLeaves f' = numLeaves f + 1 /\ rows f' = rows f /\
    length (data f') = length (data f) /\
    positionMap f' = <[Mini (leafHash a) := numLeaves f]> (positionMap f) /\
    slot f' (numLeaves f) = Some (leafHash a) /\
    (forall q, slot f' q = slot f q \/
               (q = numLeaves f /\ slot f' q = Some (leafHash a)) \/
               (2 ^ rows f <= q /\
                exists l r, slot f' q = Some (parentHash l r))) /\
    (forall k', 0 < k' ->
       (forall j, 0 <= j < k' -> Z.testbit (numLeaves f) j = true) ->
       exists l r,
         slot f' (rowStart (rows f) k' + numLeaves f / 2 ^ k')
         = Some (parentHash l r)).
Proof.
  intros Hsh Hroom. pose proof Hsh as (HR & HL & Hn).
  unfold addOne. rewrite get_bind.
  rewrite bind_unfold. unfold setPositionMap at 1.
  set (f0 := mkForest (numLeaves f) (rows f) (data f) _).
  assert (Hw : inRange (numLeaves f) (data f0) = true).
  { apply inRange_spec. cbn [data f0]. rewrite HL.
    rewrite pow2_succ by lia. lia. }
  rewrite bind_unfold, write_Ok by exact Hw.
  set (f1 := mkForest _ _ _ _).
  destruct (addRise_total 64 0 (leafHash a) (numLeaves f) f1)
    as (f2 & Hrun & Hn2 & Hr2 & Hpm2 & Hl2 & Hsl & Hwr).
  - subst f1 f0. unfold shaped. cbn [rows data numLeaves].
    rewrite length_insert. auto.
  - exact Hroom.
  - lia.
  - lia.
  - intros j Hj. lia.
  - subst f1 f0. cbn [rows numLeaves].
    rewrite rowStart_0, Z.pow_0_r, Z.div_1_r by lia. lia.
  - subst f1 f0. cbn [rows numLeaves data positionMap] in *.
    rewrite bind_unfold, Hrun, get_bind. unfold setNumLeaves.
    rewrite Hn2.
    assert (Hu : u64 (numLeaves f + 1) = numLeaves f + 1).
    { apply wrapU_small.
      assert (2 ^ rows f <= 2 ^ 63) by (apply pow2_le; lia).
      change (2 ^ 64) with (2 * 2 ^ 63). lia. }
    rewrite Hu. eexists. split; [reflexivity|].
    cbn [numLeaves rows data positionMap].
    assert (Hs1 : forall q,
              slot (mkForest (numLeaves f) (rows f)
                      (<[Z.to_nat (numLeaves f) := leafHash a]> (data f))
                      (<[Mini (leafHash a) := numLeaves f]> (positionMap f))) q
              = if Z.eq_dec q (numLeaves f) then Some (leafHash a)
                else slot f q).
    { intros q.
      rewrite <- (slot_write (numLeaves f) (leafHash a) f q Hw).
      apply slot_same_data. reflexivity. }
    assert (Hs2 : forall q g, data g = data f2 -> slot g q = slot f2 q)
      by (intros; now apply slot_same_data).
    split; [reflexivity|]. split; [exact Hr2|].
    split; [rewrite Hl2; apply length_insert|].
    split; [exact Hpm2|].
    split.
    { rewrite Hs2 by reflexivity.
      destruct (Hsl (numLeaves f)) as [Hq|(Hge & _)]; [|lia].
      rewrite Hq, Hs1. destruct (Z.eq_dec _ _); [reflexivity|contradiction]. }
    split.
    + intros q. rewrite Hs2 by reflexivity.
      destruct (Hsl q) as [Hq|Hq]; [|right; right; exact Hq].
      rewrite Hq, Hs1.
      destruct (Z.eq_dec q (numLeaves f)); [right; left; auto | left; auto].
    + intros k' Hk' Hb. rewrite Hs2 by reflexivity.
      apply Hwr; [lia|exact Hb].
Qed.

(** The position map after the leaves [adds] went in from position [n]. *)
Fixpoint addPositions (n : Z) (adds : list Leaf) (pm : gmap MiniHash Z)
    : gmap MiniHash Z :=
  match adds with
  | [] => pm
  | a :: adds' => addPositions (n + 1) adds' (<[Mini (leafHash a) := n]> pm)
  end.

Lemma addPositions_other n adds pm key :
  (forall a, a ∈ adds -> Mini (leafHash a) <> key) ->
  addPositions n adds pm !! key = pm !! key.
Proof.
  revert n pm. induction adds as [|a adds IH]; intros n pm H; [reflexivity|].
  cbn [addPositions]. rewrite IH.
  - apply lookup_insert_ne. apply H. left.
  - intros b Hb. apply H. now right.
Qed.

(** The last leaf with a given MiniHash is the one the map points to. *)
Lemma addPositions_last n adds pm (i : nat) a :
  adds !! i = Some a ->
  (forall (j : nat) b0, (i < j)%nat -> adds !! j = Some b0 ->
     Mini (leafHash b0) <> Mini (leafHash a)) ->
  addPositions n adds pm !! Mini (leafHash a) = Some (n + Z.of_nat i).
Proof.
  revert n pm i. induction adds as [|x adds IH]; intros n pm i Hi Hlast;
    [discriminate|].
  cbn [addPositions]. destruct i as [|i].
  - injection Hi as ->. rewrite addPositions_other.
    + rewrite lookup_insert_eq. f_equal. lia.
    + intros b0 Hb. apply list_elem_of_lookup in Hb as [j Hj].
      apply (Hlast (S j) b0); [lia | exact Hj].
  - rewrite (IH (n + 1) _ i Hi).
    + f_equal. lia.
    + intros j b0 Hj Hb. apply (Hlast (S j) b0); [lia | exact Hb].
Qed.

(** [addv2] where there is room for all the leaves. *)
Lemma addv2_total adds :
  forall f,
    shaped f -> numLeaves f + Z.of_nat (length adds) <= 2 ^ rows f ->
    exists f',
      addv2 parentHash adds f = Ok tt f' /\
      numLeaves f' = numLeaves f + Z.of_nat (length adds) /\
      rows f' = rows f /\
      length (data f') = length (data f) /\
      positionMap f' = addPositions (numLeaves f) adds (positionMap f) /\
      (forall (i : nat) a, adds !! i = Some a ->
         slot f' (numLeaves f + Z.of_nat i) = Some (leafHash a)) /\
      (forall q, 0 <= q < numLeaves f -> slot f' q = slot f q).
Proof.
  induction adds as [|a adds IH]; intros f Hsh Hroom.
  - exists f. cbn [length] in *. repeat split; auto; try lia.
    intros i a Hi. discriminate.
  - cbn [length] in Hroom. rewrite Nat2Z.inj_succ in Hroom.
    pose proof Hsh as (HR & HL & Hn).
    destruct (addOne_total a f Hsh ltac:(lia))
      as (f1 & Hrun & Hn1 & Hr1 & Hl1 & Hpm1 & Hleaf & Hsl & _).
    destruct (IH f1) as (f2 & Hrun2 & Hn2 & Hr2 & Hl2 & Hpm2 & Hleaves & Hold).
    { unfold shaped. rewrite Hr1, Hn1, Hl1. repeat split; lia. }
    { rewrite Hr1, Hn1. lia. }
    exists f2. unfold addv2 in *. cbn [forEach].
    rewrite bind_unfold, Hrun. split; [exact Hrun2|].
    split; [rewrite Hn2, Hn1; cbn [length]; lia|].
    split; [congruence|]. split; [congruence|].
    split; [rewrite Hpm2, Hpm1, Hn1; reflexivity|].
    assert (Hkeep : forall q, 0 <= q < numLeaves f + 1 -> q <> numLeaves f ->
              slot f1 q = slot f q).
    { intros q Hq Hne. destruct (Hsl q) as [E|[(E & _)|(E & _)]];
        [exact E | contradiction | lia]. }
    split.
    + intros [|i] b0 Hi.
      * injection Hi as <-. rewrite Z.add_0_r.
        rewrite Hold by lia. exact Hleaf.
      * cbn in Hi. specialize (Hleaves i b0 Hi). rewrite Hn1 in Hleaves.
        rewrite <- Hleaves. f_equal. lia.
    + intros q Hq. rewrite Hold by lia. apply Hkeep; lia.
Qed.





End Adding.


(** *** Concrete forests for the examples *)

(** A stand-in for the hash function: 32 bytes that start with 1, so
    never EMPTY. *)
Definition toyHash (l r : Hash) : Hash := 1 :: take 31 (l ++ r).

(** The hash [k 0 0 ... 0] of 32 bytes. *)
Definition hashOf (k : Z) : Hash := k :: replicate 31 0.

Definition leafOf (k : Z) : Leaf := mkLeaf (hashOf k) false.

(** Undo data as the specification describes it: the number of additions,
    the deleted positions and the hashes found there. *)
Definition toyUndo (f : Forest) (numAdds : Z) (dels : list Z)
    : Z * list Z * list (option Hash) :=
  (numAdds, dels, map (slot f) dels).

(** The forest [NewForest] returns. *)
Definition emptyForest : Forest := mkForest 0 0 [empty] ∅.

Lemma NewForest_emptyForest : NewForest = Ok tt emptyForest.
Proof. reflexivity. Qed.

Lemma toyHash_nonempty l r : toyHash l r <> empty.
Proof. discriminate. Qed.


(** *** C3: rising in removev5 *)

Section Rising.
Variable fuel : nat.

(** [lonely] reads and changes nothing; it answers yes iff the aunt and
    the sibling are both in the forest and one of them reads EMPTY. *)
Lemma lonely_spec p f l f' :
  lonely p f = Ok l f' ->
  f' = f /\
  (l = true <->
   inForest (Z.lxor (parent p (rows f)) 1) (numLeaves f) (rows f) = true /\
   inForest (Z.lxor p 1) (numLeaves f) (rows f) = true /\
   (slot f (Z.lxor (parent p (rows f)) 1) = Some empty \/
    slot f (Z.lxor p 1) = Some empty)).
Proof.
  unfold lonely. rewrite get_bind.
  destruct (inForest (Z.lxor (parent p (rows f)) 1) _ _) eqn:Ea; cbn [andb].
  2:{ intros [= <- <-]. split; [reflexivity|].
      split; [discriminate | intros (? & _); discriminate]. }
  destruct (inForest (Z.lxor p 1) _ _) eqn:Es.
  2:{ intros [= <- <-]. split; [reflexivity|].
      split; [discriminate | intros (_ & ? & _); discriminate]. }
  rewrite bind_unfold, read_slot.
  destruct (slot f (Z.lxor (parent p (rows f)) 1)) as [a|]; [|discriminate].
  destruct (hash_eqb a empty) eqn:Eh.
  { intros [= <- <-]. apply hash_eqb_true in Eh as ->. tauto. }
  apply hash_eqb_false in Eh.
  rewrite bind_unfold, read_slot.
  destruct (slot f (Z.lxor p 1)) as [s|]; [|discriminate].
  intros [= <- <-]. split; [reflexivity|].
  destruct (hash_eqb s empty) eqn:Eh2.
  - apply hash_eqb_true in Eh2 as ->. tauto.
  - apply hash_eqb_false in Eh2.
    split; [discriminate|]. intros (_ & _ & [[= E]|[= E]]); congruence.
Qed.

(** The position the loop [for f.lonely(p)] is left with is not lonely. *)
Lemma riseWhileLonely_ends (k : nat) :
  forall p0 f1 p1 f2,
    riseWhileLonely k p0 f1 = Ok p1 f2 -> lonely p1 f2 = Ok false f2.
Proof.
  induction k as [|k IH]; intros p0 f1 p1 f2; cbn [riseWhileLonely];
    rewrite bind_unfold; destruct (lonely p0 f1) as [l f1'| |] eqn:El;
    try discriminate;
    destruct (lonely_spec _ _ _ _ El) as [-> _];
    destruct l; try discriminate;
    try (intros [= <- <-]; exact El).
  rewrite get_bind, bind_unfold.
  destruct (read _ f1) as [s f1'| |]; [|discriminate..].
  rewrite bind_unfold.
  destruct (negb (hash_eqb s empty));
    (destruct (promote _ f1') as [x f1''| |]; [|discriminate..]); apply IH.
Qed.

(** *** Positions and their siblings *)











(** *** The main loop of removev5, run by run *)





Section Looping.
Variable condenseDeletions : list Z -> Z -> list Z.






End Looping.


End Rising.


(** *** C4: the invariant of the engine *)

(** What holds of a call's result when it returns. *)
Definition post {A} (r : Res A) (Q : A -> Forest -> Prop) : Prop :=
  match r with
  | Ok a f' => Q a f'
  | _ => True
  end.

Lemma post_bind {A B} (m : M A) (k : A -> M B) f Q :
  post (m f) (fun a f1 => post (k a f1) Q) -> post ((m ≫= k) f) Q.
Proof. rewrite bind_unfold. destruct (m f); auto. Qed.

Lemma post_mono {A} (r : Res A) (Q Q' : A -> Forest -> Prop) :
  post r Q -> (forall a f, Q a f -> Q' a f) -> post r Q'.
Proof. destruct r; cbn; auto. Qed.

(** The invariant: the forest has its shape, with at most 42 rows (the
    backend of more would not fit in memory), and is populated. *)
Definition Inv (f : Forest) : Prop :=
  shaped f /\ rows f <= 42 /\ populated f.

(** Same leaf count, rows and number of slots. *)
Definition keeps (f f' : Forest) : Prop :=
  numLeaves f' = numLeaves f /\ rows f' = rows f /\
  length (data f') = length (data f).

Lemma keeps_refl f : keeps f f.
Proof. repeat split. Qed.

Lemma keeps_trans f g h : keeps f g -> keeps g h -> keeps f h.
Proof. unfold keeps. intros (?&?&?) (?&?&?). repeat split; congruence. Qed.

Lemma Inv_same f g :
  numLeaves g = numLeaves f -> rows g = rows f -> data g = data f ->
  Inv f -> Inv g.
Proof.
  intros Hn Hr Hd ((HR & HL & Hnn) & H42 & Hpop).
  unfold Inv, shaped, populated. rewrite Hn, Hr, Hd.
  repeat split; try assumption; try lia.
  intros q Hq Hin. rewrite (slot_same_data g f q Hd). now apply Hpop.
Qed.

Lemma half_covers i k n :
  0 <= i -> 0 <= k -> (i / 2 + 1) * 2 ^ (k + 1) <= n -> (i + 1) * 2 ^ k <= n.
Proof.
  intros Hi Hk H. rewrite pow2_succ in H by lia.
  pose proof (pow2_gt0 k Hk).
  pose proof (Z.div_mod i 2 ltac:(lia)).
  pose proof (Z.mod_pos_bound i 2 ltac:(lia)).
  assert ((i + 1) * 2 ^ k <= (i / 2 + 1) * (2 * 2 ^ k)); [|lia].
  replace ((i / 2 + 1) * (2 * 2 ^ k)) with ((2 * (i / 2) + 2) * 2 ^ k) by ring.
  apply Z.mul_le_mono_nonneg_r; lia.
Qed.

(** [promote] keeps the invariant: what it writes into the forest comes
    from inside the forest. *)
Lemma promote_post x f :
  Inv f -> post (promote x f) (fun _ f' => Inv f' /\ keeps f f').
Proof.
  intros HI. pose proof HI as (Hsh & H42 & Hpop).
  pose proof Hsh as (HR & HL & Hn).
  unfold promote. rewrite get_bind. apply post_bind.
  rewrite read_slot. destruct (slot f x) as [h|] eqn:Hx; [|exact I].
  cbn [post]. apply post_bind.
  destruct (write (parent x (rows f)) h f) as [u f'| |] eqn:Hw; [|exact I..].
  apply write_inv in Hw as [Hr ->]. cbn [post].
  split; [|repeat split; cbn [data]; apply length_insert].
  split; [|split; [exact H42|]].
  { unfold shaped. cbn [rows data numLeaves]. rewrite length_insert. auto. }
  intros q Hq Hin. cbn [numLeaves rows] in Hin.
  rewrite (slot_write _ _ f q Hr).
  destruct (Z.eq_dec q (parent x (rows f))) as [->|]; [|now apply Hpop].
  exists h. split; [reflexivity|].
  (* the parent is in the forest, so the child is *)
  pose proof (slot_inRange _ _ _ Hx) as Hxr. apply inRange_spec in Hxr.
  destruct (coords_exist (rows f) x ltac:(lia) ltac:(lia))
    as (k & i & Hk & Hi & ->).
  rewrite parent_coords in Hin, Hr by lia.
  destruct (Z.eq_dec k (rows f)) as [->|Hne].
  { exfalso. apply inRange_spec in Hr. rewrite HL in Hr.
    unfold rowStart in Hr.
    replace (rows f + 1 - (rows f + 1)) with 0 in Hr by lia.
    replace (rows f - rows f) with 0 in Hi by lia.
    assert (i = 0) by (rewrite Z.pow_0_r in Hi; lia). subst i.
    rewrite Z.pow_0_r in Hr. change (0 / 2) with 0 in Hr. lia. }
  assert (Hi2 : 0 <= i / 2 < 2 ^ (rows f - (k + 1))).
  { split; [apply Z.div_pos; lia|].
    apply Z.div_lt_upper_bound; [lia|].
    rewrite <- pow2_succ by lia.
    replace (rows f - (k + 1) + 1) with (rows f - k) by lia. lia. }
  rewrite inForest_coords in Hin by lia. apply Z.leb_le in Hin.
  apply half_covers in Hin; [|lia..].
  destruct (Hpop (rowStart (rows f) k + i)) as (h' & Hh' & Hne').
  { apply coords_in_tree; lia. }
  { rewrite inForest_coords by lia. now apply Z.leb_le. }
  congruence.
Qed.

(** Under the invariant nothing is lonely. *)
Lemma lonely_post p f :
  Inv f -> post (lonely p f) (fun l f' => l = false /\ f' = f).
Proof.
  intros (Hsh & H42 & Hpop).
  destruct (lonely p f) as [l f'| |] eqn:El; [|exact I..].
  cbn [post]. destruct (lonely_spec _ _ _ _ El) as [-> Hiff].
  split; [|reflexivity].
  destruct l; [|reflexivity]. exfalso.
  destruct (proj1 Hiff eq_refl) as (Ha & Hs & [He|He]).
  - pose proof (slot_inRange _ _ _ He) as Hr. apply inRange_spec in Hr.
    destruct (Hpop _ (proj1 Hr) Ha) as (h & Hh & Hne). congruence.
  - pose proof (slot_inRange _ _ _ He) as Hr. apply inRange_spec in Hr.
    destruct (Hpop _ (proj1 Hr) Hs) as (h & Hh & Hne). congruence.
Qed.

Lemma riseOnce_post p f :
  Inv f -> post (riseOnce p f) (fun _ f' => f' = f).
Proof.
  intros HI. unfold riseOnce. apply post_bind.
  eapply post_mono; [apply lonely_post; exact HI|].
  intros l f' [-> ->]. cbn. reflexivity.
Qed.

Lemma riseWhileLonely_post k p f :
  Inv f -> post (riseWhileLonely k p f) (fun _ f' => f' = f).
Proof.
  intros HI.
  assert (G : post ((lonely p ≫= fun l : bool =>
                       if l then (outOfFuel : M Z) else mret p) f)
                (fun _ f' => f' = f)).
  { apply post_bind. eapply post_mono; [apply lonely_post; exact HI|].
    intros l f' [-> ->]. cbn. reflexivity. }
  destruct k as [|k]; cbn [riseWhileLonely].
  - exact G.
  - apply post_bind. eapply post_mono; [apply lonely_post; exact HI|].
    intros l f' [-> ->]. cbn. reflexivity.
Qed.

Section Removing.
Variable condenseDeletions : list Z -> Z -> list Z.
Variable fuel : nat.

Lemma removeOne_post dirt p f :
  Inv f -> post (removeOne fuel dirt p f) (fun _ f' => Inv f' /\ keeps f f').
Proof.
  intros HI. unfold removeOne. apply post_bind.
  eapply post_mono; [apply promote_post; exact HI|].
  intros _ f1 [HI1 Hk1]. apply post_bind.
  eapply post_mono; [apply riseOnce_post; exact HI1|].
  intros p1 f2 ->. apply post_bind.
  eapply post_mono; [apply riseWhileLonely_post; exact HI1|].
  intros p2 f3 ->. rewrite get_bind.
  destruct (bool_decide _); cbn; auto.
Qed.

Lemma removeEach_post ps :
  forall dirt f,
    Inv f ->
    post (removeEach fuel dirt ps f) (fun _ f' => Inv f' /\ keeps f f').
Proof.
  induction ps as [|p ps IH]; intros dirt f HI; cbn [removeEach].
  - cbn. split; [exact HI | apply keeps_refl].
  - apply post_bind.
    eapply post_mono; [apply removeOne_post; exact HI|].
    intros dirt1 f1 [HI1 Hk1].
    eapply post_mono; [apply IH; exact HI1|].
    intros dirt2 f2 [HI2 Hk2]. split; [exact HI2|].
    eapply keeps_trans; eassumption.
Qed.

(** The first loop of [removev5] only touches the position map. *)
Lemma forget_positions_post dels :
  forall f,
    post (forEach dels (fun d =>
            h ← read d;
            f ← get;
            setPositionMap (delete (Mini h) (positionMap f))) f)
      (fun _ f' => numLeaves f' = numLeaves f /\ rows f' = rows f /\
                   data f' = data f).
Proof.
  induction dels as [|d dels IH]; intros f; cbn [forEach].
  - cbn. auto.
  - apply post_bind. apply post_bind.
    rewrite read_slot. destruct (slot f d) as [h|]; [|exact I].
    cbn [post]. rewrite get_bind. unfold setPositionMap. cbn [post].
    eapply post_mono; [apply IH|].
    cbn [numLeaves rows data]. auto.
Qed.

(** [removev5] keeps the rows and the slots, leaves every position that
    was in the forest populated, and counts the leaves down. *)
Lemma removev5_post dels f :
  Inv f ->
  post (removev5 condenseDeletions fuel dels f)
    (fun _ f' =>
       rows f' = rows f /\ length (data f') = length (data f) /\
       numLeaves f' = u64 (numLeaves f - Z.of_nat (length dels)) /\
       forall q, 0 <= q -> inForest q (numLeaves f) (rows f) = true ->
         exists h, slot f' q = Some h /\ h <> empty).
Proof.
  intros HI. unfold removev5. apply post_bind.
  eapply post_mono; [apply forget_positions_post|].
  intros _ f1 (Hn1 & Hr1 & Hd1). rewrite get_bind.
  assert (HI1 : Inv f1) by (eapply Inv_same; eassumption).
  apply post_bind.
  eapply post_mono; [apply removeEach_post; exact HI1|].
  intros dirt f2 [HI2 (Hn2 & Hr2 & Hl2)]. rewrite get_bind.
  unfold setNumLeaves. cbn [post numLeaves rows data].
  split; [congruence|]. split; [rewrite Hl2, Hd1; reflexivity|].
  split; [congruence|].
  intros q Hq Hin. destruct HI2 as (_ & _ & Hpop2).
  rewrite <- Hn1, <- Hr1, <- Hn2, <- Hr2 in Hin.
  destruct (Hpop2 q Hq Hin) as (h & Hh & Hne).
  exists h. split; [|exact Hne]. rewrite <- Hh. now apply slot_same_data.
Qed.

End Removing.


Section Growing.
Variable parentHash : Hash -> Hash -> Hash.
Hypothesis parentHash_nonempty : forall l r, parentHash l r <> empty.

(** A leaf that is not EMPTY, added where there is room, keeps the
    invariant. *)
Lemma addOne_Inv a f :
  Inv f -> numLeaves f < 2 ^ rows f -> leafHash a <> empty ->
  exists f',
    addOne parentHash a f = Ok tt f' /\ Inv f' /\
    numLeaves f' = numLeaves f + 1 /\ rows f' = rows f.
Proof.
  intros (Hsh & H42 & Hpop) Hroom Hleaf.
  pose proof Hsh as (HR & HL & Hn).
  destruct (addOne_total parentHash a f Hsh Hroom)
    as (f' & Hrun & Hn' & Hr' & Hl' & _ & Hat & Hsl & Hwr).
  exists f'. split; [exact Hrun|]. split; [|auto].
  assert (Hsh' : shaped f').
  { unfold shaped. rewrite Hr', Hn', Hl'. repeat split; lia. }
  split; [exact Hsh'|]. split; [lia|].
  intros q Hq Hin. rewrite Hn', Hr' in Hin.
  destruct (inForest_true (rows f) (numLeaves f + 1) q HR ltac:(lia) Hq Hin)
    as (k & i & Hk & Hi & -> & Hle).
  pose proof (pow2_gt0 k ltac:(lia)) as Hpk.
  destruct (Z_le_gt_dec ((i + 1) * 2 ^ k) (numLeaves f)) as [Hold|Hnew].
  - (* it was in the forest before *)
    destruct (Hpop (rowStart (rows f) k + i) Hq) as (h & Hh & Hne).
    { rewrite inForest_coords by lia. now apply Z.leb_le. }
    destruct (Hsl (rowStart (rows f) k + i))
      as [E|[(_ & E)|(_ & l & r & E)]].
    + exists h. split; congruence.
    + eauto.
    + eauto.
  - (* the last leaf below it is the new one *)
    assert (Hn1 : numLeaves f = i * 2 ^ k + (2 ^ k - 1)) by lia.
    destruct (Z.eq_dec k 0) as [->|Hk0].
    + rewrite rowStart_0 by lia. replace (0 + i) with (numLeaves f).
      * eauto.
      * rewrite Z.pow_0_r in Hn1. lia.
    + assert (Hdiv : numLeaves f / 2 ^ k = i).
      { rewrite Hn1, Z.div_add_l by lia. rewrite Z.div_small by lia. lia. }
      destruct (Hwr k ltac:(lia)) as (l & r & E).
      { intros j Hj. apply (bits_below _ i k j); [lia | lia | exact Hn1]. }
      rewrite Hdiv in E. eauto.
Qed.

Lemma addv2_Inv adds :
  forall f,
    Inv f -> numLeaves f + Z.of_nat (length adds) <= 2 ^ rows f ->
    Forall (fun a => leafHash a <> empty) adds ->
    exists f',
      addv2 parentHash adds f = Ok tt f' /\ Inv f' /\
      numLeaves f' = numLeaves f + Z.of_nat (length adds) /\
      rows f' = rows f.
Proof.
  induction adds as [|a adds IH]; intros f HI Hroom Hne.
  - exists f. cbn [length]. repeat split; auto; try lia; apply HI.
  - cbn [length] in Hroom. rewrite Nat2Z.inj_succ in Hroom.
    inversion Hne as [|? ? Ha Hrest]; subst.
    destruct (addOne_Inv a f HI ltac:(lia) Ha) as (f1 & Hrun & HI1 & Hn1 & Hr1).
    destruct (IH f1 HI1) as (f2 & Hrun2 & HI2 & Hn2 & Hr2);
      [rewrite Hn1, Hr1; lia | exact Hrest |].
    exists f2. unfold addv2 in *. cbn [forEach].
    rewrite bind_unfold, Hrun. split; [exact Hrun2|]. split; [exact HI2|].
    cbn [length]. split; [lia | congruence].
Qed.

(** Past the end of the backend [addv2] panics at its first write. *)
Lemma addv2_out_of_range a adds f :
  inRange (numLeaves f) (data f) = false ->
  addv2 parentHash (a :: adds) f = Panic.
Proof.
  intros Hr. unfold addv2. cbn [forEach].
  rewrite bind_unfold. unfold addOne. rewrite get_bind, bind_unfold.
  unfold setPositionMap at 1. rewrite bind_unfold.
  unfold write. cbn [data]. now rewrite Hr.
Qed.

End Growing.

(** *** reMap *)

(** A loop over [lo .. lo + n - 1] with an invariant indexed by the
    counter. *)
Lemma forEach_seqZ_post (P : Z -> Forest -> Prop) (body : Z -> M unit)
    (n : nat) :
  forall lo f,
    P lo f ->
    (forall x g, lo <= x < lo + Z.of_nat n -> P x g ->
       post (body x g) (fun _ g' => P (x + 1) g')) ->
    post (forEach (seqZ lo (Z.of_nat n)) body f)
      (fun _ f' => P (lo + Z.of_nat n) f').
Proof.
  induction n as [|n IH]; intros lo f HP Hstep.
  - cbn. now rewrite Z.add_0_r.
  - rewrite seqZ_cons by lia. cbn [forEach]. apply post_bind.
    eapply post_mono; [apply Hstep; [lia | exact HP]|].
    intros u g HPg. cbn beta in *.
    replace (Z.pred (Z.of_nat (S n))) with (Z.of_nat n) by lia.
    eapply post_mono; [apply (IH (Z.succ lo) g)|].
    + exact HPg.
    + intros x g' Hx. apply Hstep. lia.
    + intros u' g'. cbn beta.
      now replace (Z.succ lo + Z.of_nat n) with (lo + Z.of_nat (S n)) by lia.
Qed.

Definition nonEmptyAt (f : Forest) (q : Z) : Prop :=
  exists v, slot f q = Some v /\ v <> empty.

(** Where [reMap] stands when the rows below [h] are moved and [x]
    positions of row [h]: the old part of the backend is as it was in
    [f0], and what was not EMPTY in the old rows is not EMPTY at its new
    place. *)
Definition moved (f0 : Forest) (R h x : Z) (g : Forest) : Prop :=
  numLeaves g = numLeaves f0 /\ rows g = R /\
  positionMap g = positionMap f0 /\
  Z.of_nat (length (data g)) = 2 ^ (R + 2) - 1 /\
  (forall q, 0 <= q < 2 ^ (R + 1) - 1 -> slot g q = slot f0 q) /\
  (forall k i, 1 <= k <= R -> 0 <= i < 2 ^ (R - k) ->
     k < h \/ (k = h /\ i < x) ->
     nonEmptyAt f0 (rowStart R k + i) ->
     nonEmptyAt g (rowStart (R + 1) k + i)).

Lemma u64_small x : 0 <= x < 2 ^ 64 -> u64 x = x.
Proof. apply wrapU_small. Qed.

Lemma rowStart_half R h :
  0 <= R -> 1 <= h <= R + 1 ->
  Z.shiftr (rowStart (R + 1) h) 1 = rowStart R h.
Proof.
  intros HR Hh. rewrite Z.shiftr_div_pow2 by lia. change (2 ^ 1) with 2.
  unfold rowStart.
  replace (R + 1 + 1 - h) with ((R + 1 - h) + 1) by lia.
  rewrite (pow2_succ (R + 1 - h)), (pow2_succ (R + 1)) by lia.
  replace (2 * 2 ^ (R + 1) - 2 * 2 ^ (R + 1 - h))
    with ((2 ^ (R + 1) - 2 ^ (R + 1 - h)) * 2) by ring.
  apply Z.div_mul. lia.
Qed.

Lemma rowStart_inner R h :
  0 <= R -> 1 <= h <= R -> 2 ^ R <= rowStart R h.
Proof.
  intros HR Hh. rewrite <- rowStart_bounds by lia.
  assert (2 * 2 ^ (R - h) <= 2 ^ R).
  { rewrite <- pow2_succ by lia. apply pow2_le. lia. }
  rewrite (pow2_succ R) by lia. lia.
Qed.


Lemma moved_write f0 R h x g dest v :
  0 <= R -> 1 <= h <= R -> 0 <= x < 2 ^ (R - h) ->
  moved f0 R h x g ->
  dest = rowStart (R + 1) h + x ->
  slot g (rowStart R h + x) = Some v -> v <> empty ->
  inRange dest (data g) = true ->
  moved f0 R h (x + 1)
    (mkForest (numLeaves g) (rows g) (<[Z.to_nat dest := v]> (data g))
       (positionMap g)).
Proof.
  intros HR Hh Hx (Hn & Hr & Hpm & Hl & Hold & Hmv) -> Hv Hne Hin.
  unfold moved. cbn [numLeaves rows positionMap data].
  rewrite length_insert.
  split; [exact Hn|]. split; [exact Hr|]. split; [exact Hpm|].
  split; [exact Hl|].
  pose proof (rowStart_inner (R + 1) h ltac:(lia) ltac:(lia)) as Hge.
  split.
  - intros q Hq. rewrite (slot_write _ _ g q Hin).
    destruct (Z.eq_dec q _); [lia | now apply Hold].
  - intros k i Hk Hi Hcase Hsrc. unfold nonEmptyAt.
    rewrite (slot_write _ _ g _ Hin).
    destruct (Z.eq_dec _ _) as [E|E]; [eauto|].
    apply (Hmv k i Hk Hi); [|exact Hsrc].
    destruct Hcase as [?|[-> Hix]]; [now left|].
    right. split; [reflexivity|].
    destruct (Z.eq_dec i x) as [->|]; [contradiction | lia].
Qed.

Lemma moved_skip f0 R h x g :
  0 <= R -> 1 <= h <= R -> 0 <= x < 2 ^ (R - h) ->
  moved f0 R h x g ->
  slot g (rowStart R h + x) = Some empty ->
  moved f0 R h (x + 1) g.
Proof.
  intros HR Hh Hx (Hn & Hr & Hpm & Hl & Hold & Hmv) Hv.
  repeat (split; [assumption|]).
  intros k i Hk Hi Hcase Hsrc.
  destruct Hcase as [?|[-> Hix]]; [apply Hmv; auto|].
  destruct (Z.eq_dec i x) as [->|]; [|apply Hmv; auto; right; lia].
  exfalso. destruct Hsrc as (v & Hsv & Hne).
  rewrite Hold in Hv by (apply coords_in_tree; lia). congruence.
Qed.

(** The loop over the rows of [reMap], from row [h] on. *)
Lemma remapRows_post f0 R (k : nat) :
  0 <= R <= 41 ->
  forall h g,
    1 <= h -> h + Z.of_nat k = R + 1 ->
    moved f0 R h 0 g ->
    post (remapRows k (rowStart (R + 1) h) (2 ^ (R + 1 - h)) g)
      (fun _ g' => moved f0 R (R + 1) 0 g').
Proof.
  intros HR. induction k as [|k IH]; intros h g Hh Hk Hmv.
  - cbn. replace (R + 1) with h by lia. exact Hmv.
  - cbn [remapRows].
    assert (Hrun : Z.shiftr (2 ^ (R + 1 - h)) 1 = 2 ^ (R - h)).
    { rewrite Z.shiftr_div_pow2 by lia. change (2 ^ 1) with 2.
      replace (R + 1 - h) with ((R - h) + 1) by lia.
      rewrite pow2_succ by lia. rewrite Z.mul_comm. apply Z.div_mul. lia. }
    rewrite Hrun.
    pose proof (pow2_gt0 (R - h) ltac:(lia)) as Hp.
    apply post_bind.
    replace (2 ^ (R - h)) with (Z.of_nat (Z.to_nat (2 ^ (R - h)))) at 1
      by lia.
    eapply post_mono.
    { apply (forEach_seqZ_post (moved f0 R h)); [exact Hmv|].
      intros x g1 Hx Hm1. rewrite Z2Nat.id in Hx by lia.
      pose proof Hm1 as (Hn1 & Hr1 & Hpm1 & Hl1 & Hold1 & _).
      rewrite rowStart_half by lia.
      pose proof (coords_in_tree R h x ltac:(lia) ltac:(lia)) as Hsrc.
      assert (H64 : 2 ^ (R + 2) <= 2 ^ 63) by (apply pow2_le; lia).
      assert (H64' : 2 ^ (R + 1) < 2 ^ (R + 2)) by (apply pow2_lt; lia).
      change (2 ^ 64) with (2 * 2 ^ 63) in *.
      rewrite (u64_small (rowStart R h + x))
        by (change (2 ^ 64) with (2 * 2 ^ 63); lia).
      apply post_bind. unfold size at 1. cbn [post].
      rewrite Hl1.
      assert (Hlt : (rowStart R h + x <? 2 ^ (R + 2) - 1) = true) by lia.
      rewrite Hlt.
      destruct (slot_Some (rowStart R h + x) g1) as [v Hv].
      { apply inRange_spec. lia. }
      apply post_bind. apply post_bind.
      rewrite read_slot, Hv. cbn [post]. apply post_bind.
      rewrite read_slot, Hv. cbn [post].
      pose proof (coords_in_tree (R + 1) h x ltac:(lia)) as Hdst.
      assert (2 ^ (R - h) < 2 ^ (R + 1 - h)) by (apply pow2_lt; lia).
      specialize (Hdst ltac:(lia)).
      replace (R + 1 + 1) with (R + 2) in Hdst by lia.
      rewrite (u64_small (rowStart (R + 1) h + x))
        by (change (2 ^ 64) with (2 * 2 ^ 63); lia).
      destruct (hash_eqb v empty) eqn:Ev; cbn [negb].
      - apply hash_eqb_true in Ev. subst v. cbn.
        apply moved_skip; auto; lia.
      - apply hash_eqb_false in Ev.
        assert (Hin : inRange (rowStart (R + 1) h + x) (data g1) = true)
          by (apply inRange_spec; lia).
        rewrite write_Ok by exact Hin. cbn [post].
        eapply moved_write; eauto; lia. }
    intros u g1 Hm1. cbn beta in Hm1.
    rewrite Z2Nat.id, Z.add_0_l in Hm1 by lia.
    assert (Hnext : moved f0 R (h + 1) 0 g1).
    { destruct Hm1 as (Hn1 & Hr1 & Hpm1 & Hl1 & Hold1 & Hmv1).
      repeat (split; [assumption|]).
      intros k0 i Hk0 Hi Hcase Hs. apply Hmv1; auto.
      destruct Hcase as [?|[-> ?]]; [|lia].
      destruct (Z.eq_dec k0 h) as [->|]; [right; lia | left; lia]. }
    assert (Hpos : u64 (rowStart (R + 1) h + 2 ^ (R + 1 - h))
                   = rowStart (R + 1) (h + 1)).
    { rewrite rowStart_succ by lia.
      apply u64_small.
      pose proof (coords_in_tree (R + 1) h 0 ltac:(lia)
                    ltac:(pose proof (pow2_gt0 (R + 1 - h)); lia)).
      assert (2 ^ (R + 1 - h) <= 2 ^ (R + 1)) by (apply pow2_le; lia).
      assert (2 ^ (R + 1 + 1) <= 2 ^ 62) by (apply pow2_le; lia).
      change (2 ^ 64) with (4 * 2 ^ 62).
      rewrite (pow2_succ (R + 1)) in * by lia. lia. }
    rewrite Hpos.
    replace (R - h) with (R + 1 - (h + 1)) by lia.
    apply IH; [lia | lia | exact Hnext].
Qed.


Lemma maxSlots_value : maxSlots = 2 ^ 43.
Proof. reflexivity. Qed.

Lemma slot_app_old (f : Forest) (extra : list Hash) n r pm q :
  0 <= q < Z.of_nat (length (data f)) ->
  slot (mkForest n r (data f ++ extra) pm) q = slot f q.
Proof.
  intros Hq. unfold slot. cbn [data].
  assert (inRange q (data f ++ extra) = true) as ->.
  { apply inRange_spec. rewrite length_app. lia. }
  assert (inRange q (data f) = true) as -> by (apply inRange_spec; lia).
  apply lookup_app_l. lia.
Qed.

(** The zeroing loop of [reMap]: it writes inside [lo .. hi - 1] only. *)
Lemma zero_post (n : nat) lo g :
  lo + Z.of_nat n <= Z.of_nat (length (data g)) -> 0 <= lo ->
  post (forEach (seqZ lo (Z.of_nat n)) (fun x => write x empty) g)
    (fun _ g' =>
       keeps g g' /\ positionMap g' = positionMap g /\
       forall q, q < lo \/ lo + Z.of_nat n <= q -> slot g' q = slot g q).
Proof.
  intros Hhi Hlo.
  eapply post_mono.
  { apply (forEach_seqZ_post
             (fun x g' => keeps g g' /\ positionMap g' = positionMap g /\
                forall q, q < lo \/ x <= q -> slot g' q = slot g q)).
    - split; [apply keeps_refl|]. auto.
    - intros x g1 Hx ((Hn1 & Hr1 & Hl1) & Hpm1 & Hs1).
      assert (Hin : inRange x (data g1) = true)
        by (apply inRange_spec; lia).
      rewrite write_Ok by exact Hin. cbn [post].
      split; [repeat split; cbn [numLeaves rows data];
              rewrite ?length_insert; assumption|].
      split; [exact Hpm1|].
      intros q Hq. rewrite (slot_write _ _ g1 q Hin).
      destruct (Z.eq_dec q x); [lia | apply Hs1; lia]. }
  intros u g' (Hk & Hpm & Hs). cbn beta. auto.
Qed.

(** [reMap] to one more row keeps the invariant. *)
Lemma reMap_post f :
  Inv f ->
  post (reMap (rows f + 1) f)
    (fun e f' => e = None /\ Inv f' /\ rows f' = rows f + 1 /\
                 numLeaves f' = numLeaves f).
Proof.
  intros (Hsh & H42 & Hpop). pose proof Hsh as (HR & HL & Hn).
  set (R := rows f) in *.
  unfold reMap. rewrite get_bind. fold R.
  destruct (Z.eqb_spec (R + 1) R) as [|_]; [lia|].
  assert (Hu8 : u8 (R + 1) = R + 1) by (apply wrapU_small; cbn; lia).
  rewrite Hu8.
  assert (Hfar : (R + 1 <? R + 1) || (0 <? R) && (R + 1 <? u8 (R - 1))
                 = false).
  { destruct (Z.eq_dec R 0) as [->|]; [reflexivity|].
    assert (u8 (R - 1) = R - 1) as -> by (apply wrapU_small; cbn; lia).
    lia. }
  rewrite Hfar.
  destruct (Z.ltb_spec (R + 1) R) as [|_]; [lia|].
  (* the new size *)
  assert (Hp44 : 2 ^ (R + 2) <= 2 ^ 44) by (apply pow2_le; lia).
  pose proof (pow2_gt0 R ltac:(lia)) as HpR.
  assert (Hp1 : 2 ^ (R + 1) = 2 * 2 ^ R) by (apply pow2_succ; lia).
  assert (Hp2 : 2 ^ (R + 2) = 4 * 2 ^ R).
  { replace (R + 2) with ((R + 1) + 1) by lia.
    rewrite pow2_succ, Hp1 by lia. lia. }
  assert (H64 : 2 ^ 64 = 2 ^ 20 * 2 ^ 44) by reflexivity.
  assert (Hsz : u64 (u64 (Z.shiftl 2 (R + 1)) - 1) = 2 ^ (R + 2) - 1).
  { rewrite Z.shiftl_mul_pow2 by lia. rewrite <- pow2_succ by lia.
    replace (R + 1 + 1) with (R + 2) by lia.
    rewrite (u64_small (2 ^ (R + 2))) by lia.
    apply u64_small. lia. }
  rewrite Hsz. apply post_bind.
  unfold resize. rewrite HL, Hp1.
  replace (2 ^ (R + 2) - 1 - (2 * 2 ^ R - 1)) with (2 * 2 ^ R) by lia.
  rewrite (u64_small (2 * 2 ^ R)) by lia.
  rewrite maxSlots_value.
  destruct ((2 * 2 ^ R <=? 2 ^ 43) && (2 * 2 ^ R - 1 + 2 * 2 ^ R <=? 2 ^ 43))
    eqn:Efit; [|exact I].
  cbn [post]. fold R.
  assert (HR41 : R <= 41).
  { destruct (Z_le_gt_dec R 41); [assumption|]. exfalso.
    assert (2 ^ 42 <= 2 ^ R) by (apply pow2_le; lia).
    change (2 ^ 43) with (2 * 2 ^ 42) in Efit. lia. }
  set (f1 := mkForest _ _ _ _).
  assert (Hm1 : moved f R 1 0 f1).
  { subst f1. unfold moved. cbn [numLeaves rows positionMap data].
    split; [reflexivity|]. split; [reflexivity|]. split; [reflexivity|].
    split.
    { rewrite length_app, length_replicate, Nat2Z.inj_add, HL.
      rewrite Z2Nat.id by lia. lia. }
    split.
    { intros q Hq. apply slot_app_old. lia. }
    intros k i Hk Hi [?|[? ?]]; lia. }
  assert (Hpos : u64 (Z.shiftl 1 (R + 1)) = 2 ^ (R + 1)).
  { apply u64_shiftl1. lia. }
  rewrite Hpos.
  assert (Hreach : Z.shiftr (2 ^ (R + 1)) 1 = 2 ^ R).
  { rewrite Z.shiftr_div_pow2 by lia. change (2 ^ 1) with 2.
    rewrite Hp1, Z.mul_comm. apply Z.div_mul. lia. }
  rewrite Hreach.
  apply post_bind.
  replace (2 ^ (R + 1)) with (rowStart (R + 1) 1) at 1.
  2:{ unfold rowStart. replace (R + 1 + 1 - 1) with (R + 1) by lia.
      rewrite (pow2_succ (R + 1)) by lia. lia. }
  replace (2 ^ R) with (2 ^ (R + 1 - 1)) at 1
    by (f_equal; lia).
  replace (R + 1 - 1) with R at 1 by lia.
  eapply post_mono.
  { apply (remapRows_post f R (Z.to_nat R) ltac:(lia) 1 f1);
      [lia | lia | exact Hm1]. }
  intros u f2 (Hn2 & Hr2 & Hpm2 & Hl2 & Hold2 & Hmv2). cbn beta.
  (* zeroing the new half of the bottom row *)
  rewrite (u64_shiftl1 R) by lia.
  apply post_bind.
  replace (2 ^ (R + 1) - 2 ^ R) with (Z.of_nat (Z.to_nat (2 ^ R))) by lia.
  eapply post_mono.
  { apply zero_post; [rewrite Z2Nat.id by lia; lia | lia]. }
  intros u' f3 ((Hn3 & Hr3 & Hl3) & Hpm3 & Hs3). cbn beta.
  rewrite Z2Nat.id in Hs3 by lia.
  apply post_bind. unfold setRows. cbn [post].
  split; [reflexivity|]. cbn [rows numLeaves].
  split; [|split; [reflexivity | congruence]].
  (* the invariant at the new row count *)
  unfold Inv, shaped, populated. cbn [rows numLeaves data].
  assert (HlenZ : Z.of_nat (length (data f3)) = 2 ^ (R + 1 + 1) - 1).
  { rewrite Hl3. replace (R + 1 + 1) with (R + 2) by lia. exact Hl2. }
  split; [repeat split; try lia; rewrite ?Hn3, ?Hn2; lia|].
  split; [lia|].
  intros q Hq Hin. rewrite Hn3, Hn2 in Hin.
  destruct (inForest_true (R + 1) (numLeaves f) q ltac:(lia) ltac:(lia)
              Hq Hin) as (k & i & Hk & Hi & -> & Hle).
  pose proof (pow2_gt0 k ltac:(lia)) as Hpk.
  assert (HkR : k <= R).
  { destruct (Z_le_gt_dec k R); [assumption|]. exfalso.
    assert (2 ^ (R + 1) <= 2 ^ k) by (apply pow2_le; lia).
    assert (1 * 2 ^ k <= (i + 1) * 2 ^ k)
      by (apply Z.mul_le_mono_nonneg_r; lia).
    lia. }
  assert (HiR : 0 <= i < 2 ^ (R - k)).
  { split; [lia|].
    assert (2 ^ R = 2 ^ (R - k) * 2 ^ k).
    { rewrite <- pow2_split by lia. f_equal. lia. }
    assert ((i + 1) * 2 ^ k <= 2 ^ (R - k) * 2 ^ k) by lia.
    apply Z.mul_le_mono_pos_r in H0; lia. }
  assert (Hsrc : nonEmptyAt f (rowStart R k + i)).
  { apply Hpop; [apply coords_in_tree; lia|].
    fold R. rewrite inForest_coords by lia. now apply Z.leb_le. }
  assert (Hsame : forall g', data g' = data f3 ->
            forall q', slot g' q' = slot f3 q')
    by (intros; now apply slot_same_data).
  rewrite Hsame by reflexivity.
  destruct (Z.eq_dec k 0) as [->|Hk0].
  - rewrite rowStart_0 in * by lia. rewrite Z.add_0_l in *.
    rewrite Z.pow_0_r in Hle.
    rewrite Hs3 by lia. rewrite Hold2 by lia. exact Hsrc.
  - pose proof (rowStart_inner (R + 1) k ltac:(lia) ltac:(lia)).
    rewrite Hs3 by lia.
    apply Hmv2; [lia | lia | left; lia | exact Hsrc].
Qed.


(** *** Modify *)

Lemma i64_small x : - 2 ^ 63 <= x < 2 ^ 63 -> i64 x = x.
Proof. intros H. apply wrapS_small; [lia | exact H]. Qed.

Lemma inForest_mono R n n' q :
  0 <= R < 63 -> 0 <= n' <= n -> n <= 2 ^ R -> 0 <= q ->
  inForest q n' R = true -> inForest q n R = true.
Proof.
  intros HR Hn' Hn Hq Hin.
  destruct (inForest_true R n' q HR ltac:(lia) Hq Hin)
    as (k & i & Hk & Hi & -> & Hle).
  rewrite inForest_coords by lia. apply Z.leb_le. lia.
Qed.

Lemma remapLoop_post (k : nat) delta :
  forall f,
    Inv f ->
    post (remapLoop k delta f)
      (fun e f' =>
         e = None /\ Inv f' /\ numLeaves f' = numLeaves f /\
         i64 (i64 (numLeaves f) + delta) <= 2 ^ rows f').
Proof.
  induction k as [|k IH]; intros f HI;
    pose proof HI as ((HR & HL & Hn) & H42 & Hpop);
    cbn [remapLoop]; rewrite get_bind;
    (assert (H1 : i64 (Z.shiftl 1 (rows f)) = 2 ^ rows f);
     [ rewrite Z.shiftl_1_l; apply i64_small;
       pose proof (pow2_gt0 (rows f) ltac:(lia));
       assert (2 ^ rows f < 2 ^ 63) by (apply pow2_lt; lia); lia |]);
    rewrite H1;
    destruct (Z.ltb_spec (2 ^ rows f) (i64 (i64 (numLeaves f) + delta)));
    try exact I;
    try (cbn; repeat split; auto; lia).
  assert (Hu8 : u8 (rows f + 1) = rows f + 1) by (apply wrapU_small; cbn; lia).
  rewrite Hu8. apply post_bind.
  eapply post_mono; [apply reMap_post; exact HI|].
  intros e f1 (-> & HI1 & Hr1 & Hn1).
  eapply post_mono; [apply IH; exact HI1|].
  intros e f2 (-> & HI2 & Hn2 & Hle). rewrite Hn1 in Hle.
  repeat split; auto; try apply HI2. congruence.
Qed.

(** A slice of Go has fewer than [2 ^ 63] elements. *)
Definition goSlice {A} (s : list A) : Prop := Z.of_nat (length s) < 2 ^ 63.

Section Modifying.
Variable parentHash : Hash -> Hash -> Hash.
Hypothesis parentHash_nonempty : forall l r, parentHash l r <> empty.
Variable condenseDeletions : list Z -> Z -> list Z.
Variable UndoBlock : Type.
Variable BuildUndoData : Forest -> Z -> list Z -> UndoBlock.
Variable fuel : nat.

Lemma sortUint64s_length s : length (sortUint64s s) = length s.
Proof. unfold sortUint64s. apply Permutation_length, merge_sort_Permutation. Qed.

Lemma no_empty_leaf adds :
  existsb (fun a => hash_eqb (leafHash a) empty) adds = false ->
  Forall (fun a => leafHash a <> empty) adds.
Proof.
  induction adds as [|a adds IH]; cbn [existsb]; intros H; constructor.
  - apply orb_false_iff in H as [H _]. now apply hash_eqb_false.
  - apply IH. now apply orb_false_iff in H as [_ H].
Qed.

(** A [Modify] that returns without error keeps the invariant. *)
Lemma Modify_post adds dels f :
  Inv f -> goSlice adds -> goSlice dels ->
  post (Modify parentHash condenseDeletions UndoBlock BuildUndoData fuel
          adds dels f)
    (fun r f' =>
       snd r = None ->
       Inv f' /\
       numLeaves f'
       = numLeaves f + Z.of_nat (length adds) - Z.of_nat (length dels)).
Proof.
  intros HI Ha Hd. pose proof HI as ((HR & HL & Hn) & H42 & Hpop).
  unfold goSlice in *. unfold Modify. rewrite get_bind.
  set (a := Z.of_nat (length adds)) in *.
  set (d := Z.of_nat (length dels)) in *.
  assert (Ha0 : 0 <= a) by (subst a; lia).
  assert (Hd0 : 0 <= d) by (subst d; lia).
  assert (Hp : 2 ^ rows f <= 2 ^ 42) by (apply pow2_le; lia).
  rewrite (i64_small (a - d)) by lia.
  rewrite (i64_small (a - d)) by lia.
  rewrite (i64_small (numLeaves f)) by lia.
  destruct (Z.ltb_spec (i64 (numLeaves f + (a - d))) 0) as [|Hge];
    [cbn; discriminate|].
  assert (Hsum : 0 <= numLeaves f + (a - d) < 2 ^ 63).
  { destruct (Z_lt_le_dec (numLeaves f + (a - d)) (2 ^ 63)) as [Hlt|Hbig].
    - rewrite i64_small in Hge by lia. lia.
    - exfalso. unfold i64, wrapS in Hge.
      change (2 ^ (64 - 1)) with (2 ^ 63) in Hge.
      replace (numLeaves f + (a - d) + 2 ^ 63)
        with ((numLeaves f + (a - d) - 2 ^ 63) + 1 * 2 ^ 64) in Hge
        by (change (2 ^ 64) with (2 * 2 ^ 63); lia).
      rewrite Z.mod_add in Hge by lia.
      rewrite Z.mod_small in Hge
        by (change (2 ^ 64) with (2 * 2 ^ 63); lia).
      lia. }
  destruct (existsb _ adds) eqn:Eex; [cbn; discriminate|].
  apply no_empty_leaf in Eex.
  apply post_bind.
  eapply post_mono; [apply remapLoop_post; exact HI|].
  intros e f1 (-> & HI1 & Hn1 & Hle).
  rewrite (i64_small (numLeaves f)) in Hle by lia.
  rewrite i64_small in Hle by lia.
  pose proof HI1 as ((HR1 & HL1 & Hnn1) & H421 & Hpop1).
  apply post_bind.
  eapply post_mono; [apply removev5_post; exact HI1|].
  intros u f2 (Hr2 & Hl2 & Hn2 & Hpop2). cbn beta.
  rewrite sortUint64s_length in Hn2. fold d in Hn2. rewrite Hn1 in Hn2.
  rewrite get_bind.
  assert (Hp1 : 2 ^ rows f1 <= 2 ^ 42) by (apply pow2_le; lia).
  apply post_bind.
  destruct (Z_le_gt_dec d (numLeaves f)) as [Hfew|Hmany].
  - (* the deletions are counted off without wrap-around *)
    rewrite u64_small in Hn2
      by (change (2 ^ 64) with (2 * 2 ^ 63); lia).
    assert (HI2 : Inv f2).
    { unfold Inv, shaped, populated. rewrite Hr2, Hn2, Hl2.
      split; [repeat split; lia|]. split; [lia|].
      intros q Hq Hin. apply Hpop2; [exact Hq|].
      rewrite Hn1. eapply inForest_mono; [| | | | exact Hin]; lia. }
    destruct (addv2_Inv parentHash parentHash_nonempty adds f2 HI2)
      as (f3 & Hrun & HI3 & Hn3 & Hr3).
    { rewrite Hn2, Hr2. fold a. lia. }
    { exact Eex. }
    rewrite Hrun. cbn. intros _. split; [exact HI3|].
    rewrite Hn3, Hn2. fold a. lia.
  - (* more deletions than leaves: the count wraps and [addv2] panics *)
    assert (Hwrap : u64 (numLeaves f - d) = 2 ^ 64 + (numLeaves f - d)).
    { unfold u64, wrapU.
      replace (numLeaves f - d)
        with ((2 ^ 64 + (numLeaves f - d)) + (-1) * 2 ^ 64) at 1 by lia.
      rewrite Z.mod_add by lia. apply Z.mod_small.
      change (2 ^ 64) with (2 * 2 ^ 63). lia. }
    destruct adds as [|x adds]; [cbn in a; lia|].
    rewrite addv2_out_of_range; [exact I|].
    apply not_true_is_false. intros Hin. apply inRange_spec in Hin.
    rewrite Hn2, Hwrap, Hl2, HL1 in Hin.
    rewrite pow2_succ in Hin by lia.
    change (2 ^ 64) with (2 * 2 ^ 63) in Hin.
    change (2 ^ 63) with (2 ^ 21 * 2 ^ 42) in *. lia.
Qed.

(** The forests the engine reaches from the empty one by calls of
    [Modify] that return without error. *)
Inductive reachable : Forest -> Prop :=
| reach_new f : NewForest = Ok tt f -> reachable f
| reach_modify f adds dels ub f' :
    reachable f -> goSlice adds -> goSlice dels ->
    Modify parentHash condenseDeletions UndoBlock BuildUndoData fuel
      adds dels f = Ok (ub, None) f' ->
    reachable f'.

Lemma Inv_emptyForest : Inv emptyForest.
Proof.
  split; [|split].
  - unfold shaped. cbn. lia.
  - cbn. lia.
  - intros q Hq Hin. exfalso.
    destruct (inForest_true 0 0 q ltac:(lia) ltac:(cbn; lia) Hq Hin)
      as (k & i & Hk & Hi & _ & Hle).
    pose proof (pow2_gt0 k ltac:(lia)). nia.
Qed.

Lemma reachable_Inv f : reachable f -> Inv f.
Proof.
  induction 1 as [f Hnew | f adds dels ub f' _ IH Ha Hd Hrun].
  - rewrite NewForest_emptyForest in Hnew. injection Hnew as <-.
    apply Inv_emptyForest.
  - pose proof (Modify_post adds dels f IH Ha Hd) as Hp.
    rewrite Hrun in Hp. now apply Hp.
Qed.

(** C4: in every forest reached from the empty one by calls of [Modify]
    that return without error, [numLeaves <= 1 << rows] and every root
    position of [getRootsForwards(numLeaves, rows)] holds a hash that is
    not EMPTY (the hash function never giving the EMPTY hash). *)
Theorem Modify_keeps_sanity f :
  reachable f ->
  numLeaves f <= u64 (Z.shiftl 1 (rows f)) /\
  forall t, In t (getRootsForwards (numLeaves f) (rows f)) ->
    exists h, slot f t = Some h /\ h <> empty.
Proof.
  intros Hreach. destruct (reachable_Inv f Hreach) as ((HR & HL & Hn) & H42 & Hpop).
  split.
  - rewrite u64_shiftl1 by lia. lia.
  - intros t Hin.
    destruct (roots_inForest (rows f) (numLeaves f) t HR Hn Hin) as [Ht Hf].
    now apply Hpop.
Qed.

End Modifying.

(** *** C5: what [Modify] rejects *)

Section Rejects.
Variable parentHash : Hash -> Hash -> Hash.
Variable condenseDeletions : list Z -> Z -> list Z.
Variable UndoBlock : Type.
Variable BuildUndoData : Forest -> Z -> list Z -> UndoBlock.
Variable fuel : nat.

Lemma existsb_empty_leaf adds :
  Exists (fun a => leafHash a = empty) adds ->
  existsb (fun a => hash_eqb (leafHash a) empty) adds = true.
Proof.
  intros H. apply existsb_exists. apply Exists_exists in H as (a & Hin & He).
  exists a. split; [now apply list_elem_of_In | now apply hash_eqb_true].
Qed.

(** C5: [Modify] returns an error and no undo block, and leaves the forest
    as it was, whenever a leaf of [adds] has the EMPTY hash or [dels] is
    longer than [numLeaves + len(adds)].  ([numLeaves] is a uint64 and the
    length of a slice an int.) *)
Theorem Modify_rejects f adds dels :
  0 <= numLeaves f ->
  Z.of_nat (length dels) < 2 ^ 63 ->
  Exists (fun a => leafHash a = empty) adds \/
  numLeaves f + Z.of_nat (length adds) < Z.of_nat (length dels) ->
  exists e,
    Modify parentHash condenseDeletions UndoBlock BuildUndoData fuel
      adds dels f
    = Ok (None, Some e) f.
Proof.
  intros Hn Hd Hbad. unfold Modify. rewrite get_bind.
  destruct (i64 (i64 (numLeaves f) + _) <? 0) eqn:E1.
  { exists ErrCantDelete. reflexivity. }
  destruct Hbad as [Hempty | Hmany].
  - rewrite existsb_empty_leaf by exact Hempty.
    exists ErrEmptyLeaf. reflexivity.
  - exfalso. apply Z.ltb_ge in E1.
    set (a := Z.of_nat (length adds)) in *.
    set (d := Z.of_nat (length dels)) in *.
    assert (Ha : 0 <= a) by (subst a; lia).
    unfold i64 in E1.
    rewrite (wrapS_small 64 (a - d)) in E1 by (cbn; lia).
    rewrite (wrapS_small 64 (a - d)) in E1 by (cbn; lia).
    rewrite (wrapS_small 64 (numLeaves f)) in E1 by (cbn; lia).
    rewrite wrapS_small in E1 by (cbn; lia).
    lia.
Qed.

End Rejects.


(** C5 at the empty forest with one EMPTY leaf to add. *)
Lemma Modify_rejects_witness :
  exists e,
    Modify toyHash condenseDeletions_spec _ toyUndo 8
      [mkLeaf empty false] [] emptyForest
    = Ok (None, Some e) emptyForest.
Proof.
  apply (Modify_rejects toyHash condenseDeletions_spec _ toyUndo 8
           emptyForest [mkLeaf empty false] []).
  - cbn. lia.
  - cbn. lia.
  - left. constructor. reflexivity.
Defined.



(** A forest of one row whose two leaves are in: [Add] of a third leaf
    still returns, the leaf written at position 2, the top of the tree. *)
Definition fullRowForest : Forest :=
  mkForest 2 1 [hashOf 1; hashOf 2; toyHash (hashOf 1) (hashOf 2)]
    {[ Mini (hashOf 1) := 0; Mini (hashOf 2) := 1 ]}.

Lemma Add_past_the_rows :
  exists f',
    Add toyHash [leafOf 3] fullRowForest = Ok tt f' /\
    numLeaves f' = 3 /\ rows f' = 1 /\ slot f' 2 = Some (hashOf 3).
Proof. eexists. split; [reflexivity|]. repeat split. Qed.



(** Three leaves put in by [Modify], then an EMPTY one by [Add]. *)
Definition threeLeaves : Forest :=
  mkForest 3 2
    [hashOf 1; hashOf 2; hashOf 3; empty;
     toyHash (hashOf 1) (hashOf 2); empty; empty]
    {[ Mini (hashOf 1) := 0; Mini (hashOf 2) := 1; Mini (hashOf 3) := 2 ]}.

Definition withEmptyLeaf : Forest :=
  mkForest 4 2
    [hashOf 1; hashOf 2; hashOf 3; empty;
     toyHash (hashOf 1) (hashOf 2); toyHash (hashOf 3) empty;
     toyHash (toyHash (hashOf 1) (hashOf 2)) (toyHash (hashOf 3) empty)]
    {[ Mini (hashOf 1) := 0; Mini (hashOf 2) := 1; Mini (hashOf 3) := 2;
       Mini empty := 3 ]}.

(** The same after [promote(2 ^ 1)], the first step of [removev5] for the
    deletion of leaf 2. *)
Definition siblingPromoted : Forest :=
  mkForest 4 2
    [hashOf 1; hashOf 2; hashOf 3; empty;
     toyHash (hashOf 1) (hashOf 2); empty;
     toyHash (toyHash (hashOf 1) (hashOf 2)) (toyHash (hashOf 3) empty)]
    (positionMap withEmptyLeaf).

Lemma data_of_run {A} (r : Res A) (a : A) n rw d pm :
  match r with
  | Ok a' f => a' = a /\ numLeaves f = n /\ rows f = rw /\ data f = d
               /\ map_to_list (positionMap f) ≡ₚ map_to_list pm
  | _ => False
  end ->
  r = Ok a (mkForest n rw d pm).
Proof.
  destruct r as [a' [n' rw' d' pm']| |]; try tauto.
  cbn. intros (-> & -> & -> & -> & Hpm). f_equal. f_equal.
  apply map_to_list_inj. exact Hpm.
Qed.

Lemma withEmptyLeaf_reached :
  Modify toyHash condenseDeletions_spec _ toyUndo 8
    [leafOf 1; leafOf 2; leafOf 3] [] emptyForest
  = Ok (Some (3, [], []), None) threeLeaves /\
  Add toyHash [mkLeaf empty false] threeLeaves = Ok tt withEmptyLeaf /\
  promote (Z.lxor 2 1) withEmptyLeaf = Ok 5 siblingPromoted.
Proof.
  split; [|split].
  - apply data_of_run. vm_compute. repeat split; reflexivity.
  - apply data_of_run. vm_compute. repeat split; reflexivity.
  - apply data_of_run. vm_compute. repeat split; reflexivity.
Qed.




(** C4 at the forest of three leaves, reached from the empty one by one
    [Modify]: its roots are at positions 4 and 2. *)
Lemma Modify_keeps_sanity_witness :
  numLeaves threeLeaves <= u64 (Z.shiftl 1 (rows threeLeaves)) /\
  forall t, In t (getRootsForwards 3 2) ->
    exists h, slot threeLeaves t = Some h /\ h <> empty.
Proof.
  apply (Modify_keeps_sanity toyHash toyHash_nonempty condenseDeletions_spec
           _ toyUndo 8 threeLeaves).
  apply (reach_modify _ _ _ _ _ emptyForest
           [leafOf 1; leafOf 2; leafOf 3] [] (Some (3, [], []))).
  - apply reach_new. reflexivity.
  - unfold goSlice. cbn. lia.
  - unfold goSlice. cbn. lia.
  - exact (proj1 withEmptyLeaf_reached).
Defined.

End ForestProps.

(* ===================================================================== *)
(** ** Persistence: WriteMiscData, WriteForestToDisk, RestoreForest      *)
(* ===================================================================== *)

Module Persist.
Import Enc OsFile Accumulator.

(** The bytes of the backend's slots, one hash after the other: what
    [dumpFile.Write(ramForest.m)] writes and what
    [diskData.file.Read(ramData.m[bytesRead:])] fills. *)
Definition toBytes (m : list Hash) : list Z := concat m.

(** The slots that [slots * leafSize] bytes stand for. *)
Fixpoint toHashes (slots : nat) (bs : list Z) : list Hash :=
  match slots with
  | O => []
  | S k => take leafSize bs :: toHashes k (drop leafSize bs)
  end.

(** [WriteMiscData]: [numLeaves] as 8 bytes and [rows] as 1 byte, big
    endian, at the cursor of the file; closing the RAM backend does
    nothing.  The writes are taken to succeed. *)
Definition WriteMiscData (f : Forest) (miscForestFile : File) : File :=
  let file := OsFile.write miscForestFile (be_bytes 8 (numLeaves f)) in
  OsFile.write file (be_bytes 1 (rows f)).

(** [WriteForestToDisk] for a forest on the RAM backend: with [ram] set,
    the slots go to the start of the file. *)
Definition WriteForestToDisk (f : Forest) (dumpFile : File) (ram cow : bool)
    : File :=
  if ram then
    match seekStart dumpFile 0 with
    | Some file => OsFile.write file (toBytes (data f))
    | None => dumpFile
    end
  else dumpFile.

(** How [RestoreForest] ends: with a forest, with an error, in a panic, or
    not within the fuel of the model. *)
Inductive Restored :=
| RestoredForest (f : Forest)
| RestoreError
| RestorePanic
| RestoreOutOfFuel.

Inductive Filled :=
| FilledBuffer (buf : list Z)
| FillError
| FillOutOfFuel.

Section Restore.

(** The most bytes one [Read] call hands over (the limit of about 1 GiB
    that the comment in [RestoreForest] speaks of). *)
Variable maxRW : nat.

(** [for bytesRead < len(ramData.m) { n, err := diskData.file.Read(
    ramData.m[bytesRead:]); if err != nil { return nil, err };
    bytesRead += n }], on the bytes [buf] of the slots. *)
Fixpoint fill (fuel : nat) (file : File) (buf : list Z) (bytesRead : nat)
    : Filled :=
  if (bytesRead <? length buf)%nat then
    match fuel with
    | O => FillOutOfFuel
    | S k =>
        match OsFile.read file (Nat.min (length buf - bytesRead) maxRW) with
        | None => FillError
        | Some (got, file') =>
            fill k file' (overwrite buf bytesRead got)
              (bytesRead + length got)
        end
    end
  else FilledBuffer buf.

(** [for i := uint64(0); i < f.numLeaves; i++ {
      f.positionMap[f.data.read(i).Mini()] = i }];
    [None] is the panic of a read out of range. *)
Fixpoint rebuild (k : nat) (i : Z) (m : list Hash) (pm : gmap MiniHash Z)
    : option (gmap MiniHash Z) :=
  match k with
  | O => Some pm
  | S k' =>
      if inRange i m then
        match m !! Z.to_nat i with
        | Some h => rebuild k' (i + 1) m (<[Mini h := i]> pm)
        | None => None
        end
      else None
  end.

(** [RestoreForest(miscForestFile, forestFile, true, false, "", 0)]: the
    restore to RAM.  The error of the second [binary.Read] is not looked
    at: [rows] stays 0 when it fails. *)
Definition RestoreForest (miscForestFile forestFile : File) : Restored :=
  match readFull miscForestFile 8 with
  | None => RestoreError
  | Some (nb, miscForestFile) =>
      let numLeaves := be_u64 nb in
      let rows :=
        match readFull miscForestFile 1 with
        | Some (rb, _) => be_value rb
        | None => 0
        end in
      match resize (u64 (u64 (Z.shiftl 2 rows) - 1))
              (mkForest numLeaves rows [] ∅) with
      | Ok _ ramData =>
          let buf := toBytes (data ramData) in
          match fill (S (length buf)) forestFile buf 0 with
          | FilledBuffer buf =>
              let m := toHashes (length (data ramData)) buf in
              match rebuild (Z.to_nat numLeaves) 0 m ∅ with
              | Some pm => RestoredForest (mkForest numLeaves rows m pm)
              | None => RestorePanic
              end
          | FillError => RestoreError
          | FillOutOfFuel => RestoreOutOfFuel
          end
      | _ => RestorePanic
      end
  end.

End Restore.


(** The files as the two writers leave them on fresh handles, opened
    again for the restore. *)
Definition savedMisc (f : Forest) : File :=
  openFile false (content (WriteMiscData f (openFile false []))).

Definition savedForest (f : Forest) : File :=
  openFile false
    (content (WriteForestToDisk f (openFile false []) true false)).

End Persist.

Module PersistProps.
Import Enc OsFile Accumulator Geometry ForestProps Persist.

(** Every slot holds 32 bytes. *)
Definition wellSized (m : list Hash) : Prop :=
  Forall (fun h => length h = leafSize) m.

Lemma toBytes_length m :
  wellSized m -> length (toBytes m) = (leafSize * length m)%nat.
Proof.
  unfold toBytes. induction 1 as [|h m Hh _ IH]; [reflexivity|].
  cbn [concat length]. rewrite length_app, IH, Hh. lia.
Qed.

Lemma toHashes_toBytes m :
  wellSized m -> toHashes (length m) (toBytes m) = m.
Proof.
  unfold toBytes. induction 1 as [|h m Hh _ IH]; [reflexivity|].
  cbn [concat length toHashes].
  rewrite take_app_length' by (symmetry; exact Hh).
  rewrite drop_app_length' by (symmetry; exact Hh).
  now rewrite IH.
Qed.

Section Filling.
Variable maxRW : nat.
Hypothesis maxRW_pos : (1 <= maxRW)%nat.

(** The read loop ends with the bytes of the file in the buffer, when the
    file holds as many bytes as the buffer. *)
Lemma fill_all c (fuel : nat) :
  forall (k : nat) file buf,
    content file = c -> cursor file = Z.of_nat k ->
    length buf = length c -> take k buf = take k c ->
    (k <= length c)%nat -> (length c - k < fuel)%nat ->
    fill maxRW fuel file buf k = FilledBuffer c.
Proof.
  induction fuel as [|fuel IH]; intros k file buf Hc Hk Hl Ht Hle Hf; [lia|].
  cbn [fill]. rewrite Hl.
  destruct (Nat.ltb_spec k (length c)) as [Hlt|Hge].
  - set (n := Nat.min (length c - k) maxRW).
    assert (Hn : (1 <= n <= length c - k)%nat) by (subst n; lia).
    unfold OsFile.read, rest. rewrite Hc, Hk, Nat2Z.id.
    destruct n as [|n'] eqn:En; [lia|].
    destruct (drop k c) as [|x rest'] eqn:Ed.
    { apply (f_equal (@length Z)) in Ed. rewrite length_drop in Ed.
      cbn in Ed. lia. }
    rewrite <- Ed. cbv zeta.
    assert (Hgot : length (take (S n') (drop k c)) = S n').
    { rewrite length_take, length_drop. lia. }
    apply IH.
    + unfold advance. cbn [content]. exact Hc.
    + unfold advance. cbn [cursor]. rewrite Hk, Hgot. lia.
    + unfold overwrite. rewrite !length_app, length_take, length_replicate,
        length_drop, Hgot. lia.
    + rewrite Hgot. unfold overwrite.
      replace (k - length buf)%nat with 0%nat by lia. cbn [replicate app].
      rewrite take_app_ge by (rewrite length_take; lia).
      rewrite length_take, Nat.min_l by lia.
      replace (k + S n' - k)%nat with (S n') by lia.
      rewrite take_app_ge by lia. rewrite Hgot, Nat.sub_diag, take_0, app_nil_r.
      rewrite Ht. rewrite <- take_take_drop. reflexivity.
    + rewrite Hgot. lia.
    + rewrite Hgot. lia.
  - assert (k = length c) by lia. subst k.
    rewrite <- Hl in Ht. rewrite take_ge in Ht by lia.
    rewrite Ht, take_ge by lia. reflexivity.
Qed.

End Filling.


(** *** The position map that the restore builds *)

(** The hash of slot [i], EMPTY where there is none. *)
Definition hashAt (m : list Hash) (i : Z) : Hash :=
  default empty (m !! Z.to_nat i).

(** The map after the loop of [RestoreForest] over [k] positions from
    [i]. *)
Fixpoint rebuilt (k : nat) (i : Z) (m : list Hash) (pm : gmap MiniHash Z)
    : gmap MiniHash Z :=
  match k with
  | O => pm
  | S k' => rebuilt k' (i + 1) m (<[Mini (hashAt m i) := i]> pm)
  end.

Lemma rebuild_total m (k : nat) :
  forall i pm,
    0 <= i -> i + Z.of_nat k <= Z.of_nat (length m) ->
    rebuild k i m pm = Some (rebuilt k i m pm).
Proof.
  induction k as [|k IH]; intros i pm Hi Hk; [reflexivity|].
  cbn [rebuild rebuilt].
  assert (Hr : inRange i m = true) by (apply inRange_spec; lia).
  rewrite Hr. unfold hashAt.
  destruct (lookup_lt_is_Some_2 m (Z.to_nat i)) as [h Hh]; [lia|].
  rewrite Hh. cbn [default]. apply IH; lia.
Qed.

Lemma rebuilt_miss m key (k : nat) :
  forall i pm,
    (forall j, i <= j < i + Z.of_nat k -> Mini (hashAt m j) <> key) ->
    rebuilt k i m pm !! key = pm !! key.
Proof.
  induction k as [|k IH]; intros i pm Hne; [reflexivity|].
  cbn [rebuilt]. rewrite IH by (intros j Hj; apply Hne; lia).
  apply lookup_insert_ne. apply Hne. lia.
Qed.

Lemma rebuilt_hit m (k : nat) :
  forall i pm j,
    i <= j < i + Z.of_nat k ->
    (forall j1 j2, i <= j1 < j2 -> j2 < i + Z.of_nat k ->
       Mini (hashAt m j1) <> Mini (hashAt m j2)) ->
    rebuilt k i m pm !! Mini (hashAt m j) = Some j.
Proof.
  induction k as [|k IH]; intros i pm j Hj Hd; [lia|].
  cbn [rebuilt]. destruct (Z.eq_dec j i) as [->|Hne].
  - rewrite rebuilt_miss.
    + apply lookup_insert_eq.
    + intros j Hj'. intros E. apply (Hd i j); [lia | lia | congruence].
  - apply IH; [lia|]. intros j1 j2 H1 H2. apply Hd; lia.
Qed.






(** *** The round trip *)

Lemma overwrite_end (c d : list Z) (p : nat) :
  p = length c -> overwrite c p d = c ++ d.
Proof.
  intros ->. unfold overwrite.
  rewrite take_ge by lia. rewrite Nat.sub_diag. cbn [replicate app].
  rewrite drop_ge by lia. now rewrite app_nil_r.
Qed.

Lemma savedMisc_content f :
  content (savedMisc f) = be_bytes 8 (numLeaves f) ++ be_bytes 1 (rows f).
Proof.
  unfold savedMisc, WriteMiscData, openFile, OsFile.write.
  cbn [appendMode content cursor]. cbn [Z.to_nat].
  rewrite (overwrite_end [] _ 0) by reflexivity. cbn [app length].
  rewrite be_bytes_length. apply overwrite_end.
  rewrite Z.add_0_l, Nat2Z.id. now rewrite be_bytes_length.
Qed.

Lemma savedForest_content f :
  content (savedForest f) = toBytes (data f).
Proof.
  unfold savedForest, WriteForestToDisk, openFile, seekStart, OsFile.write.
  cbn [Z.ltb Z.compare appendMode content cursor Z.to_nat].
  now rewrite (overwrite_end [] _ 0) by reflexivity.
Qed.

Lemma wellSized_replicate n : wellSized (replicate n empty).
Proof. apply Forall_replicate. reflexivity. Qed.

Lemma readFull_prefix (a b0 : list Z) (n : nat) mode :
  length a = n ->
  readFull (mkFile (a ++ b0) 0 mode) n
  = Some (a, mkFile (a ++ b0) (Z.of_nat n) mode).
Proof.
  intros <-. unfold readFull, rest, advance. cbn [cursor content appendMode].
  change (Z.to_nat 0) with 0%nat. rewrite drop_0, length_app.
  destruct (Nat.leb_spec (length a) (length a + length b0)); [|lia].
  now rewrite take_app_length.
Qed.

Lemma readFull_suffix (a b0 : list Z) (n k : nat) mode :
  length a = n -> length b0 = k ->
  readFull (mkFile (a ++ b0) (Z.of_nat n) mode) k
  = Some (b0, mkFile (a ++ b0) (Z.of_nat n + Z.of_nat k) mode).
Proof.
  intros <- <-. unfold readFull, rest, advance.
  cbn [cursor content appendMode].
  rewrite Nat2Z.id, drop_app_length, Nat.leb_refl.
  now rewrite take_ge by lia.
Qed.

Section RoundTrip.
Variable maxRW : nat.
Hypothesis maxRW_pos : (1 <= maxRW)%nat.

(** What the restore gives on the files written from a forest in RAM: the
    leaf count, the rows and the slots of the forest, and the position
    map rebuilt from the leaves. *)
Lemma restore_saved f :
  shaped f -> rows f <= 42 -> wellSized (data f) ->
  RestoreForest maxRW (savedMisc f) (savedForest f)
  = RestoredForest
      (mkForest (numLeaves f) (rows f) (data f)
         (rebuilt (Z.to_nat (numLeaves f)) 0 (data f) ∅)).
Proof.
  intros (HR & HL & Hn) H42 Hws.
  pose proof (pow2_gt0 (rows f) ltac:(lia)) as Hp.
  assert (Hp42 : 2 ^ rows f <= 2 ^ 42) by (apply pow2_le; lia).
  unfold RestoreForest.
  (* the misc file *)
  assert (Hmisc : savedMisc f
                  = mkFile (be_bytes 8 (numLeaves f) ++ be_bytes 1 (rows f))
                      0 false).
  { rewrite <- (savedMisc_content f). reflexivity. }
  rewrite Hmisc.
  rewrite (readFull_prefix (be_bytes 8 (numLeaves f)) (be_bytes 1 (rows f))
             8 false) by apply be_bytes_length.
  rewrite (readFull_suffix (be_bytes 8 (numLeaves f)) (be_bytes 1 (rows f))
             8 1 false) by apply be_bytes_length.
  unfold be_u64. rewrite !be_value_be_bytes.
  rewrite (Z.mod_small (numLeaves f))
    by (change (256 ^ Z.of_nat 8) with (2 ^ 22 * 2 ^ 42); lia).
  rewrite (Z.mod_small (rows f)) by (change (256 ^ Z.of_nat 1) with 256; lia).
  (* the backend in RAM *)
  assert (Hsz : u64 (u64 (Z.shiftl 2 (rows f)) - 1) = 2 ^ (rows f + 1) - 1).
  { rewrite Z.shiftl_mul_pow2 by lia. rewrite <- pow2_succ by lia.
    rewrite pow2_succ by lia.
    rewrite (u64_small (2 * 2 ^ rows f))
      by (change (2 ^ 64) with (2 ^ 22 * 2 ^ 42); lia).
    apply u64_small. change (2 ^ 64) with (2 ^ 22 * 2 ^ 42). lia. }
  rewrite Hsz. unfold resize. cbn [data length numLeaves rows positionMap].
  rewrite Z.sub_0_r, Z.add_0_l.
  rewrite pow2_succ in * by lia.
  rewrite (u64_small (2 * 2 ^ rows f - 1))
    by (change (2 ^ 64) with (2 ^ 22 * 2 ^ 42); lia).
  rewrite maxSlots_value.
  assert (Hfit : (2 * 2 ^ rows f - 1 <=? 2 ^ 43)
                 && (2 * 2 ^ rows f - 1 <=? 2 ^ 43) = true).
  { change (2 ^ 43) with (2 * 2 ^ 42). lia. }
  rewrite Hfit. cbn [app data].
  assert (HN : Z.to_nat (2 * 2 ^ rows f - 1) = length (data f)) by lia.
  rewrite HN.
  (* the read loop *)
  rewrite (fill_all maxRW maxRW_pos (toBytes (data f))).
  - rewrite length_replicate, toHashes_toBytes by exact Hws.
    rewrite rebuild_total by lia. reflexivity.
  - apply savedForest_content.
  - reflexivity.
  - rewrite (toBytes_length (data f) Hws),
      (toBytes_length _ (wellSized_replicate _)), length_replicate.
    reflexivity.
  - reflexivity.
  - lia.
  - rewrite (toBytes_length (data f) Hws),
      (toBytes_length _ (wellSized_replicate _)), length_replicate.
    lia.
Qed.


End RoundTrip.

(** Four leaves put in by one [Modify]; then leaf 0 deleted by another:
    [removev5] takes its entry out of the position map and lowers
    [numLeaves], the hash of the leaf stays at position 0. *)
Definition fourLeaves : Forest :=
  mkForest 4 2
    [hashOf 1; hashOf 2; hashOf 3; hashOf 4;
     toyHash (hashOf 1) (hashOf 2); toyHash (hashOf 3) (hashOf 4);
     toyHash (toyHash (hashOf 1) (hashOf 2)) (toyHash (hashOf 3) (hashOf 4))]
    {[ Mini (hashOf 1) := 0; Mini (hashOf 2) := 1; Mini (hashOf 3) := 2;
       Mini (hashOf 4) := 3 ]}.

Definition oneDeleted : Forest :=
  mkForest 3 2
    [hashOf 1; hashOf 2; hashOf 3; hashOf 4;
     hashOf 2; toyHash (hashOf 3) (hashOf 4);
     toyHash (toyHash (hashOf 1) (hashOf 2)) (toyHash (hashOf 3) (hashOf 4))]
    {[ Mini (hashOf 2) := 1; Mini (hashOf 3) := 2; Mini (hashOf 4) := 3 ]}.




End PersistProps.

(* ===================================================================== *)
(** ** Runs of the flat-file workers                                     *)
(* ===================================================================== *)

Module FlatFileRuns.
Import Enc OsFile FlatFile FlatFileProps.

(** The bytes one round of the block worker's main loop puts into the
    proof file for a payload: the length, then the payload. *)
Definition writtenRecord (pbytes : list Z) : list Z :=
  be_bytes 4 (u32 (Z.of_nat (length pbytes))) ++ pbytes.

(** The worker after the payloads [ps] came in on [proofChan]. *)
Definition run (w : BlockWorker) (ps : list (list Z)) : BlockWorker :=
  fold_left step ps w.

(** Where the records of the payloads [ps] begin, and where they end, when
    the first one begins at byte [o]. *)
Fixpoint recordStarts (o : Z) (ps : list (list Z)) : list Z :=
  match ps with
  | [] => []
  | p :: ps' => o :: recordStarts (o + (Z.of_nat (length p) + 4)) ps'
  end.

Fixpoint recordEnds (o : Z) (ps : list (list Z)) : list Z :=
  match ps with
  | [] => []
  | p :: ps' =>
      (o + (Z.of_nat (length p) + 4))
      :: recordEnds (o + (Z.of_nat (length p) + 4)) ps'
  end.

(** The entries of an offset file of [n] entries. *)
Fixpoint offsetEntries (n : nat) (bs : list Z) : list Z :=
  match n with
  | O => []
  | S k => be_i64 (take 8 bs) :: offsetEntries k (drop 8 bs)
  end.

(** The worker that starts on fresh files. *)
Definition freshWorker : BlockWorker :=
  mkBlockWorker (openFile true []) (openFile true []) 0 0 [].

(** The TTL worker has one offset less than [maxOffsetHeight] says. *)
Definition offsetsCounted (w : TTLWorker) : Prop :=
  Z.of_nat (length (inRamOffsets w)) = maxOffsetHeight w - 1.

(** The four bytes the TTL worker writes for an entry of a block of
    height [h]. *)
Definition ttlBytes (h : Z) (c : txoStart) : list Z :=
  be_bytes 4 (i32 (h - createHeight c)).

(** *** The block worker's main loop *)

Lemma writtenRecord_length p :
  Z.of_nat (length (writtenRecord p)) = Z.of_nat (length p) + 4.
Proof.
  unfold writtenRecord. rewrite length_app, be_bytes_length. lia.
Qed.

Lemma step_offsetFile w p :
  appendMode (offsetFile w) = true ->
  content (offsetFile (step w p))
  = content (offsetFile w) ++ be_bytes 8 (curOffset w) /\
  appendMode (offsetFile (step w p)) = true.
Proof.
  intros Hm. unfold step. cbn [offsetFile].
  set (off := match seekStart _ _ with Some f => f | None => offsetFile w end).
  assert (Hoff : appendMode off = true /\ content off = content (offsetFile w)).
  { subst off. unfold seekStart. destruct (_ <? 0); cbn; auto. }
  destruct Hoff as [Ha Hc].
  rewrite write_keeps_mode, write_append by exact Ha.
  now rewrite Hc.
Qed.

Lemma step_proofFile_mode w p :
  appendMode (proofFile w) = true -> appendMode (proofFile (step w p)) = true.
Proof.
  intros Hm. unfold step. cbn [proofFile]. now rewrite !write_keeps_mode.
Qed.

(** The log the main loop keeps, from any state whose handles are in
    append mode. *)
Lemma run_log ps :
  forall w,
    appendMode (proofFile w) = true -> appendMode (offsetFile w) = true ->
    0 <= curOffset w ->
    curOffset w + Z.of_nat (length (concat (map writtenRecord ps))) < 2 ^ 63 ->
    0 <= proofWriteHeight w ->
    proofWriteHeight w + Z.of_nat (length ps) < 2 ^ 31 ->
    content (proofFile (run w ps))
    = content (proofFile w) ++ concat (map writtenRecord ps) /\
    content (offsetFile (run w ps))
    = content (offsetFile w)
      ++ concat (map (be_bytes 8) (recordStarts (curOffset w) ps)) /\
    offsetChan (run w ps) = offsetChan w ++ recordEnds (curOffset w) ps /\
    curOffset (run w ps)
    = curOffset w + Z.of_nat (length (concat (map writtenRecord ps))) /\
    proofWriteHeight (run w ps) = proofWriteHeight w + Z.of_nat (length ps).
Proof.
  induction ps as [|p ps IH]; intros w Hpm Hom Hc Hsum Hh Hhs.
  - cbn. rewrite !app_nil_r. repeat split; lia.
  - cbn [map concat length recordStarts recordEnds] in *.
    rewrite length_app in Hsum.
    pose proof (writtenRecord_length p) as Hl.
    assert (Hcur : curOffset (step w p) = curOffset w + (Z.of_nat (length p) + 4)).
    { unfold step. cbn [curOffset]. apply wrapS_small; [lia|].
      change (2 ^ (64 - 1)) with (2 ^ 63). lia. }
    assert (Hht : proofWriteHeight (step w p) = proofWriteHeight w + 1).
    { unfold step. cbn [proofWriteHeight]. apply wrapS_small; [lia|].
      change (2 ^ (32 - 1)) with (2 ^ 31). lia. }
    destruct (step_offsetFile w p Hom) as [Hoc Hom'].
    pose proof (step_proofFile_mode w p Hpm) as Hpm'.
    destruct (IH (step w p) Hpm' Hom') as (H1 & H2 & H3 & H4 & H5);
      try lia.
    unfold run in *. cbn [fold_left].
    rewrite H1, H2, H3, H4, H5, Hcur, Hht, Hoc.
    rewrite step_appends by exact Hpm.
    unfold step at 1. cbn [offsetChan].
    fold (writtenRecord p).
    rewrite <- !app_assoc. cbn [app].
    rewrite length_app.
    change (i64 (curOffset w + (Z.of_nat (length p) + 4)))
      with (curOffset (step w p)).
    rewrite Hcur.
    repeat split; try reflexivity; lia.
Qed.

(** The two files after a run from fresh files. *)
Lemma block_worker_log_aux ps :
  Z.of_nat (length (concat (map writtenRecord ps))) < 2 ^ 63 ->
  Z.of_nat (length ps) < 2 ^ 31 ->
  content (proofFile (run freshWorker ps)) = concat (map writtenRecord ps) /\
  content (offsetFile (run freshWorker ps))
  = concat (map (be_bytes 8) (recordStarts 0 ps)).
Proof.
  intros Hsum Hn.
  destruct (run_log ps freshWorker) as (H1 & H2 & _);
    try reflexivity; cbn [freshWorker curOffset proofWriteHeight]; try lia.
  rewrite H1, H2. split; reflexivity.
Qed.

(** X1: started on fresh files, after any payloads the proof file is the
    records one after the other, each the 4-byte length and the payload;
    the offset file holds, 8 bytes each, the offsets at which the records
    begin; the offsets sent on [offsetChan] are those at which they end;
    [curOffset] is the length of the proof file and [proofWriteHeight] the
    number of records. *)
Theorem block_worker_log fuel ps :
  Z.of_nat (length (concat (map writtenRecord ps))) < 2 ^ 63 ->
  Z.of_nat (length ps) < 2 ^ 31 ->
  startup fuel [] [] = Started freshWorker /\
  content (proofFile (run freshWorker ps)) = concat (map writtenRecord ps) /\
  content (offsetFile (run freshWorker ps))
  = concat (map (be_bytes 8) (recordStarts 0 ps)) /\
  offsetChan (run freshWorker ps) = recordEnds 0 ps /\
  curOffset (run freshWorker ps)
  = Z.of_nat (length (content (proofFile (run freshWorker ps)))) /\
  proofWriteHeight (run freshWorker ps) = Z.of_nat (length ps).
Proof.
  intros Hsum Hn. split; [reflexivity|].
  destruct (run_log ps freshWorker) as (H1 & H2 & H3 & H4 & H5);
    try reflexivity; cbn [freshWorker curOffset proofWriteHeight]; try lia.
  rewrite H1, H2, H3, H4, H5. cbn. repeat split; lia.
Qed.

Lemma block_worker_log_witness :
  content (proofFile (run freshWorker [[7]; [8; 9]]))
  = [0; 0; 0; 1; 7; 0; 0; 0; 2; 8; 9] /\
  content (offsetFile (run freshWorker [[7]; [8; 9]]))
  = be_bytes 8 0 ++ be_bytes 8 5 /\
  offsetChan (run freshWorker [[7]; [8; 9]]) = [5; 11].
Proof.
  destruct (block_worker_log 1 [[7]; [8; 9]]) as (_ & H1 & H2 & H3 & _).
  - cbn. lia.
  - cbn. lia.
  - split; [exact H1|]. split; [exact H2 | exact H3].
Defined.

(** *** The block worker's start-up *)

Lemma populate_sends (n : nat) :
  forall fuel offsetPos offsetMax f cur sent,
    offsetPos < offsetMax ->
    0 <= cursor f ->
    length (rest f) = (8 * n)%nat ->
    (n < fuel)%nat ->
    populate fuel offsetPos offsetMax f cur sent
    = Panicked (sent ++ offsetEntries n (rest f)).
Proof.
  induction n as [|n IH]; intros fuel offsetPos offsetMax f cur sent
    Hlt Hc Hl Hf; (destruct fuel as [|fuel]; [lia|]); cbn [populate];
    (destruct (Z.ltb_spec offsetPos offsetMax) as [_|]; [|lia]);
    unfold readFull; rewrite Hl.
  - cbn. now rewrite app_nil_r.
  - destruct (Nat.leb_spec 8 (8 * S n)) as [_|]; [|lia].
    rewrite IH; [| exact Hlt | unfold advance; cbn [cursor]; lia | | lia].
    + rewrite <- app_assoc. cbn [offsetEntries app]. do 3 f_equal.
      unfold rest, advance. cbn [cursor content].
      rewrite drop_drop.
      now replace (Z.to_nat (cursor f + Z.of_nat 8))
        with (Z.to_nat (cursor f) + 8)%nat by lia.
    + unfold rest, advance. cbn [cursor content].
      unfold rest in Hl.
      replace (Z.to_nat (cursor f + Z.of_nat 8)) with (Z.to_nat (cursor f) + 8)%nat
        by lia.
      rewrite <- drop_drop, length_drop, Hl. lia.
Qed.

(** X2: on an offset file that is not empty the worker never reaches its
    main loop.  A length that is no multiple of 8 makes it panic at once;
    otherwise it reads every entry, sends it on [offsetChan], and panics
    on the read at the end of the file. *)
Theorem startup_sends_then_panics fuel proofBytes offsetBytes :
  offsetBytes <> [] ->
  (length offsetBytes / 8 < fuel)%nat ->
  startup fuel proofBytes offsetBytes
  = Panicked (if (length offsetBytes mod 8 =? 0)%nat
              then offsetEntries (length offsetBytes / 8) offsetBytes
              else []).
Proof.
  intros Hne Hf. unfold startup, seekEnd, size, openFile.
  cbn [content appendMode].
  assert (Hrem : Z.rem (Z.of_nat (length offsetBytes)) 8
                 = Z.of_nat (length offsetBytes mod 8)).
  { rewrite Z.rem_mod_nonneg by lia. now rewrite Nat2Z.inj_mod. }
  rewrite Hrem.
  destruct (Nat.eqb_spec (length offsetBytes mod 8) 0) as [Hm|Hm].
  - rewrite Hm. cbn [Z.of_nat Z.eqb negb].
    assert (Hpos : 0 < Z.of_nat (length offsetBytes)).
    { destruct offsetBytes; [congruence | cbn [length]; lia]. }
    destruct (Z.ltb_spec 0 (Z.of_nat (length offsetBytes))) as [_|]; [|lia].
    unfold seekStart. cbn [Z.ltb Z.compare cursor content appendMode].
    rewrite (populate_sends (length offsetBytes / 8)); try (cbn; lia).
    + reflexivity.
    + unfold rest. cbn [cursor content].
      change (Z.to_nat 0) with 0%nat. rewrite drop_0.
      pose proof (Nat.div_mod_eq (length offsetBytes) 8). lia.
    + exact Hf.
  - destruct (Z.eqb_spec (Z.of_nat (length offsetBytes mod 8)) 0); [lia|].
    reflexivity.
Qed.

Lemma startup_sends_then_panics_witness :
  startup 3 [] (be_bytes 8 0 ++ be_bytes 8 5) = Panicked [0; 5].
Proof.
  apply (startup_sends_then_panics 3 [] (be_bytes 8 0 ++ be_bytes 8 5)).
  - discriminate.
  - cbn. lia.
Defined.

(** *** The TTL worker *)

Lemma catchUp_file h chan :
  forall w w' chan',
    catchUp h w chan = TTLDone w' chan' ->
    ttlProofFile w' = ttlProofFile w.
Proof.
  induction chan as [|o chan IH]; intros w w' chan'; cbn [catchUp].
  - destruct (_ <? _); [discriminate|]. now intros [= <- <-].
  - destruct (_ <? _).
    + intros H. now rewrite (IH _ _ _ H).
    + now intros [= <- <-].
Qed.

Lemma patchAll_appends idxBits h cs :
  forall w w',
    patchAll idxBits h w cs = Some w' ->
    appendMode (ttlProofFile w) = true ->
    appendMode (ttlProofFile w') = true /\
    content (ttlProofFile w')
    = content (ttlProofFile w) ++ concat (map (ttlBytes h) cs).
Proof.
  induction cs as [|c cs IH]; intros w w'; cbn [patchAll map concat].
  - intros [= <-] Hm. now rewrite app_nil_r.
  - destruct (patchOne idxBits h w c) as [w1|] eqn:E1; [|discriminate].
    intros Hrun Hm.
    destruct (patchOne_mode _ _ _ _ _ E1 Hm) as [Hm1 Hc1].
    destruct (IH _ _ Hrun Hm1) as [Hm2 Hc2].
    split; [exact Hm2|]. rewrite Hc2, Hc1, <- app_assoc. reflexivity.
Qed.

(** X3: whatever the offsets it seeks to, the TTL worker changes no byte
    that is in the proof file: a TTL block only adds, at the end of the
    file, four bytes for each of its entries. *)
Theorem ttl_worker_only_appends idxBits w chan ttlRes w' chan' :
  appendMode (ttlProofFile w) = true ->
  gotTTL idxBits w chan ttlRes = TTLDone w' chan' ->
  content (ttlProofFile w')
  = content (ttlProofFile w)
    ++ concat (map (ttlBytes (Height ttlRes)) (Created ttlRes)) /\
  appendMode (ttlProofFile w') = true.
Proof.
  intros Hm. unfold gotTTL.
  destruct (catchUp _ w chan) as [w1 chan1| |] eqn:Ec; try discriminate.
  destruct (patchAll _ _ w1 _) as [w2|] eqn:Ep; [|discriminate].
  intros [= <- <-].
  pose proof (catchUp_file _ _ _ _ _ Ec) as Hf.
  destruct (patchAll_appends _ _ _ _ _ Ep) as [Hm2 Hc2]; [congruence|].
  rewrite Hc2, Hf. auto.
Qed.

Lemma ttl_worker_only_appends_witness :
  content (ttlProofFile
             (mkTTLWorker [16; 32] 3
                (mkFile (two_records ++ [0; 0; 0; 3]) 36 true)))
  = content (ttlProofFile (ttlStart two_records))
    ++ concat (map (ttlBytes 3) [mkTxoStart 0 1]) /\
  appendMode (ttlProofFile
                (mkTTLWorker [16; 32] 3
                   (mkFile (two_records ++ [0; 0; 0; 3]) 36 true))) = true.
Proof.
  apply (ttl_worker_only_appends 16 (ttlStart two_records) [16; 32]
           (mkTtlResultBlock 3 [mkTxoStart 0 1]) _ []).
  - reflexivity.
  - reflexivity.
Defined.

Lemma gotOffset_counted w o :
  offsetsCounted w -> maxOffsetHeight w < 2 ^ 31 - 1 ->
  offsetsCounted (gotOffset w o).
Proof.
  unfold offsetsCounted, gotOffset. cbn [inRamOffsets maxOffsetHeight].
  intros H Hlt. rewrite length_app. cbn [length].
  unfold i32. rewrite wrapS_small; [lia | lia |].
  change (2 ^ (32 - 1)) with (2 ^ 31). lia.
Qed.

Lemma catchUp_counted h chan :
  forall w w' chan',
    offsetsCounted w -> h < 2 ^ 31 ->
    catchUp h w chan = TTLDone w' chan' ->
    offsetsCounted w' /\ maxOffsetHeight w' = Z.max h (maxOffsetHeight w).
Proof.
  induction chan as [|o chan IH]; intros w w' chan' Hc Hh; cbn [catchUp].
  - destruct (Z.ltb_spec (maxOffsetHeight w) h); [discriminate|].
    intros [= <- <-]. split; [exact Hc | lia].
  - destruct (Z.ltb_spec (maxOffsetHeight w) h).
    + intros Hrun.
      destruct (IH _ _ _ (gotOffset_counted w o Hc ltac:(lia)) Hh Hrun)
        as [Hc' Hm].
      split; [exact Hc'|]. rewrite Hm.
      unfold gotOffset, offsetsCounted in *. cbn [maxOffsetHeight].
      unfold i32. rewrite wrapS_small; [lia | lia |].
      change (2 ^ (32 - 1)) with (2 ^ 31). lia.
    + intros [= <- <-]. split; [exact Hc | lia].
Qed.

Lemma patchOne_offsets idxBits h w c w' :
  patchOne idxBits h w c = Some w' ->
  inRamOffsets w' = inRamOffsets w /\
  maxOffsetHeight w' = maxOffsetHeight w /\
  createHeight c < Z.of_nat (length (inRamOffsets w)).
Proof.
  unfold patchOne.
  destruct (0 <=? createHeight c) eqn:E0; cbn [andb]; [|discriminate].
  destruct (Z.ltb_spec (createHeight c) (Z.of_nat (length (inRamOffsets w))));
    [|discriminate].
  destruct (inRamOffsets w !! _); [|discriminate].
  intros [= <-]. cbn. auto.
Qed.

Lemma patchAll_offsets idxBits h cs :
  forall w w',
    patchAll idxBits h w cs = Some w' ->
    inRamOffsets w' = inRamOffsets w /\
    maxOffsetHeight w' = maxOffsetHeight w /\
    forall c, In c cs -> createHeight c < Z.of_nat (length (inRamOffsets w)).
Proof.
  induction cs as [|c cs IH]; intros w w'; cbn [patchAll].
  - intros [= <-]. repeat split. intros c [].
  - destruct (patchOne idxBits h w c) as [w1|] eqn:E1; [|discriminate].
    intros Hrun.
    destruct (patchOne_offsets _ _ _ _ _ E1) as (Ho1 & Hm1 & Hc1).
    destruct (IH _ _ Hrun) as (Ho2 & Hm2 & Hc2).
    split; [congruence|]. split; [congruence|].
    intros c' [<-|Hin]; [exact Hc1|].
    rewrite <- Ho1. now apply Hc2.
Qed.

(** X4: the worker holds one offset less than [maxOffsetHeight] says, from
    its start and after every offset and every TTL block; so a TTL block
    it is not ahead of, with an entry created at the block's height minus
    one or later, is never written: indexing [inRamOffsets] panics (or the
    worker still waits for offsets). *)
Theorem ttl_worker_panics_on_recent idxBits w chan ttlRes c :
  offsetsCounted w ->
  maxOffsetHeight w <= Height ttlRes < 2 ^ 31 ->
  In c (Created ttlRes) ->
  Height ttlRes - 1 <= createHeight c ->
  gotTTL idxBits w chan ttlRes = TTLPanic \/
  gotTTL idxBits w chan ttlRes = TTLBlocked.
Proof.
  intros Hc Hh Hin Hrecent. unfold gotTTL.
  destruct (catchUp _ w chan) as [w1 chan1| |] eqn:Ec; auto.
  destruct (catchUp_counted _ _ _ _ _ Hc (proj2 Hh) Ec) as [Hc1 Hm1].
  destruct (patchAll _ _ w1 _) as [w2|] eqn:Ep; auto.
  exfalso.
  destruct (patchAll_offsets _ _ _ _ _ Ep) as (_ & _ & Hall).
  specialize (Hall c Hin). unfold offsetsCounted in Hc1. lia.
Qed.

(** The invariant holds at the start and is kept by both events. *)
Lemma offsetsCounted_kept idxBits :
  (forall proofBytes, offsetsCounted (ttlStart proofBytes)) /\
  (forall w o, offsetsCounted w -> maxOffsetHeight w < 2 ^ 31 - 1 ->
     offsetsCounted (gotOffset w o)) /\
  (forall w chan ttlRes w' chan',
     offsetsCounted w -> Height ttlRes < 2 ^ 31 ->
     gotTTL idxBits w chan ttlRes = TTLDone w' chan' ->
     offsetsCounted w').
Proof.
  split; [reflexivity|]. split; [exact gotOffset_counted|].
  intros w chan ttlRes w' chan' Hc Hh. unfold gotTTL.
  destruct (catchUp _ w chan) as [w1 chan1| |] eqn:Ec; try discriminate.
  destruct (patchAll _ _ w1 _) as [w2|] eqn:Ep; [|discriminate].
  intros [= <- <-].
  destruct (catchUp_counted _ _ _ _ _ Hc Hh Ec) as [Hc1 _].
  destruct (patchAll_offsets _ _ _ _ _ Ep) as (Ho & Hm & _).
  unfold offsetsCounted in *. congruence.
Qed.

Lemma ttl_worker_panics_on_recent_witness :
  gotTTL 32 (ttlStart []) [] (mkTtlResultBlock 1 [mkTxoStart 0 0]) = TTLPanic \/
  gotTTL 32 (ttlStart []) [] (mkTtlResultBlock 1 [mkTxoStart 0 0]) = TTLBlocked.
Proof.
  apply (ttl_worker_panics_on_recent 32 (ttlStart []) []
           (mkTtlResultBlock 1 [mkTxoStart 0 0]) (mkTxoStart 0 0)).
  - reflexivity.
  - cbn. lia.
  - left. reflexivity.
  - cbn. lia.
Defined.

End FlatFileRuns.

(* ===================================================================== *)
(** ** The reader on the records of a proof file                         *)
(* ===================================================================== *)

Module ProofReaderRuns.
Import Enc OsFile FlatFile FlatFileProps FlatFileRuns ProofReader ProofReaderProps.

(** The trace of the function up to the read of the offset entry. *)
Definition offsetRead (height : Z) : list Event :=
  [OpenOffsetFile; OpenProofFile; SeekOffsetFile (offsetEntryPos height);
   ReadOffset].

(** The files the block worker leaves, as a proof directory. *)
Definition writtenDir (w : BlockWorker) : proofDir :=
  mkProofDir (Some (content (offsetFile w))) (Some (content (proofFile w))).

Lemma be_i64_be_bytes x : 0 <= x < 2 ^ 63 -> be_i64 (be_bytes 8 x) = x.
Proof.
  intros H. unfold be_i64. rewrite be_value_be_bytes.
  change (256 ^ Z.of_nat 8) with (2 ^ 64).
  rewrite Z.mod_small by (change (2 ^ 64) with (2 * 2 ^ 63); lia).
  apply wrapS_small; [lia|]. change (2 ^ (64 - 1)) with (2 ^ 63). lia.
Qed.

Lemma be_u32_be_bytes x : 0 <= x < 2 ^ 32 -> be_u32 (be_bytes 4 x) = x.
Proof.
  intros H. unfold be_u32. rewrite be_value_be_bytes.
  change (256 ^ Z.of_nat 4) with (2 ^ 32). now apply Z.mod_small.
Qed.

(** Without an offset entry for the height the function fails. *)
Lemma GetUData_no_offset dir height obytes pbytes :
  pOffsetFile dir = Some obytes ->
  pFile dir = Some pbytes ->
  recordedOffset obytes height = None ->
  err (GetUDataBytesFromFile dir height) = true.
Proof.
  intros Ho Hp Hr. unfold GetUDataBytesFromFile.
  destruct (height =? 0); [reflexivity|].
  rewrite Ho, Hp.
  pose proof (read_offset_entry obytes height) as E.
  destruct (seekStart (openFile false obytes) (offsetEntryPos height))
    as [f|]; [|reflexivity].
  destruct (readFull f 8) as [[obs f']|]; [congruence | reflexivity].
Qed.

(** With something else than the magic at the offset the function fails. *)
Lemma afterOffset_bad_magic pbytes off tr :
  bytesAt pbytes off 4 <> realMagic ->
  err (afterOffset pbytes off tr) = true.
Proof.
  intros Hbad. unfold afterOffset.
  destruct (off <? 0); [reflexivity|].
  destruct (bool_decide _); [reflexivity|].
  destruct (negb (_ =? _)%nat); [reflexivity|].
  destruct (bytes_eqb _ _) eqn:E; [|reflexivity].
  apply bytes_eqb_true in E. contradiction.
Qed.

(** What the function returns on a record that has its magic and a length
    [n] of at most 2^24, followed by the bytes [tail]. *)
Lemma afterOffset_record pre n tail tr :
  0 <= n <= 2 ^ 24 ->
  afterOffset (pre ++ realMagic ++ be_bytes 4 n ++ tail)
    (Z.of_nat (length pre)) tr
  = match Z.to_nat n, tail with
    | S _, [] =>
        mkOutcome (Some (replicate (Z.to_nat n) 0)) true
          ((((tr ++ [SeekProofFile (Z.of_nat (length pre))]) ++ [ReadMagic])
            ++ [ReadSize]) ++ [Alloc n; ReadPayload])
    | _, _ =>
        mkOutcome
          (Some (take (Z.to_nat n) tail
                 ++ replicate (Z.to_nat n - length tail) 0))
          false
          (((((tr ++ [SeekProofFile (Z.of_nat (length pre))]) ++ [ReadMagic])
             ++ [ReadSize]) ++ [Alloc n; ReadPayload]) ++ [CloseFiles])
    end.
Proof.
  intros Hn. unfold afterOffset.
  destruct (Z.ltb_spec (Z.of_nat (length pre)) 0) as [|_]; [lia|].
  rewrite Nat2Z.id, drop_app_length.
  rewrite bool_decide_eq_false_2 by discriminate.
  unfold bytesAt. rewrite Nat2Z.id, drop_app_length.
  change (take 4 (realMagic ++ be_bytes 4 n ++ tail)) with realMagic.
  change (length realMagic =? 4)%nat with true. cbn [negb].
  assert (bytes_eqb realMagic realMagic = true) as ->
    by (now apply bytes_eqb_true).
  cbn [negb].
  unfold recordedSize, bytesAt.
  replace (Z.to_nat (Z.of_nat (length pre) + 4)) with (length pre + 4)%nat
    by lia.
  rewrite <- drop_drop, drop_app_length.
  change (drop 4 (realMagic ++ be_bytes 4 n ++ tail))
    with (be_bytes 4 n ++ tail).
  rewrite take_app_length' by (now rewrite be_bytes_length).
  rewrite be_bytes_length. cbn [Nat.eqb].
  rewrite be_u32_be_bytes by (change (2 ^ 32) with (2 ^ 8 * 2 ^ 24); lia).
  change maxSize with (2 ^ 24).
  destruct (Z.ltb_spec (2 ^ 24) n) as [|_]; [lia|].
  unfold read, rest. cbn [cursor content].
  replace (Z.to_nat (Z.of_nat (length pre) + 4 + 4))
    with (length pre + 8)%nat by lia.
  rewrite <- drop_drop, drop_app_length.
  replace (drop 8 (realMagic ++ be_bytes 4 n ++ tail)) with tail.
  2:{ change 8%nat with (4 + 4)%nat. rewrite <- drop_drop.
      change (drop 4 (realMagic ++ be_bytes 4 n ++ tail))
        with (be_bytes 4 n ++ tail).
      now rewrite drop_app_length' by (now rewrite be_bytes_length). }
  destruct (Z.to_nat n) as [|k] eqn:En.
  - cbn [replicate take app drop length]. reflexivity.
  - destruct tail as [|t tail']; [reflexivity|].
    f_equal. f_equal. f_equal.
    rewrite length_take. set (l := length (t :: tail')).
    rewrite drop_replicate.
    f_equal. lia.
Qed.


(** A proof directory of one record, [aa ff aa ff 00 00 00 02 08 09], at
    the offset 0 that the entries for the heights 0 and 1 give. *)
Definition one_record_dir : proofDir :=
  mkProofDir (Some (be_bytes 8 0 ++ be_bytes 8 0))
             (Some ([] ++ spec_record [8; 9] ++ [])).


(** X6: a payload cut short by the end of the file goes unnoticed: when
    the record announces [n] bytes, at most 2^24, and the file ends after
    fewer, but at least one, the function returns the bytes there are,
    filled up with zeros to [n], and no error. *)
Theorem GetUData_short_payload dir height obytes pre n tail :
  height <> 0 ->
  pOffsetFile dir = Some obytes ->
  pFile dir = Some (pre ++ realMagic ++ be_bytes 4 n ++ tail) ->
  recordedOffset obytes height = Some (Z.of_nat (length pre)) ->
  n <= 2 ^ 24 ->
  (0 < length tail)%nat -> Z.of_nat (length tail) < n ->
  b (GetUDataBytesFromFile dir height)
  = Some (tail ++ replicate (Z.to_nat n - length tail) 0) /\
  err (GetUDataBytesFromFile dir height) = false.
Proof.
  intros Hh Ho Hp Hr Hn Ht Hshort.
  rewrite (GetUData_unfold dir height obytes _ _ Hh Ho Hp Hr).
  rewrite afterOffset_record by lia.
  destruct (Z.to_nat n) as [|k] eqn:En; [lia|].
  destruct tail as [|t tail']; [cbn in Ht; lia|].
  cbn [b err]. rewrite take_ge by lia. auto.
Qed.

Lemma GetUData_short_payload_witness :
  b (GetUDataBytesFromFile
       (mkProofDir (Some (be_bytes 8 0 ++ be_bytes 8 0))
          (Some ([] ++ realMagic ++ be_bytes 4 3 ++ [8]))) 1)
  = Some ([8] ++ replicate (Z.to_nat 3 - length [8]) 0) /\
  err (GetUDataBytesFromFile
         (mkProofDir (Some (be_bytes 8 0 ++ be_bytes 8 0))
            (Some ([] ++ realMagic ++ be_bytes 4 3 ++ [8]))) 1) = false.
Proof.
  apply (GetUData_short_payload _ 1 (be_bytes 8 0 ++ be_bytes 8 0) [] 3 [8]).
  - discriminate.
  - reflexivity.
  - reflexivity.
  - reflexivity.
  - lia.
  - cbn. lia.
  - cbn. lia.
Defined.

(** *** The reader on what the block worker wrote *)

Lemma offsetEntryPos_mult8 height : exists k, offsetEntryPos height = 8 * k.
Proof.
  unfold offsetEntryPos, i32, wrapS.
  change (2 ^ (32 - 1)) with (8 * 2 ^ 28). change (2 ^ 32) with (8 * 2 ^ 29).
  replace (8 * height + 8 * 2 ^ 28) with ((height + 2 ^ 28) * 8) by ring.
  rewrite (Z.mul_comm 8 (2 ^ 29)).
  rewrite Z.mul_mod_distr_r by lia.
  exists ((height + 2 ^ 28) mod 2 ^ 29 - 2 ^ 28). ring.
Qed.

Lemma drop_chunks {A} (n : nat) (chunks : list (list A)) (k : nat) :
  Forall (fun c => length c = n) chunks ->
  drop (n * k) (concat chunks) = concat (drop k chunks).
Proof.
  intros H. revert k. induction H as [|c chunks Hc _ IH]; intros k.
  - cbn [concat]. now rewrite !drop_nil.
  - destruct k as [|k].
    + now rewrite Nat.mul_0_r.
    + cbn [concat drop].
      replace (n * S k)%nat with (n + n * k)%nat by lia.
      rewrite <- drop_drop, drop_app_length' by (symmetry; exact Hc).
      apply IH.
Qed.

Lemma drop_records (ps : list (list Z)) (k : nat) :
  drop (length (concat (map writtenRecord (take k ps))))
    (concat (map writtenRecord ps))
  = concat (map writtenRecord (drop k ps)).
Proof.
  revert k. induction ps as [|p ps IH]; intros k.
  - now rewrite take_nil, drop_nil.
  - destruct k as [|k]; [reflexivity|].
    cbn [take map concat drop]. rewrite length_app, <- drop_drop.
    rewrite drop_app_length. apply IH.
Qed.

Lemma recordStarts_lookup ps :
  forall o (k : nat) s,
    recordStarts o ps !! k = Some s ->
    s = o + Z.of_nat (length (concat (map writtenRecord (take k ps)))) /\
    exists p, ps !! k = Some p.
Proof.
  induction ps as [|p ps IH]; intros o k s; [discriminate|].
  cbn [recordStarts]. destruct k as [|k].
  - intros [= <-]. cbn. split; [lia | eauto].
  - cbn [lookup list_lookup]. intros H.
    destruct (IH _ _ _ H) as [-> Hp].
    split; [|exact Hp].
    cbn [take map concat]. rewrite length_app.
    pose proof (writtenRecord_length p). lia.
Qed.

Lemma take_records_le (ps : list (list Z)) (k : nat) :
  (length (concat (map writtenRecord (take k ps)))
   <= length (concat (map writtenRecord ps)))%nat.
Proof.
  rewrite <- (take_drop k ps) at 2.
  rewrite map_app, concat_app, length_app. lia.
Qed.

(** The length field of a payload shorter than 2^31 bytes starts with a
    byte below 0x80: it is not the magic. *)
Lemma length_field_not_magic n :
  0 <= n < 2 ^ 31 -> be_bytes 4 n <> realMagic.
Proof.
  intros Hn E. cbn [be_bytes] in E. injection E as E _.
  change (256 ^ Z.of_nat 3) with (2 ^ 24) in E.
  assert (0 <= n / 2 ^ 24 < 128).
  { split; [apply Z.div_pos; lia|].
    apply Z.div_lt_upper_bound; [lia|].
    change (2 ^ 24 * 128) with (2 ^ 31). lia. }
  rewrite Z.mod_small in E by lia. lia.
Qed.

(** X7: the reader does not read what the block worker writes.  On the
    two files the worker leaves after any payloads, each shorter than 2^31
    bytes, started on fresh files, the function returns an error for
    every height: where the reader looks for the magic the worker has put
    the length of the payload. *)
Theorem reader_rejects_written_files ps height :
  Forall (fun p => Z.of_nat (length p) < 2 ^ 31) ps ->
  Z.of_nat (length (concat (map writtenRecord ps))) < 2 ^ 63 ->
  Z.of_nat (length ps) < 2 ^ 31 ->
  err (GetUDataBytesFromFile (writtenDir (run freshWorker ps)) height) = true.
Proof.
  intros Hshort Hsum Hn.
  destruct (block_worker_log_aux ps Hsum Hn) as (Hpf & Hof).
  unfold writtenDir. rewrite Hpf, Hof.
  set (obytes := concat (map (be_bytes 8) (recordStarts 0 ps))).
  set (pbytes := concat (map writtenRecord ps)).
  destruct (Z.eq_dec height 0) as [->|Hh]; [reflexivity|].
  destruct (recordedOffset obytes height) as [off|] eqn:Hr.
  2:{ eapply GetUData_no_offset; [reflexivity | reflexivity | exact Hr]. }
  rewrite (GetUData_unfold (mkProofDir (Some obytes) (Some pbytes)) height
             obytes pbytes off Hh eq_refl eq_refl Hr).
  apply afterOffset_bad_magic.
  (* the entry read is the start of a record *)
  unfold recordedOffset in Hr.
  destruct (Z.ltb_spec (offsetEntryPos height) 0) as [|Hpos]; [discriminate|].
  destruct (offsetEntryPos_mult8 height) as [k Hk].
  rewrite Hk in Hr.
  replace (Z.to_nat (8 * k)) with (8 * Z.to_nat k)%nat in Hr by lia.
  subst obytes.
  rewrite (drop_chunks 8) in Hr.
  2:{ apply Forall_forall. intros c Hc. apply list_elem_of_In in Hc.
      apply in_map_iff in Hc as (s & <- & _). apply be_bytes_length. }
  rewrite skipn_map in Hr.
  destruct (drop (Z.to_nat k) (recordStarts 0 ps)) as [|s rest'] eqn:Ed.
  { cbn in Hr. discriminate. }
  cbn [map concat] in Hr.
  rewrite take_app_length' in Hr by (now rewrite be_bytes_length).
  rewrite be_bytes_length in Hr. cbn [Nat.eqb] in Hr.
  assert (Hs : recordStarts 0 ps !! Z.to_nat k = Some s).
  { rewrite <- (Nat.add_0_r (Z.to_nat k)), <- lookup_drop, Ed. reflexivity. }
  destruct (recordStarts_lookup _ _ _ _ Hs) as [Hsv (p & Hp)].
  rewrite Z.add_0_l in Hsv.
  pose proof (take_records_le ps (Z.to_nat k)) as Hle.
  rewrite be_i64_be_bytes in Hr by lia.
  injection Hr as <-.
  (* and there the proof file holds the length of the payload *)
  unfold bytesAt. subst pbytes. rewrite Hsv, Nat2Z.id, drop_records.
  rewrite (drop_S _ _ _ Hp). cbn [map concat]. unfold writtenRecord at 1.
  rewrite <- app_assoc, take_app_length' by (now rewrite be_bytes_length).
  assert (Hlp : Z.of_nat (length p) < 2 ^ 31).
  { rewrite Forall_forall in Hshort. apply Hshort.
    eapply list_elem_of_lookup_2. exact Hp. }
  unfold u32. rewrite (wrapU_small 32)
    by (change (2 ^ 32) with (2 * 2 ^ 31); lia).
  apply length_field_not_magic. lia.
Qed.

Lemma reader_rejects_written_files_witness :
  err (GetUDataBytesFromFile (writtenDir (run freshWorker [[7]; [8; 9]])) 1)
  = true.
Proof.
  apply (reader_rejects_written_files [[7]; [8; 9]] 1).
  - repeat constructor; cbn; lia.
  - cbn. lia.
  - cbn. lia.
Defined.

(** *** The height in 32 bits *)

(** X8: the position of the offset entry, [8*height], is computed in
    int32.  For a height from 2^28 up to 2^29 it is negative and the
    function fails whatever the files hold; and heights that are 2^29
    apart are answered alike. *)
Theorem GetUData_height_wraps dir height :
  height <> 0 -> height + 2 ^ 29 <> 0 ->
  GetUDataBytesFromFile dir (height + 2 ^ 29)
  = GetUDataBytesFromFile dir height /\
  (2 ^ 28 <= height < 2 ^ 29 ->
   err (GetUDataBytesFromFile dir height) = true).
Proof.
  intros Hh Hh'.
  assert (Hpos : offsetEntryPos (height + 2 ^ 29) = offsetEntryPos height).
  { unfold offsetEntryPos, i32, wrapS. f_equal.
    replace (8 * (height + 2 ^ 29) + 2 ^ (32 - 1))
      with (8 * height + 2 ^ (32 - 1) + 1 * 2 ^ 32)
      by (change (2 ^ 32) with (8 * 2 ^ 29); ring).
    apply Z.mod_add. lia. }
  split.
  - unfold GetUDataBytesFromFile. rewrite Hpos.
    destruct (Z.eqb_spec (height + 2 ^ 29) 0) as [|_]; [contradiction|].
    destruct (Z.eqb_spec height 0) as [|_]; [contradiction|].
    reflexivity.
  - intros Hr. unfold GetUDataBytesFromFile.
    destruct (Z.eqb_spec height 0) as [|_]; [contradiction|].
    destruct (pOffsetFile dir); [|reflexivity].
    destruct (pFile dir); [|reflexivity].
    assert (Hneg : offsetEntryPos height < 0).
    { unfold offsetEntryPos, i32, wrapS.
      change (2 ^ (32 - 1)) with (2 ^ 31).
      replace (8 * height + 2 ^ 31)
        with ((8 * height - 2 ^ 31) + 1 * 2 ^ 32)
        by (change (2 ^ 32) with (2 * 2 ^ 31); ring).
      rewrite Z.mod_add by lia.
      assert (E28 : 2 ^ 31 = 8 * 2 ^ 28) by reflexivity.
      assert (E29 : 2 ^ 29 = 2 * 2 ^ 28) by reflexivity.
      assert (E32 : 2 ^ 32 = 16 * 2 ^ 28) by reflexivity.
      rewrite Z.mod_small; lia. }
    unfold seekStart.
    destruct (Z.ltb_spec (offsetEntryPos height) 0); [reflexivity | lia].
Qed.

Lemma GetUData_height_wraps_witness :
  GetUDataBytesFromFile one_record_dir (1 + 2 ^ 29)
  = GetUDataBytesFromFile one_record_dir 1.
Proof.
  apply (GetUData_height_wraps one_record_dir 1); discriminate.
Defined.

End ProofReaderRuns.

(* ===================================================================== *)
(** ** More of the forest engine: sanity, FindLeaf, reMap, removev5      *)
(* ===================================================================== *)

Module ForestRuns.
Import Enc Accumulator Geometry ForestProps.

(** What [sanity] returns as its [error]. *)
Inductive sanityError :=
| ErrFewRows             (* "forest has %d leaves but insufficient rows %d" *)
| ErrEmptyRoot (t : Z)   (* "... but root @%d is empty" *)
| ErrPositionMap.        (* "sanity: positionMap %d leaves but forest %d leaves" *)

(** [for _, t := range positionList.list { if f.data.read(t) == empty {
    return fmt.Errorf(...) } }]. *)
Fixpoint checkRoots (l : list Z) : M (option sanityError) :=
  match l with
  | [] => mret None
  | t :: l' =>
      h ← read t;
      if hash_eqb h empty then mret (Some (ErrEmptyRoot t)) else checkRoots l'
  end.

(** [sanity] checks forest sanity: does numLeaves make sense, and are the
    roots populated? *)
Definition sanity : M (option sanityError) :=
  f ← get;
  if u64 (Z.shiftl 1 (rows f)) <? numLeaves f then mret (Some ErrFewRows)
  else
    e ← checkRoots (getRootsForwards (numLeaves f) (rows f));
    match e with
    | Some err => mret (Some err)
    | None =>
        if numLeaves f <? Z.of_nat (base.size (positionMap f))
        then mret (Some ErrPositionMap)
        else mret None
    end.

(** [FindLeaf] finds a leaf from the positionMap and returns a bool. *)
Definition FindLeaf (leaf : Hash) : M bool :=
  f ← get;
  mret (bool_decide (is_Some (positionMap f !! Mini leaf))).

(** [ReconstructStats]. *)
Definition ReconstructStats : M (Z * Z) :=
  f ← get; mret (numLeaves f, rows f).

(** The rows, the leaf count, the position map, the number of slots and
    the slots of the bottom row are the same. *)
Definition sameLeaves (f f' : Forest) : Prop :=
  rows f' = rows f /\ numLeaves f' = numLeaves f /\
  positionMap f' = positionMap f /\
  length (data f') = length (data f) /\
  forall q, 0 <= q < 2 ^ rows f -> slot f' q = slot f q.

(** The forest of three leaves is reached by one [Modify]. *)
Lemma threeLeaves_reachable :
  reachable toyHash condenseDeletions_spec _ toyUndo 8 threeLeaves.
Proof.
  apply (reach_modify _ _ _ _ _ emptyForest
           [leafOf 1; leafOf 2; leafOf 3] [] (Some (3, [], []))).
  - apply reach_new. reflexivity.
  - unfold goSlice. cbn. lia.
  - unfold goSlice. cbn. lia.
  - exact (proj1 withEmptyLeaf_reached).
Qed.

Lemma checkRoots_ok l f :
  (forall t, In t l -> exists h, slot f t = Some h /\ h <> empty) ->
  checkRoots l f = Ok None f.
Proof.
  induction l as [|t l IH]; intros H; [reflexivity|].
  cbn [checkRoots]. rewrite bind_unfold, read_slot.
  destruct (H t (or_introl eq_refl)) as (h & -> & Hne).
  apply hash_eqb_false in Hne. rewrite Hne.
  apply IH. intros t' Ht'. apply H. now right.
Qed.

Section Reached.
Variable parentHash : Hash -> Hash -> Hash.
Hypothesis parentHash_nonempty : forall l r, parentHash l r <> empty.
Variable condenseDeletions : list Z -> Z -> list Z.
Variable UndoBlock : Type.
Variable BuildUndoData : Forest -> Z -> list Z -> UndoBlock.
Variable fuel : nat.

(** X9: on every forest reached from the empty one by calls of [Modify]
    that return without error, [sanity] returns (it reads no slot out of
    range), and the only error it can return is the one about the size of
    the position map: the checks of the rows and of the roots pass. *)
Theorem sanity_after_Modify f :
  reachable parentHash condenseDeletions UndoBlock BuildUndoData fuel f ->
  sanity f
  = Ok (if numLeaves f <? Z.of_nat (base.size (positionMap f))
        then Some ErrPositionMap else None) f.
Proof.
  intros Hreach.
  destruct (reachable_Inv parentHash parentHash_nonempty _ _ _ _ f Hreach)
    as ((HR & HL & Hn) & H42 & Hpop).
  unfold sanity. rewrite get_bind, u64_shiftl1 by lia.
  destruct (Z.ltb_spec (2 ^ rows f) (numLeaves f)) as [|_]; [lia|].
  rewrite bind_unfold, checkRoots_ok.
  - destruct (_ <? _); reflexivity.
  - intros t Hin.
    destruct (roots_inForest (rows f) (numLeaves f) t HR Hn Hin) as [Ht Hf].
    now apply Hpop.
Qed.

(** Under the invariant of the engine [lonely] returns, and answers no:
    what is in the forest does not read EMPTY. *)
Lemma lonely_false f p :
  Inv f -> 0 <= p -> lonely p f = Ok false f.
Proof.
  intros ((HR & HL & Hn) & H42 & Hpop) Hp.
  unfold lonely. rewrite get_bind.
  destruct (inForest (Z.lxor (parent p (rows f)) 1) _ _) eqn:Ea;
    cbn [andb]; [|reflexivity].
  destruct (inForest (Z.lxor p 1) _ _) eqn:Es; [|reflexivity].
  assert (Ha0 : 0 <= Z.lxor (parent p (rows f)) 1).
  { apply Z.lxor_nonneg. split; intros _; [lia|].
    unfold parent. apply Z.lor_nonneg. split.
    - apply Z.shiftr_nonneg. lia.
    - unfold u64, wrapU. apply Z.mod_pos_bound. lia. }
  assert (Hs0 : 0 <= Z.lxor p 1) by (apply Z.lxor_nonneg; lia).
  destruct (Hpop _ Ha0 Ea) as (a & Hsa & Hna).
  destruct (Hpop _ Hs0 Es) as (s & Hss & Hns).
  rewrite bind_unfold, read_slot, Hsa.
  apply hash_eqb_false in Hna, Hns. rewrite Hna.
  rewrite bind_unfold, read_slot, Hss.
  change (Ok (hash_eqb s empty) f = Ok false f). now rewrite Hns.
Qed.

(** The main loop of [removev5] without its tests of [lonely]: for each
    condensed deletion the sibling is promoted and the position rises
    once; the dirt is the parent of the position it has risen to. *)
Definition removeStraight (dirt : list Z) (p : Z) : M (list Z) :=
  promote (Z.lxor p 1);;
  f ← get;
  let dirtpos := parent (parent p (rows f)) (rows f) in
  if bool_decide (last dirt = Some dirtpos) then mret dirt
  else mret (dirt ++ [dirtpos]).

Fixpoint removeEachStraight (dirt : list Z) (ps : list Z) : M (list Z) :=
  match ps with
  | [] => mret dirt
  | p :: ps' => dirt ← removeStraight dirt p; removeEachStraight dirt ps'
  end.

Definition removev5_straight (dels : list Z) : M unit :=
  forEach dels (fun d =>
    h ← read d;
    f ← get;
    setPositionMap (delete (Mini h) (positionMap f)));;
  f ← get;
  removeEachStraight [] (condenseDeletions dels (rows f));;
  f ← get;
  setNumLeaves (u64 (numLeaves f - Z.of_nat (length dels))).

Lemma removeOne_straight dirt p f :
  Inv f -> 0 <= p -> removeOne fuel dirt p f = removeStraight dirt p f.
Proof.
  intros HI Hp. unfold removeOne, removeStraight. rewrite !bind_unfold.
  pose proof (promote_post (Z.lxor p 1) f HI) as Hpost.
  destruct (promote (Z.lxor p 1) f) as [r f1| |]; [|reflexivity..].
  cbn [post] in Hpost. destruct Hpost as [HI1 _].
  pose proof (lonely_false f1 p HI1 Hp) as Hl.
  assert (Hp' : 0 <= parent p (rows f1)).
  { unfold parent. apply Z.lor_nonneg. split.
    - apply Z.shiftr_nonneg. lia.
    - unfold u64, wrapU. apply Z.mod_pos_bound. lia. }
  pose proof (lonely_false f1 _ HI1 Hp') as Hl'.
  assert (Hrise1 : riseOnce p f1 = Ok (parent p (rows f1)) f1).
  { unfold riseOnce. now rewrite bind_unfold, Hl, get_bind. }
  assert (Hrise : riseWhileLonely fuel (parent p (rows f1)) f1
                  = Ok (parent p (rows f1)) f1).
  { destruct fuel; cbn [riseWhileLonely]; now rewrite bind_unfold, Hl'. }
  rewrite ?bind_unfold, Hrise1, ?bind_unfold, Hrise, !get_bind. reflexivity.
Qed.

Lemma removeEach_straight ps :
  forall dirt f,
    Inv f -> Forall (fun p => 0 <= p) ps ->
    removeEach fuel dirt ps f = removeEachStraight dirt ps f.
Proof.
  induction ps as [|p ps IH]; intros dirt f HI Hps;
    cbn [removeEach removeEachStraight]; [reflexivity|].
  inversion Hps as [|? ? Hp Hps']; subst.
  rewrite !bind_unfold, <- (removeOne_straight dirt p f HI Hp).
  pose proof (removeOne_post fuel dirt p f HI) as Hpost.
  destruct (removeOne fuel dirt p f) as [dirt1 f1| |]; [|reflexivity..].
  cbn [post] in Hpost. apply IH; [exact (proj1 Hpost) | exact Hps'].
Qed.

(** X10: in a forest reached by calls of [Modify] that return without
    error, every position in the forest holds a hash that is not EMPTY
    (slots outside the forest may read EMPTY), so [lonely] answers no for
    every position; and it goes on answering no in every state that
    [removev5] passes through when it is run on such a forest.  There
    [removev5] always rises once after promoting the sibling and never
    enters its loop [for f.lonely(p)]: it does, whatever the fuel, what
    the routine without the two tests of [lonely] does. *)
Theorem lonely_never_after_Modify f dels :
  reachable parentHash condenseDeletions UndoBlock BuildUndoData fuel f ->
  Forall (fun p => 0 <= p) (condenseDeletions dels (rows f)) ->
  (forall q, 0 <= q -> inForest q (numLeaves f) (rows f) = true ->
     exists h, slot f q = Some h /\ h <> empty) /\
  (forall p, 0 <= p -> lonely p f = Ok false f) /\
  removev5 condenseDeletions fuel dels f = removev5_straight dels f.
Proof.
  intros Hreach Hps.
  pose proof (reachable_Inv parentHash parentHash_nonempty _ _ _ _ f Hreach)
    as HI.
  split; [exact (proj2 (proj2 HI))|].
  split; [intros p Hp; exact (lonely_false f p HI Hp)|].
  unfold removev5, removev5_straight. rewrite !bind_unfold.
  pose proof (forget_positions_post dels f) as Hpost.
  destruct (forEach dels _ f) as [[] f1| |]; [|reflexivity..].
  cbn [post] in Hpost. destruct Hpost as (Hn1 & Hr1 & Hd1).
  rewrite !get_bind, !bind_unfold.
  rewrite removeEach_straight; [reflexivity | |].
  - eapply Inv_same; eassumption.
  - rewrite Hr1. exact Hps.
Qed.

End Reached.

Lemma sanity_after_Modify_witness :
  sanity threeLeaves = Ok None threeLeaves.
Proof.
  exact (sanity_after_Modify toyHash toyHash_nonempty condenseDeletions_spec
           _ toyUndo 8 threeLeaves threeLeaves_reachable).
Defined.

Lemma lonely_never_after_Modify_witness :
  (forall q, 0 <= q -> inForest q (numLeaves threeLeaves) (rows threeLeaves)
                       = true ->
     exists h, slot threeLeaves q = Some h /\ h <> empty) /\
  (forall p, 0 <= p -> lonely p threeLeaves = Ok false threeLeaves) /\
  removev5 condenseDeletions_spec 8 [0] threeLeaves
  = removev5_straight condenseDeletions_spec [0] threeLeaves.
Proof.
  apply (lonely_never_after_Modify toyHash toyHash_nonempty
           condenseDeletions_spec _ toyUndo 8 threeLeaves [0]
           threeLeaves_reachable).
  vm_compute. repeat constructor; discriminate.
Defined.

(** *** reMap: what it refuses *)

(** X11: [reMap] only ever adds one row.  For every other number of rows
    it returns an error and leaves the forest as it is. *)
Theorem reMap_refuses f destRows :
  0 <= rows f < 256 -> 0 <= destRows < 256 ->
  destRows <> rows f + 1 ->
  exists e, reMap destRows f = Ok (Some e) f.
Proof.
  intros HR HD Hne. unfold reMap. rewrite get_bind.
  destruct (Z.eqb_spec destRows (rows f)); [eexists; reflexivity|].
  destruct (_ || _) eqn:Efar; [eexists; reflexivity|].
  destruct (Z.ltb_spec destRows (rows f)); [eexists; reflexivity|].
  exfalso. apply orb_false_iff in Efar as [E1 _].
  apply Z.ltb_ge in E1. unfold u8, wrapU in E1.
  destruct (Z.eq_dec (rows f) 255) as [E|E].
  - rewrite E in *. cbn in E1. lia.
  - rewrite Z.mod_small in E1 by (cbn; lia). lia.
Qed.

Lemma reMap_refuses_witness :
  exists e, reMap 2 emptyForest = Ok (Some e) emptyForest.
Proof.
  apply (reMap_refuses emptyForest 2); cbn; lia.
Defined.


(** *** removev5: what it leaves and what it forgets *)

Lemma testbit_ge x R : 0 <= R -> 0 <= x -> Z.testbit x R = true -> 2 ^ R <= x.
Proof.
  intros HR Hx Hb. destruct (Z_lt_le_dec x (2 ^ R)) as [Hlt|]; [|assumption].
  apply Z.testbit_true in Hb; [|exact HR].
  rewrite Z.div_small in Hb by lia. discriminate.
Qed.

(** A parent is never a position of the bottom row. *)
Lemma parent_above_leaves x R :
  0 <= R < 64 -> 0 <= parent x R -> 2 ^ R <= parent x R.
Proof.
  intros HR Hp. apply testbit_ge; [lia | exact Hp |].
  unfold parent. rewrite u64_shiftl1 by exact HR.
  rewrite Z.lor_spec, Z.pow2_bits_true by lia. apply orb_true_r.
Qed.

Lemma sameLeaves_refl f : sameLeaves f f.
Proof. repeat split. Qed.

Lemma sameLeaves_trans f g h :
  sameLeaves f g -> sameLeaves g h -> sameLeaves f h.
Proof.
  intros (Hr1 & Hn1 & Hp1 & Hl1 & Hs1) (Hr2 & Hn2 & Hp2 & Hl2 & Hs2).
  repeat split; try congruence.
  intros q Hq. rewrite Hs2 by (rewrite Hr1; exact Hq). now apply Hs1.
Qed.

Lemma promote_sameLeaves x f :
  0 <= rows f < 64 -> post (promote x f) (fun _ f' => sameLeaves f f').
Proof.
  intros HR. unfold promote. rewrite get_bind. apply post_bind.
  rewrite read_slot. destruct (slot f x) as [h|]; [|exact I].
  cbn [post]. apply post_bind.
  destruct (write (parent x (rows f)) h f) as [u f'| |] eqn:Hw; [|exact I..].
  apply write_inv in Hw as [Hr ->]. cbn [post].
  repeat split; cbn [data]; [apply length_insert|].
  intros q Hq. rewrite (slot_write _ _ f q Hr).
  destruct (Z.eq_dec q (parent x (rows f))) as [->|]; [|reflexivity].
  apply inRange_spec in Hr.
  pose proof (parent_above_leaves x (rows f) HR ltac:(lia)). lia.
Qed.

Lemma lonely_same p f : post (lonely p f) (fun _ f' => f' = f).
Proof.
  destruct (lonely p f) as [l f'| |] eqn:El; [|exact I..].
  cbn. now destruct (lonely_spec _ _ _ _ El).
Qed.

Lemma riseOnce_same p f : post (riseOnce p f) (fun _ f' => f' = f).
Proof.
  unfold riseOnce. apply post_bind.
  eapply post_mono; [apply lonely_same|].
  intros l f' ->. rewrite get_bind. destruct (negb l); reflexivity.
Qed.

Lemma riseWhileLonely_sameLeaves (k : nat) :
  forall p f,
    0 <= rows f < 64 ->
    post (riseWhileLonely k p f) (fun _ f' => sameLeaves f f').
Proof.
  induction k as [|k IH]; intros p f HR; cbn [riseWhileLonely];
    apply post_bind; (eapply post_mono; [apply lonely_same|]);
    intros l f' ->; destruct l; try exact I;
    try (cbn; apply sameLeaves_refl).
  rewrite get_bind. apply post_bind.
  rewrite read_slot.
  destruct (slot f (Z.lxor (parent p (rows f)) 1)) as [s|]; [|exact I].
  cbn [post]. apply post_bind.
  assert (Hstep : forall x,
            post (promote x f)
              (fun _ f1 =>
                 post (riseWhileLonely k (parent p (rows f)) f1)
                   (fun _ f' => sameLeaves f f'))).
  { intros x. eapply post_mono; [apply promote_sameLeaves; exact HR|].
    intros ? f1 Hs1. eapply post_mono.
    - apply IH. destruct Hs1 as (-> & _). exact HR.
    - intros ? f2 Hs2. cbn beta in *.
      exact (sameLeaves_trans _ _ _ Hs1 Hs2). }
  destruct (negb (hash_eqb s empty)); apply Hstep.
Qed.

Section Deleting.
Variable condenseDeletions : list Z -> Z -> list Z.
Variable fuel : nat.

Lemma removeOne_sameLeaves dirt p f :
  0 <= rows f < 64 ->
  post (removeOne fuel dirt p f) (fun _ f' => sameLeaves f f').
Proof.
  intros HR. unfold removeOne. apply post_bind.
  eapply post_mono; [apply promote_sameLeaves; exact HR|].
  intros ? f1 Hs1. apply post_bind.
  eapply post_mono; [apply riseOnce_same|].
  intros p1 f2 ->. apply post_bind.
  eapply post_mono.
  { apply riseWhileLonely_sameLeaves. destruct Hs1 as (-> & _). exact HR. }
  intros p2 f3 Hs3. cbn beta in *. rewrite get_bind.
  pose proof (sameLeaves_trans _ _ _ Hs1 Hs3) as Hs.
  destruct (bool_decide _); exact Hs.
Qed.

Lemma removeEach_sameLeaves ps :
  forall dirt f,
    0 <= rows f < 64 ->
    post (removeEach fuel dirt ps f) (fun _ f' => sameLeaves f f').
Proof.
  induction ps as [|p ps IH]; intros dirt f HR; cbn [removeEach].
  - cbn. apply sameLeaves_refl.
  - apply post_bind.
    eapply post_mono; [apply removeOne_sameLeaves; exact HR|].
    intros dirt1 f1 Hs1.
    eapply post_mono.
    + apply IH. destruct Hs1 as (-> & _). exact HR.
    + intros dirt2 f2 Hs2. cbn beta in *.
      exact (sameLeaves_trans _ _ _ Hs1 Hs2).
Qed.

(** The first loop of [removev5]: every deleted position is read; the
    MiniHash of what it holds leaves the map; no other key changes. *)
Lemma forget_positions_map dels :
  forall f,
    post (forEach dels (fun d =>
            h ← read d;
            f ← get;
            setPositionMap (delete (Mini h) (positionMap f))) f)
      (fun _ f' =>
         numLeaves f' = numLeaves f /\ rows f' = rows f /\
         data f' = data f /\
         (forall d, In d dels -> is_Some (slot f d)) /\
         (forall d h, In d dels -> slot f d = Some h ->
            positionMap f' !! Mini h = None) /\
         (forall key, positionMap f !! key = None ->
            positionMap f' !! key = None) /\
         (forall key,
            (forall d h, In d dels -> slot f d = Some h -> Mini h <> key) ->
            positionMap f' !! key = positionMap f !! key)).
Proof.
  induction dels as [|d dels IH]; intros f; cbn [forEach].
  - cbn. split; [reflexivity|]. split; [reflexivity|]. split; [reflexivity|].
    split; [intros d []|]. split; [intros d h []|]. auto.
  - apply post_bind. apply post_bind.
    rewrite read_slot. destruct (slot f d) as [h|] eqn:Hd; [|exact I].
    cbn [post]. rewrite get_bind. unfold setPositionMap. cbn [post].
    set (f1 := mkForest _ _ _ _).
    assert (Hs : forall q, slot f1 q = slot f q)
      by (intros q; now apply slot_same_data).
    eapply post_mono; [apply IH|].
    intros _ f' (Hn & Hr & Hdat & Hall & Hgone & Hnone & Hkeep).
    cbn [numLeaves rows data positionMap f1] in *.
    split; [exact Hn|]. split; [exact Hr|]. split; [exact Hdat|].
    split.
    { intros d' [<-|Hin]; [rewrite Hd; eauto|].
      rewrite <- Hs. now apply Hall. }
    split.
    { intros d' h' [<-|Hin] Hh'.
      - assert (h' = h) as -> by congruence.
        apply Hnone. apply lookup_delete_eq.
      - apply (Hgone d' h' Hin). now rewrite Hs. }
    split.
    { intros key Hk. apply Hnone.
      destruct (decide (Mini h = key)) as [<-|Hne];
        [apply lookup_delete_eq | now rewrite lookup_delete_ne]. }
    intros key Hk. rewrite Hkeep.
    + apply lookup_delete_ne. apply (Hk d h); [now left | exact Hd].
    + intros d' h' Hin Hh'. apply (Hk d' h'); [now right | now rewrite <- Hs].
Qed.

(** [removev5], on any forest. *)
Lemma removev5_effect dels f :
  0 <= rows f < 64 ->
  post (removev5 condenseDeletions fuel dels f)
    (fun _ f' =>
       rows f' = rows f /\ length (data f') = length (data f) /\
       numLeaves f' = u64 (numLeaves f - Z.of_nat (length dels)) /\
       (forall q, 0 <= q < 2 ^ rows f -> slot f' q = slot f q) /\
       (forall d, In d dels -> is_Some (slot f d)) /\
       (forall d h, In d dels -> slot f d = Some h ->
          positionMap f' !! Mini h = None) /\
       (forall key,
          (forall d h, In d dels -> slot f d = Some h -> Mini h <> key) ->
          positionMap f' !! key = positionMap f !! key)).
Proof.
  intros HR. unfold removev5. apply post_bind.
  eapply post_mono; [apply forget_positions_map|].
  intros _ f1 (Hn1 & Hr1 & Hd1 & Hall & Hgone & _ & Hkeep). rewrite get_bind.
  apply post_bind. eapply post_mono.
  { apply removeEach_sameLeaves. rewrite Hr1. exact HR. }
  intros dirt f2 (Hr2 & Hn2 & Hp2 & Hl2 & Hs2). rewrite get_bind.
  unfold setNumLeaves. cbn [post numLeaves rows data positionMap].
  split; [congruence|]. split; [rewrite Hl2, Hd1; reflexivity|].
  split; [congruence|].
  split.
  { intros q Hq.
    rewrite <- (slot_same_data f1 f q Hd1), <- Hs2 by (rewrite Hr1; exact Hq).
    apply slot_same_data. reflexivity. }
  split; [exact Hall|].
  split.
  { intros d h Hin Hh. rewrite Hp2. now apply (Hgone d h). }
  intros key Hk. rewrite Hp2. now apply Hkeep.
Qed.

(** X12: [removev5] writes no slot of the bottom row.  When it returns,
    the forest has the rows and the slots it had, [numLeaves] is counted
    down by the number of deletions, and every position of the bottom
    row, the deleted ones included, holds the hash it held. *)
Theorem removev5_keeps_leaf_hashes dels f f' :
  0 <= rows f < 64 ->
  removev5 condenseDeletions fuel dels f = Ok tt f' ->
  rows f' = rows f /\ length (data f') = length (data f) /\
  numLeaves f' = u64 (numLeaves f - Z.of_nat (length dels)) /\
  forall q, 0 <= q < 2 ^ rows f -> slot f' q = slot f q.
Proof.
  intros HR Hrun. pose proof (removev5_effect dels f HR) as Hp.
  rewrite Hrun in Hp. cbn in Hp. tauto.
Qed.

(** X13: [removev5] takes out of the position map the MiniHash of the hash
    at every deleted position, which it reads, and nothing else:
    afterwards [FindLeaf] does not find what was stored at a deleted
    position, and every other key is mapped as before. *)
Theorem removev5_forgets dels f f' :
  0 <= rows f < 64 ->
  removev5 condenseDeletions fuel dels f = Ok tt f' ->
  (forall d, In d dels ->
     exists h, slot f d = Some h /\ FindLeaf h f' = Ok false f') /\
  (forall key,
     (forall d h, In d dels -> slot f d = Some h -> Mini h <> key) ->
     positionMap f' !! key = positionMap f !! key).
Proof.
  intros HR Hrun. pose proof (removev5_effect dels f HR) as Hp.
  rewrite Hrun in Hp. cbn in Hp.
  destruct Hp as (_ & _ & _ & _ & Hall & Hgone & Hkeep).
  split; [|exact Hkeep].
  intros d Hin. destruct (Hall d Hin) as [h Hh]. exists h.
  split; [exact Hh|]. unfold FindLeaf. rewrite get_bind.
  rewrite (Hgone d h Hin Hh).
  rewrite bool_decide_eq_false_2; [reflexivity|].
  intros [? ?]; discriminate.
Qed.

End Deleting.

(** The deletion of leaf 0 of the forest of four leaves. *)
Lemma removev5_leaf0 :
  removev5 condenseDeletions_spec 8 [0] PersistProps.fourLeaves
  = Ok tt PersistProps.oneDeleted.
Proof. apply data_of_run. vm_compute. repeat split; reflexivity. Qed.

Lemma removev5_keeps_leaf_hashes_witness :
  slot PersistProps.oneDeleted 0 = slot PersistProps.fourLeaves 0.
Proof.
  apply (removev5_keeps_leaf_hashes condenseDeletions_spec 8 [0]
           PersistProps.fourLeaves PersistProps.oneDeleted).
  - cbn. lia.
  - exact removev5_leaf0.
  - cbn. lia.
Defined.

Lemma removev5_forgets_witness :
  exists h, slot PersistProps.fourLeaves 0 = Some h /\
    FindLeaf h PersistProps.oneDeleted = Ok false PersistProps.oneDeleted.
Proof.
  apply (removev5_forgets condenseDeletions_spec 8 [0]
           PersistProps.fourLeaves PersistProps.oneDeleted).
  - cbn. lia.
  - exact removev5_leaf0.
  - now left.
Defined.

(** *** Modify: the rows and the added leaves *)

Lemma post_and {A} (r : Res A) (Q Q' : A -> Forest -> Prop) :
  post r Q -> post r Q' -> post r (fun a f => Q a f /\ Q' a f).
Proof. destruct r; cbn; auto. Qed.

(** The loop of [Modify] that adds rows stops at the first row count that
    has room for the leaves. *)
Lemma remapLoop_rows (k : nat) delta :
  forall f,
    Inv f ->
    post (remapLoop k delta f)
      (fun _ f' =>
         rows f <= rows f' /\
         (rows f < rows f' ->
          2 ^ (rows f' - 1) < i64 (i64 (numLeaves f) + delta))).
Proof.
  induction k as [|k IH]; intros f HI;
    pose proof HI as ((HR & HL & Hn) & H42 & Hpop);
    cbn [remapLoop]; rewrite get_bind;
    (assert (H1 : i64 (Z.shiftl 1 (rows f)) = 2 ^ rows f);
     [ rewrite Z.shiftl_1_l; apply i64_small;
       pose proof (pow2_gt0 (rows f) ltac:(lia));
       assert (2 ^ rows f < 2 ^ 63) by (apply pow2_lt; lia); lia |]);
    rewrite H1;
    destruct (Z.ltb_spec (2 ^ rows f) (i64 (i64 (numLeaves f) + delta)))
      as [Hgrow|];
    try exact I;
    try (cbn; split; lia).
  assert (Hu8 : u8 (rows f + 1) = rows f + 1) by (apply wrapU_small; cbn; lia).
  rewrite Hu8. apply post_bind.
  eapply post_mono; [apply reMap_post; exact HI|].
  intros e f1 (-> & HI1 & Hr1 & Hn1).
  eapply post_mono; [apply IH; exact HI1|].
  intros e f2 (Hle & Hmin). cbn beta. rewrite Hn1, Hr1 in *.
  split; [lia|]. intros _.
  destruct (Z.eq_dec (rows f2) (rows f + 1)) as [E|E].
  - rewrite E. now replace (rows f + 1 - 1) with (rows f) by lia.
  - apply Hmin. lia.
Qed.

(** The last leaf of a list with a given MiniHash. *)
Lemma last_with_key (adds : list Leaf) key :
  Exists (fun b0 => Mini (leafHash b0) = key) adds ->
  exists (j : nat) b0,
    adds !! j = Some b0 /\ Mini (leafHash b0) = key /\
    forall (j' : nat) b1, (j < j')%nat -> adds !! j' = Some b1 ->
      Mini (leafHash b1) <> key.
Proof.
  induction adds as [|x adds IH]; intros Hex; [inversion Hex|].
  destruct (decide (Exists (fun b0 => Mini (leafHash b0) = key) adds))
    as [Htail|Hno].
  - destruct (IH Htail) as (j & b0 & Hj & Hk & Hlast).
    exists (S j), b0. split; [exact Hj|]. split; [exact Hk|].
    intros [|j'] b1 Hlt Hb1; [lia|]. apply (Hlast j' b1); [lia | exact Hb1].
  - assert (Hx : Mini (leafHash x) = key).
    { apply Exists_cons in Hex as [Hx|Hx]; [exact Hx | contradiction]. }
    exists 0%nat, x. split; [reflexivity|]. split; [exact Hx|].
    intros [|j'] b1 Hlt Hb1 E; [lia|]. apply Hno.
    apply Exists_exists. exists b1. split; [|exact E].
    eapply list_elem_of_lookup_2. exact Hb1.
Qed.

Section ModifyRuns.
Variable parentHash : Hash -> Hash -> Hash.
Hypothesis parentHash_nonempty : forall l r, parentHash l r <> empty.
Variable condenseDeletions : list Z -> Z -> list Z.
Variable UndoBlock : Type.
Variable BuildUndoData : Forest -> Z -> list Z -> UndoBlock.
Variable fuel : nat.

(** The steps of a [Modify] that returns without error. *)
Lemma Modify_inv adds dels f ub f' :
  Modify parentHash condenseDeletions UndoBlock BuildUndoData fuel
    adds dels f = Ok (ub, None) f' ->
  (i64 (i64 (numLeaves f)
        + i64 (i64 (Z.of_nat (length adds) - Z.of_nat (length dels)))) <? 0)
  = false /\
  existsb (fun a => hash_eqb (leafHash a) empty) adds = false /\
  exists f1 f2,
    remapLoop fuel
      (i64 (i64 (Z.of_nat (length adds) - Z.of_nat (length dels)))) f
    = Ok None f1 /\
    removev5 condenseDeletions fuel (sortUint64s dels) f1 = Ok tt f2 /\
    addv2 parentHash adds f2 = Ok tt f'.
Proof.
  unfold Modify. rewrite get_bind.
  destruct (_ <? 0); [discriminate|].
  destruct (existsb _ adds); [discriminate|].
  rewrite bind_unfold.
  destruct (remapLoop _ _ f) as [[e|] f1| |] eqn:E1; try discriminate.
  rewrite bind_unfold.
  destruct (removev5 _ _ _ f1) as [[] f2| |] eqn:E2; try discriminate.
  rewrite get_bind, bind_unfold.
  destruct (addv2 _ adds f2) as [[] f3| |] eqn:Ea; try discriminate.
  intros [= _ <-]. split; [reflexivity|]. split; [reflexivity|].
  exists f1, f2. auto.
Qed.

(** The same under the invariant, with what is known of the forest after
    each step. *)
Lemma Modify_run adds dels f ub f' :
  Inv f -> goSlice adds -> goSlice dels ->
  Modify parentHash condenseDeletions UndoBlock BuildUndoData fuel
    adds dels f = Ok (ub, None) f' ->
  exists f2,
    rows f <= rows f2 /\
    (rows f < rows f2 ->
     2 ^ (rows f2 - 1)
     < numLeaves f + Z.of_nat (length adds) - Z.of_nat (length dels)) /\
    rows f' = rows f2 /\
    addv2 parentHash adds f2 = Ok tt f' /\
    (adds <> [] ->
     shaped f2 /\
     numLeaves f2 + Z.of_nat (length adds) <= 2 ^ rows f2).
Proof.
  intros HI Ha Hd Hrun.
  pose proof HI as ((HR & HL & Hn) & H42 & Hpop).
  destruct (Modify_inv _ _ _ _ _ Hrun) as (Hchk & Hne & f1 & f2 & H1 & H2 & H3).
  unfold goSlice in *.
  set (a := Z.of_nat (length adds)) in *.
  set (d := Z.of_nat (length dels)) in *.
  assert (Ha0 : 0 <= a) by (subst a; lia).
  assert (Hd0 : 0 <= d) by (subst d; lia).
  assert (Hp : 2 ^ rows f <= 2 ^ 42) by (apply pow2_le; lia).
  rewrite (i64_small (a - d)) in * by lia.
  rewrite (i64_small (a - d)) in * by lia.
  rewrite (i64_small (numLeaves f)) in Hchk by lia.
  apply Z.ltb_ge in Hchk.
  assert (Hsum : 0 <= numLeaves f + (a - d) < 2 ^ 63).
  { destruct (Z_lt_le_dec (numLeaves f + (a - d)) (2 ^ 63)) as [Hlt|Hbig].
    - rewrite i64_small in Hchk by lia. lia.
    - exfalso. unfold i64, wrapS in Hchk.
      change (2 ^ (64 - 1)) with (2 ^ 63) in Hchk.
      replace (numLeaves f + (a - d) + 2 ^ 63)
        with ((numLeaves f + (a - d) - 2 ^ 63) + 1 * 2 ^ 64) in Hchk
        by (change (2 ^ 64) with (2 * 2 ^ 63); lia).
      rewrite Z.mod_add in Hchk by lia.
      rewrite Z.mod_small in Hchk
        by (change (2 ^ 64) with (2 * 2 ^ 63); lia).
      lia. }
  pose proof (post_and _ _ _ (remapLoop_post fuel (a - d) f HI)
                (remapLoop_rows fuel (a - d) f HI)) as Hloop.
  rewrite H1 in Hloop. cbn [post] in Hloop.
  destruct Hloop as ((_ & HI1 & Hn1 & Hle) & Hrows & Hmin).
  rewrite (i64_small (numLeaves f)) in Hle, Hmin by lia.
  rewrite i64_small in Hle, Hmin by lia.
  pose proof HI1 as ((HR1 & HL1 & Hnn1) & H421 & Hpop1).
  pose proof (removev5_post condenseDeletions fuel (sortUint64s dels) f1 HI1)
    as Hrem.
  rewrite H2 in Hrem. cbn [post] in Hrem.
  destruct Hrem as (Hr2 & Hl2 & Hn2 & Hpop2).
  rewrite sortUint64s_length in Hn2. fold d in Hn2. rewrite Hn1 in Hn2.
  assert (Hp1 : 2 ^ rows f1 <= 2 ^ 42) by (apply pow2_le; lia).
  exists f2. rewrite Hr2.
  split; [exact Hrows|].
  split; [intros Hlt; specialize (Hmin Hlt); lia|].
  destruct (Z_le_gt_dec d (numLeaves f)) as [Hfew|Hmany].
  - rewrite u64_small in Hn2
      by (change (2 ^ 64) with (2 * 2 ^ 63); lia).
    assert (HI2 : Inv f2).
    { unfold Inv, shaped, populated. rewrite Hr2, Hn2, Hl2.
      split; [repeat split; lia|]. split; [lia|].
      intros q Hq Hin. apply Hpop2; [exact Hq|].
      rewrite Hn1. eapply inForest_mono; [| | | | exact Hin]; lia. }
    destruct (addv2_Inv parentHash parentHash_nonempty adds f2 HI2)
      as (f3 & Hrun3 & HI3 & Hn3 & Hr3).
    { rewrite Hn2, Hr2. fold a. lia. }
    { now apply no_empty_leaf. }
    assert (f3 = f') as -> by congruence.
    split; [congruence|]. split; [exact H3|].
    intros _. split; [apply HI2|]. rewrite Hn2. fold a. lia.
  - destruct adds as [|x adds].
    + cbn in H3. injection H3 as <-.
      split; [exact Hr2|]. split; [reflexivity|]. intros E. now destruct E.
    + exfalso.
      assert (Hwrap : u64 (numLeaves f - d) = 2 ^ 64 + (numLeaves f - d)).
      { unfold u64, wrapU.
        replace (numLeaves f - d)
          with ((2 ^ 64 + (numLeaves f - d)) + (-1) * 2 ^ 64) at 1 by lia.
        rewrite Z.mod_add by lia. apply Z.mod_small.
        change (2 ^ 64) with (2 * 2 ^ 63). lia. }
      rewrite addv2_out_of_range in H3; [discriminate|].
      apply not_true_is_false. intros Hin. apply inRange_spec in Hin.
      rewrite Hn2, Hwrap, Hl2, HL1 in Hin.
      rewrite pow2_succ in Hin by lia.
      change (2 ^ 64) with (2 * 2 ^ 63) in Hin.
      change (2 ^ 63) with (2 ^ 21 * 2 ^ 42) in *. lia.
Qed.

(** X14: [Modify] remaps on the way up but not on the way down.  After a
    [Modify] that returns without error, on a forest reached by such
    calls, [numLeaves] has grown by the additions and shrunk by the
    deletions, the rows have not gone down, they are as before when the
    leaves still fit, and otherwise one less would not hold the leaves;
    the backend has the [(2 << rows) - 1] slots of its rows. *)
Theorem Modify_grows_only f adds dels ub f' :
  reachable parentHash condenseDeletions UndoBlock BuildUndoData fuel f ->
  goSlice adds -> goSlice dels ->
  Modify parentHash condenseDeletions UndoBlock BuildUndoData fuel
    adds dels f = Ok (ub, None) f' ->
  numLeaves f'
  = numLeaves f + Z.of_nat (length adds) - Z.of_nat (length dels) /\
  rows f <= rows f' /\
  (numLeaves f' <= 2 ^ rows f -> rows f' = rows f) /\
  (rows f < rows f' -> 2 ^ (rows f' - 1) < numLeaves f') /\
  Z.of_nat (length (data f')) = 2 ^ (rows f' + 1) - 1.
Proof.
  intros Hreach Ha Hd Hrun.
  pose proof (reachable_Inv parentHash parentHash_nonempty _ _ _ _ f Hreach)
    as HI.
  pose proof (Modify_post parentHash parentHash_nonempty condenseDeletions
                UndoBlock BuildUndoData fuel adds dels f HI Ha Hd) as Hp.
  rewrite Hrun in Hp. destruct (Hp eq_refl) as (((HR' & HL' & _) & _) & Hn').
  destruct (Modify_run _ _ _ _ _ HI Ha Hd Hrun)
    as (f2 & Hle & Hmin & Hr' & _).
  rewrite Hr', Hn'. destruct HI as ((HR & _) & _).
  split; [reflexivity|]. split; [exact Hle|].
  split; [|split; [exact Hmin | rewrite <- Hr'; exact HL']].
  intros Hfit. destruct (Z_le_gt_dec (rows f2) (rows f)); [lia|].
  specialize (Hmin ltac:(lia)).
  assert (2 ^ rows f <= 2 ^ (rows f2 - 1)) by (apply pow2_le; lia).
  lia.
Qed.

(** X15: every leaf that a [Modify] returning without error has added is
    found afterwards: [FindLeaf] answers yes for its hash, and the
    position map leads to a position that holds a hash with the same
    MiniHash (the leaf's own, or that of a later leaf of the same call
    with the same MiniHash). *)
Theorem Modify_finds_added f adds dels ub f' a :
  reachable parentHash condenseDeletions UndoBlock BuildUndoData fuel f ->
  goSlice adds -> goSlice dels ->
  Modify parentHash condenseDeletions UndoBlock BuildUndoData fuel
    adds dels f = Ok (ub, None) f' ->
  In a adds ->
  FindLeaf (leafHash a) f' = Ok true f' /\
  exists p h,
    positionMap f' !! Mini (leafHash a) = Some p /\
    slot f' p = Some h /\ Mini h = Mini (leafHash a).
Proof.
  intros Hreach Ha Hd Hrun Hin.
  pose proof (reachable_Inv parentHash parentHash_nonempty _ _ _ _ f Hreach)
    as HI.
  destruct (Modify_run _ _ _ _ _ HI Ha Hd Hrun)
    as (f2 & _ & _ & _ & Hadd & Hshape).
  destruct Hshape as [Hsh Hroom]; [intros ->; destruct Hin|].
  destruct (addv2_total parentHash adds f2 Hsh Hroom)
    as (f3 & Hrun3 & _ & _ & _ & Hpm & Hleaves & _).
  assert (f3 = f') as -> by congruence.
  destruct (last_with_key adds (Mini (leafHash a)))
    as (j & b0 & Hj & Hk & Hlast).
  { apply Exists_exists. exists a. split; [now apply list_elem_of_In | reflexivity]. }
  assert (Hlook : positionMap f' !! Mini (leafHash a)
                  = Some (numLeaves f2 + Z.of_nat j)).
  { rewrite Hpm, <- Hk. apply addPositions_last; [exact Hj|].
    intros j' b1 Hlt Hb1. rewrite Hk. now apply (Hlast j' b1). }
  split.
  - unfold FindLeaf. rewrite get_bind, Hlook.
    rewrite bool_decide_eq_true_2 by eauto. reflexivity.
  - exists (numLeaves f2 + Z.of_nat j), (leafHash b0).
    split; [exact Hlook|]. split; [now apply Hleaves | exact Hk].
Qed.

End ModifyRuns.

Lemma Modify_grows_only_witness :
  numLeaves threeLeaves = 0 + 3 - 0 /\ rows emptyForest <= rows threeLeaves.
Proof.
  destruct (Modify_grows_only toyHash toyHash_nonempty condenseDeletions_spec
              _ toyUndo 8 emptyForest [leafOf 1; leafOf 2; leafOf 3] []
              (Some (3, [], [])) threeLeaves) as (Hn & Hr & _).
  - apply reach_new. reflexivity.
  - unfold goSlice. cbn. lia.
  - unfold goSlice. cbn. lia.
  - exact (proj1 withEmptyLeaf_reached).
  - split; [exact Hn | exact Hr].
Defined.

Lemma Modify_finds_added_witness :
  FindLeaf (hashOf 2) threeLeaves = Ok true threeLeaves.
Proof.
  apply (Modify_finds_added toyHash toyHash_nonempty condenseDeletions_spec
           _ toyUndo 8 emptyForest [leafOf 1; leafOf 2; leafOf 3] []
           (Some (3, [], [])) threeLeaves (leafOf 2)).
  - apply reach_new. reflexivity.
  - unfold goSlice. cbn. lia.
  - unfold goSlice. cbn. lia.
  - exact (proj1 withEmptyLeaf_reached).
  - right. left. reflexivity.
Defined.

(** *** reMap: the forest in its new numbering *)

(** What position [i] of row [k] holds after [reMap] to one more row:
    the hash it held in the old numbering; the new half of each row, and
    the new top, are EMPTY. *)
Definition renumbered (f : Forest) (k i : Z) : option Hash :=
  if i <? 2 ^ (rows f - k) then slot f (rowStart (rows f) k + i)
  else Some empty.

(** Where [reMap] stands when the rows below [h] are copied and [x]
    positions of row [h]. *)
Definition copied (f0 : Forest) (R h x : Z) (g : Forest) : Prop :=
  numLeaves g = numLeaves f0 /\ rows g = R /\
  positionMap g = positionMap f0 /\
  Z.of_nat (length (data g)) = 2 ^ (R + 2) - 1 /\
  (forall q, 0 <= q < 2 ^ (R + 1) - 1 -> slot g q = slot f0 q) /\
  slot g (2 ^ (R + 1) - 1) = Some empty /\
  (forall k i, 1 <= k <= R + 1 -> 0 <= i < 2 ^ (R + 1 - k) ->
     slot g (rowStart (R + 1) k + i)
     = if ((k <? h) || ((k =? h) && (i <? x))) && (i <? 2 ^ (R - k))
       then slot f0 (rowStart R k + i) else Some empty).

(** A loop over [lo .. lo + n - 1] that returns, with an invariant
    indexed by the counter. *)
Lemma forEach_seqZ_total (P : Z -> Forest -> Prop) (body : Z -> M unit)
    (n : nat) :
  forall lo f,
    P lo f ->
    (forall x g, lo <= x < lo + Z.of_nat n -> P x g ->
       exists g', body x g = Ok tt g' /\ P (x + 1) g') ->
    exists f',
      forEach (seqZ lo (Z.of_nat n)) body f = Ok tt f' /\
      P (lo + Z.of_nat n) f'.
Proof.
  induction n as [|n IH]; intros lo f HP Hstep.
  - exists f. cbn. now rewrite Z.add_0_r.
  - rewrite seqZ_cons by lia. cbn [forEach].
    destruct (Hstep lo f ltac:(lia) HP) as (g & Hg & HPg).
    rewrite bind_unfold, Hg.
    replace (Z.pred (Z.of_nat (S n))) with (Z.of_nat n) by lia.
    destruct (IH (Z.succ lo) g HPg) as (f' & Hf' & HPf').
    { intros x g' Hx. apply Hstep. lia. }
    exists f'. split; [exact Hf'|].
    now replace (lo + Z.of_nat (S n)) with (Z.succ lo + Z.of_nat n) by lia.
Qed.

Lemma rowStart_mono R k k' :
  0 <= k <= k' -> k' <= R + 1 -> rowStart R k <= rowStart R k'.
Proof.
  intros Hk Hk'. unfold rowStart.
  assert (2 ^ (R + 1 - k') <= 2 ^ (R + 1 - k)) by (apply pow2_le; lia).
  lia.
Qed.

(** A position lies in one row only. *)
Lemma coords_unique R k i k' i' :
  0 <= k <= R -> 0 <= i < 2 ^ (R - k) ->
  0 <= k' <= R -> 0 <= i' < 2 ^ (R - k') ->
  rowStart R k + i = rowStart R k' + i' -> k = k' /\ i = i'.
Proof.
  intros Hk Hi Hk' Hi' E.
  assert (G : forall a b x y, 0 <= a <= R -> 0 <= x < 2 ^ (R - a) ->
            0 <= b <= R -> 0 <= y ->
            a < b -> rowStart R a + x < rowStart R b + y).
  { intros a b0 x y Ha Hx Hb Hy Hlt.
    pose proof (rowStart_succ R a ltac:(lia)).
    pose proof (rowStart_mono R (a + 1) b0 ltac:(lia) ltac:(lia)). lia. }
  destruct (Z_dec k k') as [[Hlt|Hgt]|Heq].
  - pose proof (G k k' i i' Hk Hi Hk' ltac:(lia) Hlt). lia.
  - pose proof (G k' k i' i Hk' Hi' Hk ltac:(lia) ltac:(lia)). lia.
  - subst k'. split; [reflexivity | lia].
Qed.

Lemma copied_next_row f0 R h g :
  1 <= h <= R -> copied f0 R h (2 ^ (R - h)) g -> copied f0 R (h + 1) 0 g.
Proof.
  intros Hh (Hn & Hr & Hpm & Hl & Hold & Htop & Hrows).
  repeat (split; [assumption|]).
  intros k i Hk Hi. rewrite (Hrows k i Hk Hi).
  destruct (Z.ltb_spec k h), (Z.ltb_spec k (h + 1)), (Z.eqb_spec k h),
    (Z.eqb_spec k (h + 1)); try lia; cbn [orb andb]; try reflexivity.
  - subst k. destruct (Z.ltb_spec i (2 ^ (R - h))); reflexivity.
  - destruct (Z.ltb_spec i 0); [lia | reflexivity].
Qed.

(** The loop over the rows of [reMap], from row [h] on: it returns, with
    every row copied. *)
Lemma remapRows_total f0 R (k : nat) :
  0 <= R <= 41 ->
  forall h g,
    1 <= h -> h + Z.of_nat k = R + 1 ->
    copied f0 R h 0 g ->
    exists g',
      remapRows k (rowStart (R + 1) h) (2 ^ (R + 1 - h)) g = Ok tt g' /\
      copied f0 R (R + 1) 0 g'.
Proof.
  intros HR. induction k as [|k IH]; intros h g Hh Hk Hcp.
  - exists g. cbn. replace (R + 1) with h by lia. auto.
  - cbn [remapRows].
    assert (Hrun : Z.shiftr (2 ^ (R + 1 - h)) 1 = 2 ^ (R - h)).
    { rewrite Z.shiftr_div_pow2 by lia. change (2 ^ 1) with 2.
      replace (R + 1 - h) with ((R - h) + 1) by lia.
      rewrite pow2_succ by lia. rewrite Z.mul_comm. apply Z.div_mul. lia. }
    rewrite Hrun.
    pose proof (pow2_gt0 (R - h) ltac:(lia)) as Hp.
    assert (H64 : 2 ^ (R + 2) <= 2 ^ 63) by (apply pow2_le; lia).
    assert (H64' : 2 ^ (R + 1) < 2 ^ (R + 2)) by (apply pow2_lt; lia).
    assert (E64 : 2 ^ 64 = 2 * 2 ^ 63) by reflexivity.
    destruct (forEach_seqZ_total (copied f0 R h)
                (fun x =>
                   let srcPos := u64 (Z.shiftr (rowStart (R + 1) h) 1 + x) in
                   sz ← size;
                   ok ← (if srcPos <? sz
                         then h0 ← read srcPos;
                              mret (negb (hash_eqb h0 empty))
                         else mret false);
                   src ← read srcPos;
                   if (ok : bool)
                   then write (u64 (rowStart (R + 1) h + x)) src
                   else mret tt)
                (Z.to_nat (2 ^ (R - h))) 0 g Hcp) as (g1 & Hg1 & Hcp1).
    { intros x g0 Hx Hc0. rewrite Z2Nat.id in Hx by lia.
      pose proof Hc0 as (Hn0 & Hr0 & Hpm0 & Hl0 & Hold0 & Htop0 & Hrows0).
      cbv zeta. rewrite rowStart_half by lia.
      pose proof (coords_in_tree R h x ltac:(lia) ltac:(lia)) as Hsrc.
      rewrite (u64_small (rowStart R h + x)) by lia.
      rewrite bind_unfold. unfold size at 1. rewrite Hl0.
      assert (Hlt : (rowStart R h + x <? 2 ^ (R + 2) - 1) = true) by lia.
      rewrite Hlt.
      destruct (slot_Some (rowStart R h + x) g0) as [v Hv].
      { apply inRange_spec. lia. }
      rewrite !bind_unfold, read_slot, Hv.
      change ((mret (negb (hash_eqb v empty)) : M bool) g0)
        with (Ok (negb (hash_eqb v empty)) g0).
      cbv iota beta. rewrite bind_unfold, read_slot, Hv. cbv iota beta.
      pose proof (coords_in_tree (R + 1) h x ltac:(lia)) as Hdst.
      assert (2 ^ (R - h) < 2 ^ (R + 1 - h)) by (apply pow2_lt; lia).
      specialize (Hdst ltac:(lia)).
      replace (R + 1 + 1) with (R + 2) in Hdst by lia.
      rewrite (u64_small (rowStart (R + 1) h + x)) by lia.
      assert (Hsv : slot f0 (rowStart R h + x) = Some v).
      { rewrite <- Hold0 by lia. exact Hv. }
      pose proof (rowStart_inner (R + 1) h ltac:(lia) ltac:(lia)) as Hge.
      destruct (hash_eqb v empty) eqn:Ev; cbn [negb].
      - (* the source is EMPTY: nothing is written *)
        apply hash_eqb_true in Ev. subst v.
        exists g0. split; [reflexivity|].
        repeat (split; [assumption|]).
        intros k0 i Hk0 Hi. rewrite (Hrows0 k0 i Hk0 Hi).
        destruct (Z.ltb_spec k0 h); cbn [orb]; [reflexivity|].
        destruct (Z.eqb_spec k0 h) as [->|]; cbn [andb]; [|reflexivity].
        destruct (Z.ltb_spec i x), (Z.ltb_spec i (x + 1)); try lia;
          cbn [andb]; try reflexivity.
        assert (i = x) as -> by lia.
        destruct (Z.ltb_spec x (2 ^ (R - h))); [|lia]. now rewrite Hsv.
      - (* the source goes to its new place *)
        assert (Hin : inRange (rowStart (R + 1) h + x) (data g0) = true)
          by (apply inRange_spec; lia).
        rewrite write_Ok by exact Hin.
        eexists. split; [reflexivity|].
        unfold copied. cbn [numLeaves rows positionMap data].
        rewrite length_insert.
        split; [exact Hn0|]. split; [exact Hr0|]. split; [exact Hpm0|].
        split; [exact Hl0|].
        split.
        { intros q Hq. rewrite (slot_write _ _ g0 q Hin).
          destruct (Z.eq_dec q _); [lia | now apply Hold0]. }
        split.
        { rewrite (slot_write _ _ g0 _ Hin).
          destruct (Z.eq_dec _ _); [lia | exact Htop0]. }
        intros k0 i Hk0 Hi. rewrite (slot_write _ _ g0 _ Hin).
        destruct (Z.eq_dec (rowStart (R + 1) k0 + i)
                    (rowStart (R + 1) h + x)) as [E|E].
        + destruct (coords_unique (R + 1) k0 i h x) as [-> ->];
            try lia; try exact E.
          destruct (Z.ltb_spec h h); [lia|]. rewrite Z.eqb_refl.
          destruct (Z.ltb_spec x (x + 1)); [|lia].
          destruct (Z.ltb_spec x (2 ^ (R - h))); [|lia].
          cbn [orb andb]. now rewrite Hsv.
        + rewrite (Hrows0 k0 i Hk0 Hi).
          destruct (Z.ltb_spec k0 h); cbn [orb]; [reflexivity|].
          destruct (Z.eqb_spec k0 h) as [->|]; cbn [andb]; [|reflexivity].
          destruct (Z.ltb_spec i x), (Z.ltb_spec i (x + 1)); try lia;
            cbn [andb]; reflexivity. }
    rewrite Z2Nat.id in Hg1 by lia. cbv zeta in Hg1.
    rewrite bind_unfold, Hg1.
    rewrite Z2Nat.id, Z.add_0_l in Hcp1 by lia.
    apply copied_next_row in Hcp1; [|lia].
    assert (Hpos : u64 (rowStart (R + 1) h + 2 ^ (R + 1 - h))
                   = rowStart (R + 1) (h + 1)).
    { rewrite rowStart_succ by lia.
      apply u64_small.
      pose proof (coords_in_tree (R + 1) h 0 ltac:(lia)
                    ltac:(pose proof (pow2_gt0 (R + 1 - h)); lia)).
      assert (2 ^ (R + 1 - h) <= 2 ^ (R + 1)) by (apply pow2_le; lia).
      rewrite (pow2_succ (R + 1)) in * by lia.
      replace (R + 2) with (R + 1 + 1) in * by lia.
      rewrite (pow2_succ (R + 1)) in * by lia. lia. }
    rewrite Hpos.
    replace (R - h) with (R + 1 - (h + 1)) by lia.
    apply IH; [lia | lia | exact Hcp1].
Qed.

(** X16: [reMap] to one more row returns, for a forest of at most 41 rows
    (more would not fit in memory), and renumbers the forest: position
    [i] of row [k] in the new numbering holds what position [i] of row
    [k] held in the old one, the new right half of every row and the new
    top are EMPTY, and [numLeaves] and the position map are as they
    were. *)
Theorem reMap_renumbers f :
  shaped f -> rows f <= 41 ->
  exists f',
    reMap (rows f + 1) f = Ok None f' /\
    rows f' = rows f + 1 /\ numLeaves f' = numLeaves f /\
    positionMap f' = positionMap f /\
    Z.of_nat (length (data f')) = 2 ^ (rows f + 2) - 1 /\
    forall k i, 0 <= k <= rows f + 1 -> 0 <= i < 2 ^ (rows f + 1 - k) ->
      slot f' (rowStart (rows f + 1) k + i) = renumbered f k i.
Proof.
  intros (HR & HL & Hn) H41.
  unfold renumbered. set (R := rows f) in *.
  unfold reMap. rewrite get_bind. fold R.
  destruct (Z.eqb_spec (R + 1) R) as [|_]; [lia|].
  assert (Hu8 : u8 (R + 1) = R + 1) by (apply wrapU_small; cbn; lia).
  rewrite Hu8.
  assert (Hfar : (R + 1 <? R + 1) || (0 <? R) && (R + 1 <? u8 (R - 1))
                 = false).
  { destruct (Z.eq_dec R 0) as [->|]; [reflexivity|].
    assert (u8 (R - 1) = R - 1) as -> by (apply wrapU_small; cbn; lia).
    lia. }
  rewrite Hfar.
  destruct (Z.ltb_spec (R + 1) R) as [|_]; [lia|].
  assert (Hp44 : 2 ^ (R + 2) <= 2 ^ 43) by (apply pow2_le; lia).
  pose proof (pow2_gt0 R ltac:(lia)) as HpR.
  assert (Hp1 : 2 ^ (R + 1) = 2 * 2 ^ R) by (apply pow2_succ; lia).
  assert (Hp2 : 2 ^ (R + 2) = 4 * 2 ^ R).
  { replace (R + 2) with ((R + 1) + 1) by lia.
    rewrite pow2_succ, Hp1 by lia. lia. }
  assert (H64 : 2 ^ 64 = 2 ^ 21 * 2 ^ 43) by reflexivity.
  assert (Hsz : u64 (u64 (Z.shiftl 2 (R + 1)) - 1) = 2 ^ (R + 2) - 1).
  { rewrite Z.shiftl_mul_pow2 by lia. rewrite <- pow2_succ by lia.
    replace (R + 1 + 1) with (R + 2) by lia.
    rewrite (u64_small (2 ^ (R + 2))) by lia.
    apply u64_small. lia. }
  rewrite Hsz, bind_unfold.
  unfold resize. rewrite HL, Hp1.
  replace (2 ^ (R + 2) - 1 - (2 * 2 ^ R - 1)) with (2 * 2 ^ R) by lia.
  rewrite (u64_small (2 * 2 ^ R)) by lia.
  rewrite maxSlots_value.
  assert (Efit : (2 * 2 ^ R <=? 2 ^ 43) && (2 * 2 ^ R - 1 + 2 * 2 ^ R <=? 2 ^ 43)
                 = true) by lia.
  rewrite Efit. fold R.
  set (f1 := mkForest _ _ _ _).
  assert (Hlen1 : Z.of_nat (length (data f1)) = 2 ^ (R + 2) - 1).
  { subst f1. cbn [data].
    rewrite length_app, length_replicate, Nat2Z.inj_add, HL.
    rewrite Z2Nat.id by lia. lia. }
  assert (Hnew1 : forall q, 2 ^ (R + 1) - 1 <= q < 2 ^ (R + 2) - 1 ->
            slot f1 q = Some empty).
  { intros q Hq. unfold slot.
    assert (inRange q (data f1) = true) as -> by (apply inRange_spec; lia).
    subst f1. cbn [data].
    rewrite lookup_app_r by lia.
    apply lookup_replicate_2. lia. }
  assert (Hcp1 : copied f R 1 0 f1).
  { unfold copied. split; [reflexivity|]. split; [reflexivity|].
    split; [reflexivity|]. split; [exact Hlen1|].
    split; [intros q Hq; apply slot_app_old; lia|].
    split; [apply Hnew1; lia|].
    intros k i Hk Hi.
    destruct (Z.ltb_spec k 1); [lia|]. cbn [orb].
    replace ((k =? 1) && (i <? 0)) with false
      by (destruct (Z.ltb_spec i 0); [lia | now rewrite andb_false_r]).
    cbn [andb]. apply Hnew1.
    pose proof (coords_in_tree (R + 1) k i ltac:(lia) Hi).
    pose proof (rowStart_inner (R + 1) k ltac:(lia)) as Hin.
    replace (R + 1 + 1) with (R + 2) in * by lia.
    specialize (Hin ltac:(lia)). lia. }
  assert (Hpos : u64 (Z.shiftl 1 (R + 1)) = 2 ^ (R + 1)).
  { apply u64_shiftl1. lia. }
  rewrite Hpos.
  assert (Hreach : Z.shiftr (2 ^ (R + 1)) 1 = 2 ^ R).
  { rewrite Z.shiftr_div_pow2 by lia. change (2 ^ 1) with 2.
    rewrite Hp1, Z.mul_comm. apply Z.div_mul. lia. }
  rewrite Hreach, bind_unfold.
  destruct (remapRows_total f R (Z.to_nat R) ltac:(lia) 1 f1)
    as (f2 & Hrun2 & Hn2 & Hr2 & Hpm2 & Hl2 & Hold2 & Htop2 & Hrows2);
    [lia | lia | exact Hcp1 |].
  assert (Hrs : rowStart (R + 1) 1 = 2 ^ (R + 1)).
  { unfold rowStart. replace (R + 1 + 1 - 1) with (R + 1) by lia.
    rewrite (pow2_succ (R + 1)) by lia. lia. }
  rewrite Hrs in Hrun2.
  replace (R + 1 - 1) with R in * by lia.
  rewrite Hrun2.
  (* zeroing the new half of the bottom row *)
  rewrite (u64_shiftl1 R) by lia. rewrite bind_unfold.
  destruct (forEach_seqZ_total
              (fun x g =>
                 numLeaves g = numLeaves f2 /\ rows g = rows f2 /\
                 positionMap g = positionMap f2 /\
                 length (data g) = length (data f2) /\
                 forall q, slot g q
                   = if (2 ^ R <=? q) && (q <? x) then Some empty
                     else slot f2 q)
              (fun x => write x empty) (Z.to_nat (2 ^ R)) (2 ^ R) f2)
    as (f3 & Hrun3 & Hn3 & Hr3 & Hpm3 & Hl3 & Hs3).
  { repeat split. intros q.
    destruct (Z.leb_spec (2 ^ R) q), (Z.ltb_spec q (2 ^ R)); try lia;
      reflexivity. }
  { intros x g Hx (Hng & Hrg & Hpg & Hlg & Hsg).
    rewrite Z2Nat.id in Hx by lia.
    assert (Hin : inRange x (data g) = true).
    { apply inRange_spec. rewrite Hlg. lia. }
    rewrite write_Ok by exact Hin. eexists. split; [reflexivity|].
    cbn [numLeaves rows positionMap data]. rewrite length_insert.
    repeat (split; [assumption|]).
    intros q. rewrite (slot_write _ _ g q Hin), Hsg.
    destruct (Z.eq_dec q x) as [E|E].
    - subst q.
      destruct (Z.leb_spec (2 ^ R) x), (Z.ltb_spec x (x + 1)); try lia.
      reflexivity.
    - destruct (Z.leb_spec (2 ^ R) q), (Z.ltb_spec q x),
        (Z.ltb_spec q (x + 1)); try lia; reflexivity. }
  replace (2 ^ (R + 1) - 2 ^ R) with (Z.of_nat (Z.to_nat (2 ^ R))) by lia.
  rewrite Hrun3. rewrite Z2Nat.id in Hs3 by lia.
  rewrite bind_unfold. unfold setRows.
  change ((mret None : M (option error))
            (mkForest (numLeaves f3) (R + 1) (data f3) (positionMap f3)))
    with (Ok (@None error)
            (mkForest (numLeaves f3) (R + 1) (data f3) (positionMap f3))).
  cbv iota beta.
  eexists. split; [reflexivity|]. cbn [rows numLeaves positionMap data].
  split; [reflexivity|]. split; [congruence|]. split; [congruence|].
  split; [rewrite Hl3; exact Hl2|].
  intros k i Hk Hi.
  assert (Hsame : forall g' q', data g' = data f3 -> slot g' q' = slot f3 q')
    by (intros; now apply slot_same_data).
  rewrite Hsame by reflexivity. rewrite Hs3.
  destruct (Z.eq_dec k 0) as [->|Hk0].
  - rewrite !rowStart_0, !Z.add_0_l, !Z.sub_0_r in * by lia.
    destruct (Z.ltb_spec i (2 ^ R)).
    + destruct (Z.leb_spec (2 ^ R) i); [lia|]. cbn [andb].
      apply Hold2. lia.
    + destruct (Z.leb_spec (2 ^ R) i), (Z.ltb_spec i (2 ^ R + 2 ^ R));
        try lia. reflexivity.
  - pose proof (coords_in_tree (R + 1) k i ltac:(lia) Hi) as Hq.
    assert (Hge : 2 ^ (R + 1) <= rowStart (R + 1) k)
      by (apply rowStart_inner; lia).
    destruct (Z.ltb_spec (rowStart (R + 1) k + i) (2 ^ R + 2 ^ R)); [lia|].
    rewrite andb_false_r.
    rewrite (Hrows2 k i ltac:(lia) Hi).
    destruct (Z.ltb_spec i 0); [lia|]. rewrite andb_false_r, orb_false_r.
    destruct (Z.ltb_spec k (R + 1)); cbn [andb].
    + reflexivity.
    + assert (k = R + 1) as -> by lia.
      replace (R - (R + 1)) with (-1) by lia.
      destruct (Z.ltb_spec i (2 ^ (-1))) as [Hneg|]; [|reflexivity].
      cbn in Hneg. lia.
Qed.

Lemma reMap_renumbers_witness :
  exists f',
    reMap (rows threeLeaves + 1) threeLeaves = Ok None f' /\
    rows f' = 3 /\
    slot f' (rowStart 3 1 + 0) = Some (toyHash (hashOf 1) (hashOf 2)).
Proof.
  destruct (reMap_renumbers threeLeaves) as (f' & Hrun & Hr & _ & _ & _ & Hs).
  - unfold shaped. cbn. lia.
  - cbn. lia.
  - exists f'. split; [exact Hrun|]. split; [exact Hr|].
    refine (Hs 1 0 _ _); cbn; lia.
Defined.

End ForestRuns.

(* ===================================================================== *)
(** ** More of the persistence: PosMapSanity, RestoreForest on bad files *)
(* ===================================================================== *)

Module PersistRuns.
Import Enc OsFile Accumulator Geometry ForestProps Persist PersistProps.

(** [for i := uint64(0); i < f.numLeaves; i++ {
      if f.positionMap[f.data.read(i).Mini()] != i { return fmt.Errorf(...) } }]:
    a key that is not in a Go map reads as 0.  [Some i] is the error at
    position [i]. *)
Fixpoint posMapLoop (k : nat) (i : Z) : M (option Z) :=
  match k with
  | O => mret None
  | S k' =>
      h ← read i;
      f ← get;
      if negb (default 0 (positionMap f !! Mini h) =? i) then mret (Some i)
      else posMapLoop k' (i + 1)
  end.

(** [PosMapSanity] is costly / slow: check that everything in posMap is
    correct. *)
Definition PosMapSanity : M (option Z) :=
  f ← get; posMapLoop (Z.to_nat (numLeaves f)) 0.

(** The forest without the entry of a key in its position map. *)
Definition withoutKey (key : MiniHash) (f : Forest) : Forest :=
  mkForest (numLeaves f) (rows f) (data f) (delete key (positionMap f)).


(** The loop passes iff every position it visits can be read and is
    mapped to itself, a missing key counting as 0. *)
Lemma posMapLoop_spec (k : nat) :
  forall i f,
    posMapLoop k i f = Ok None f <->
    forall j, i <= j < i + Z.of_nat k ->
      exists h, slot f j = Some h /\
                default 0 (positionMap f !! Mini h) = j.
Proof.
  induction k as [|k IH]; intros i f; cbn [posMapLoop].
  - split; [intros _ j Hj; lia | reflexivity].
  - rewrite bind_unfold, read_slot.
    destruct (slot f i) as [h|] eqn:Hi.
    + rewrite get_bind.
      destruct (Z.eqb_spec (default 0 (positionMap f !! Mini h)) i) as [E|E];
        cbn [negb].
      * rewrite IH. split.
        -- intros H j Hj. destruct (Z.eq_dec j i) as [->|]; [eauto|].
           apply H. lia.
        -- intros H j Hj. apply H. lia.
      * split; [discriminate|]. intros H. exfalso.
        destruct (H i ltac:(lia)) as (h' & Hh' & Hd). congruence.
    + split; [discriminate|]. intros H. exfalso.
      destruct (H i ltac:(lia)) as (h' & Hh' & _). congruence.
Qed.

Lemma PosMapSanity_spec f :
  0 <= numLeaves f ->
  PosMapSanity f = Ok None f <->
  forall j, 0 <= j < numLeaves f ->
    exists h, slot f j = Some h /\ default 0 (positionMap f !! Mini h) = j.
Proof.
  intros Hn. unfold PosMapSanity. rewrite get_bind, posMapLoop_spec.
  rewrite Z2Nat.id, Z.add_0_l by lia. reflexivity.
Qed.

(** X17: a key that is missing from a Go map reads as 0, so [PosMapSanity]
    does not see that leaf 0 is missing from the position map: a forest
    that passes the check passes it as well after the entry of the hash at
    position 0 is taken out of the map. *)
Theorem PosMapSanity_blind_to_leaf0 f h0 :
  0 <= numLeaves f ->
  slot f 0 = Some h0 ->
  PosMapSanity f = Ok None f ->
  PosMapSanity (withoutKey (Mini h0) f) = Ok None (withoutKey (Mini h0) f).
Proof.
  intros Hn H0 Hpass.
  pose proof (proj1 (PosMapSanity_spec f Hn) Hpass) as Hp.
  clear Hpass. rename Hp into Hpass.
  apply (proj2 (PosMapSanity_spec (withoutKey (Mini h0) f) Hn)).
  unfold withoutKey. cbn [numLeaves positionMap].
  intros j Hj. destruct (Hpass j Hj) as (h & Hh & Hd).
  exists h. split.
  { rewrite <- Hh. apply slot_same_data. reflexivity. }
  destruct (decide (Mini h0 = Mini h)) as [E|E].
  - rewrite <- E, lookup_delete_eq. cbn [default].
    destruct (Hpass 0 ltac:(lia)) as (h' & Hh' & Hd').
    assert (h' = h0) as -> by congruence.
    rewrite E in Hd'. lia.
  - rewrite lookup_delete_ne by exact E. exact Hd.
Qed.

Lemma PosMapSanity_blind_to_leaf0_witness :
  PosMapSanity (withoutKey (Mini (hashOf 1)) fourLeaves)
  = Ok None (withoutKey (Mini (hashOf 1)) fourLeaves).
Proof.
  apply (PosMapSanity_blind_to_leaf0 fourLeaves (hashOf 1)).
  - cbn. lia.
  - reflexivity.
  - reflexivity.
Defined.

Section Restoring.
Variable maxRW : nat.
Hypothesis maxRW_pos : (1 <= maxRW)%nat.

(** X18: a forest restored from the files written from a forest in RAM
    passes [PosMapSanity] exactly when no two of its leaf slots
    [0 .. numLeaves - 1] hold hashes with the same MiniHash: the restore
    maps each MiniHash to the last of the slots that hold it. *)
Theorem PosMapSanity_after_restore f :
  shaped f -> rows f <= 42 -> wellSized (data f) ->
  exists f',
    RestoreForest maxRW (savedMisc f) (savedForest f) = RestoredForest f' /\
    (PosMapSanity f' = Ok None f' <->
     forall i j, 0 <= i < j -> j < numLeaves f ->
       Mini (hashAt (data f) i) <> Mini (hashAt (data f) j)).
Proof.
  intros Hsh H42 Hws. pose proof Hsh as (HR & HL & Hn).
  rewrite (restore_saved maxRW maxRW_pos f Hsh H42 Hws).
  eexists. split; [reflexivity|].
  rewrite PosMapSanity_spec by (cbn [numLeaves]; lia).
  cbn [numLeaves positionMap].
  set (f' := mkForest _ _ _ _).
  assert (Hslot : forall j, 0 <= j < numLeaves f ->
            slot f' j = Some (hashAt (data f) j)).
  { intros j Hj. unfold slot, hashAt. subst f'. cbn [data].
    assert (Hr : inRange j (data f) = true).
    { apply inRange_spec. rewrite HL.
      pose proof (pow2_gt0 (rows f) ltac:(lia)).
      rewrite pow2_succ by lia. lia. }
    rewrite Hr. apply inRange_spec in Hr.
    destruct (lookup_lt_is_Some_2 (data f) (Z.to_nat j)) as [h Hh]; [lia|].
    now rewrite Hh. }
  split.
  - intros Hpass i j Hij Hj E.
    destruct (Hpass i ltac:(lia)) as (hi & Hhi & Hdi).
    destruct (Hpass j ltac:(lia)) as (hj & Hhj & Hdj).
    rewrite Hslot in Hhi, Hhj by lia.
    injection Hhi as <-. injection Hhj as <-.
    rewrite E in Hdi. lia.
  - intros Hdist j Hj. exists (hashAt (data f) j).
    split; [apply Hslot; exact Hj|].
    rewrite rebuilt_hit; [reflexivity | lia |].
    intros j1 j2 H1 H2. apply Hdist; lia.
Qed.



End Restoring.

(** X20: the error of the second read of [RestoreForest] is dropped: on a
    misc file that holds the 8 bytes of [numLeaves] and no byte for
    [rows] the restore goes on as on the file with [rows] = 0. *)
Theorem RestoreForest_missing_rows maxRW nb forestFile :
  length nb = 8%nat ->
  RestoreForest maxRW (openFile false nb) forestFile
  = RestoreForest maxRW (openFile false (nb ++ [0])) forestFile.
Proof.
  intros Hl. unfold RestoreForest, openFile.
  rewrite <- (app_nil_r nb) at 1.
  rewrite !(readFull_prefix nb _ 8 false) by exact Hl.
  rewrite (readFull_suffix nb [0] 8 1 false) by (exact Hl || reflexivity).
  assert (Hnone : readFull (mkFile (nb ++ []) (Z.of_nat 8) false) 1 = None).
  { unfold readFull, rest. cbn [cursor content].
    rewrite Nat2Z.id, app_nil_r, drop_ge by lia. reflexivity. }
  rewrite Hnone. reflexivity.
Qed.

Lemma PosMapSanity_after_restore_witness :
  exists f',
    RestoreForest 4096 (savedMisc fourLeaves) (savedForest fourLeaves)
    = RestoredForest f' /\
    (PosMapSanity f' = Ok None f' <->
     forall i j, 0 <= i < j -> j < numLeaves fourLeaves ->
       Mini (hashAt (data fourLeaves) i) <> Mini (hashAt (data fourLeaves) j)).
Proof.
  apply (PosMapSanity_after_restore 4096 ltac:(lia) fourLeaves).
  - unfold shaped. cbn. lia.
  - cbn. lia.
  - repeat constructor.
Defined.

Lemma RestoreForest_missing_rows_witness :
  RestoreForest 4096 (openFile false (be_bytes 8 1)) (openFile false [])
  = RestoreForest 4096 (openFile false (be_bytes 8 1 ++ [0]))
      (openFile false []).
Proof.
  apply (RestoreForest_missing_rows 4096 (be_bytes 8 1)). reflexivity.
Defined.


End PersistRuns.

(* ===================================================================== *)
(** ** The backends of the forest (accumulator/forestdata.go)            *)
(* ===================================================================== *)

Module Backends.
Import Enc OsFile Accumulator Persist.

(** *** ramForestData *)

(** [r.m[a], r.m[b] = r.m[b], r.m[a]]: both slots are read, then both
    are written. *)
Definition swapHash (a b : Z) : M unit :=
  hb ← read b;
  ha ← read a;
  write a hb;;
  write b ha.

(** [for i := uint64(0); i < w; i++ {
      r.m[a+i], r.m[b+i] = r.m[b+i], r.m[a+i] }]. *)
Definition swapHashRange (a b w : Z) : M unit :=
  forEach (seqZ 0 w) (fun i => swapHash (u64 (a + i)) (u64 (b + i))).

(** *** diskForestData: the forest file as its bytes

    [ReadAt] and [WriteAt] do not use the handle's cursor.  The file is
    taken not to be opened with O_APPEND, with which [WriteAt] fails. *)

(** [f.ReadAt(buf, off)] with [len(buf) = n]: the bytes there are at
    [off], up to [n] of them; a negative offset is an error and reads
    nothing. *)
Definition readAt (c : list Z) (n : nat) (off : Z) : list Z :=
  if off <? 0 then [] else take n (drop (Z.to_nat off) c).

(** [f.WriteAt(d, off)]: the bytes [d] at [off], the file growing as it
    must; a negative offset is an error and writes nothing, and so does
    an empty [d]. *)
Definition writeAt (c : list Z) (d : list Z) (off : Z) : list Z :=
  if (off <? 0) || (length d =? 0)%nat then c
  else overwrite c (Z.to_nat off) d.

(** [int64(pos*leafSize)]: the product is a uint64. *)
Definition byteOffset (pos : Z) : Z := i64 (u64 (pos * Z.of_nat leafSize)).

(** [read]: [var h Hash; d.f.ReadAt(h[:], int64(pos*leafSize))], errors
    ignored: what could not be read stays zero. *)
Definition diskRead (c : list Z) (pos : Z) : Hash :=
  let got := readAt c leafSize (byteOffset pos) in
  got ++ replicate (leafSize - length got) 0.

(** [write]: [d.f.WriteAt(h[:], int64(pos*leafSize))], errors ignored. *)
Definition diskWrite (c : list Z) (pos : Z) (h : Hash) : list Z :=
  writeAt c h (byteOffset pos).

(** [size]: [uint64(s.Size() / leafSize)]. *)
Definition diskSize (c : list Z) : Z :=
  Z.of_nat (length c) / Z.of_nat leafSize.

(** [resize]: [d.f.Truncate(int64(newSize * leafSize))], which cuts the
    file or fills it up with zeros; [None] is the panic on its error, for
    a negative size. *)
Definition diskResize (c : list Z) (newSize : Z) : option (list Z) :=
  let n := byteOffset newSize in
  if n <? 0 then None
  else Some (take (Z.to_nat n) c ++ replicate (Z.to_nat n - length c) 0).

(** [swapHash] of the disk backend. *)
Definition diskSwapHash (c : list Z) (a b : Z) : list Z :=
  let ha := diskRead c a in
  let hb := diskRead c b in
  diskWrite (diskWrite c a hb) b ha.

End Backends.

Module BackendProps.
Import Enc OsFile Accumulator Geometry ForestProps Persist PersistProps.
Import ForestRuns Backends.

(** Case analysis on the integer comparisons of the goal. *)
Ltac split_tests :=
  repeat match goal with
         | |- context [(?x <=? ?y)] => destruct (Z.leb_spec x y)
         | |- context [(?x <? ?y)] => destruct (Z.ltb_spec x y)
         end;
  try lia; cbn [andb orb negb].

(** *** ramForestData: swapping *)

(** Where the slots of [f] are after the ranges of [i] slots at [a] and
    at [b] changed places. *)
Definition exchanged (f : Forest) (a b i : Z) (g : Forest) : Prop :=
  numLeaves g = numLeaves f /\ rows g = rows f /\
  positionMap g = positionMap f /\
  length (data g) = length (data f) /\
  forall q, slot g q
    = if (a <=? q) && (q <? a + i) then slot f (q - a + b)
      else if (b <=? q) && (q <? b + i) then slot f (q - b + a)
      else slot f q.

Lemma exchanged_0 f a b : exchanged f a b 0 f.
Proof.
  repeat split. intros q.
  destruct (Z.leb_spec a q), (Z.ltb_spec q (a + 0)),
    (Z.leb_spec b q), (Z.ltb_spec q (b + 0)); try lia; reflexivity.
Qed.

Lemma swapHashRange_run f a b w :
  0 <= a -> 0 <= b -> 0 <= w ->
  a + w <= b \/ b + w <= a ->
  a + w <= Z.of_nat (length (data f)) ->
  b + w <= Z.of_nat (length (data f)) ->
  Z.of_nat (length (data f)) < 2 ^ 64 ->
  exists f', swapHashRange a b w f = Ok tt f' /\ exchanged f a b w f'.
Proof.
  intros Ha Hb Hw Hab Hlena Hlenb H64. unfold swapHashRange.
  destruct (forEach_seqZ_total (exchanged f a b)
              (fun i => swapHash (u64 (a + i)) (u64 (b + i)))
              (Z.to_nat w) 0 f (exchanged_0 f a b)) as (f' & Hrun & Hex).
  - intros i g Hi (Hn & Hr & Hpm & Hl & Hs).
    rewrite Z2Nat.id in Hi by lia.
    rewrite !u64_small by lia.
    assert (Hra : inRange (a + i) (data g) = true)
      by (apply inRange_spec; lia).
    assert (Hrb : inRange (b + i) (data g) = true)
      by (apply inRange_spec; lia).
    destruct (slot_Some _ _ Hra) as [ha Hha].
    destruct (slot_Some _ _ Hrb) as [hb Hhb].
    unfold swapHash.
    rewrite bind_unfold, read_slot, Hhb, bind_unfold, read_slot, Hha.
    rewrite bind_unfold, write_Ok by exact Hra.
    set (g1 := mkForest _ _ _ _).
    assert (Hrb1 : inRange (b + i) (data g1) = true).
    { apply inRange_spec. subst g1. cbn [data]. rewrite length_insert. lia. }
    rewrite write_Ok by exact Hrb1.
    eexists. split; [reflexivity|].
    assert (Hg1 : forall q', slot g1 q'
                  = if Z.eq_dec q' (a + i) then Some hb else slot g q').
    { intros q'. subst g1. apply (slot_write (a + i) hb g q' Hra). }
    unfold exchanged.
    split; [exact Hn|]. split; [exact Hr|]. split; [exact Hpm|].
    split.
    { cbn [data]. subst g1. cbn [data]. rewrite !length_insert. exact Hl. }
    intros q.
    rewrite (slot_write (b + i) ha g1 q Hrb1), Hg1.
    rewrite Hs in Hha, Hhb.
    destruct (Z.leb_spec a (a + i)), (Z.ltb_spec (a + i) (a + i)),
      (Z.leb_spec b (a + i)), (Z.ltb_spec (a + i) (b + i)) in Hha;
      try lia; cbn [andb] in Hha.
    all: destruct (Z.leb_spec a (b + i)), (Z.ltb_spec (b + i) (a + i)),
      (Z.leb_spec b (b + i)), (Z.ltb_spec (b + i) (b + i)) in Hhb;
      try lia; cbn [andb] in Hhb.
    all: destruct (Z.eq_dec q (b + i)) as [->|Hqb];
      [ destruct (Z.leb_spec a (b + i)), (Z.ltb_spec (b + i) (a + (i + 1))),
          (Z.leb_spec b (b + i)), (Z.ltb_spec (b + i) (b + (i + 1)));
          try lia; cbn [andb]; rewrite <- Hha; f_equal; lia
      | destruct (Z.eq_dec q (a + i)) as [->|Hqa];
        [ destruct (Z.leb_spec a (a + i)), (Z.ltb_spec (a + i) (a + (i + 1)));
            try lia; cbn [andb]; rewrite <- Hhb; f_equal; lia
        | rewrite Hs;
          destruct (Z.leb_spec a q), (Z.ltb_spec q (a + i)),
            (Z.ltb_spec q (a + (i + 1))), (Z.leb_spec b q),
            (Z.ltb_spec q (b + i)), (Z.ltb_spec q (b + (i + 1)));
            try lia; reflexivity ] ].
  - exists f'. rewrite Z2Nat.id in Hrun by lia.
    rewrite Z2Nat.id, Z.add_0_l in Hex by lia. auto.
Qed.

(** X21: on the RAM backend [swapHashRange(a, b, w)], for two ranges in
    the backend that do not overlap, whichever comes first, returns with
    the two ranges of hashes exchanged and every other slot as it was;
    done twice, it restores every slot. *)
Theorem swapHashRange_exchanges f a b w :
  0 <= a -> 0 <= b -> 0 <= w ->
  a + w <= b \/ b + w <= a ->
  a + w <= Z.of_nat (length (data f)) ->
  b + w <= Z.of_nat (length (data f)) ->
  Z.of_nat (length (data f)) < 2 ^ 64 ->
  exists f' f'',
    swapHashRange a b w f = Ok tt f' /\
    (forall i, 0 <= i < w ->
       slot f' (a + i) = slot f (b + i) /\ slot f' (b + i) = slot f (a + i)) /\
    (forall q, ~ (a <= q < a + w) -> ~ (b <= q < b + w) ->
       slot f' q = slot f q) /\
    swapHashRange a b w f' = Ok tt f'' /\
    forall q, slot f'' q = slot f q.
Proof.
  intros Ha Hb Hw Hab Hlena Hlenb H64.
  destruct (swapHashRange_run f a b w Ha Hb Hw Hab Hlena Hlenb H64)
    as (f' & Hrun & Hn & Hr & Hpm & Hl & Hs).
  destruct (swapHashRange_run f' a b w Ha Hb Hw Hab)
    as (f'' & Hrun' & Hn' & Hr' & Hpm' & Hl' & Hs'); [lia | lia | lia |].
  exists f', f''. split; [exact Hrun|].
  split.
  { intros i Hi. rewrite !Hs.
    destruct (Z.leb_spec a (a + i)), (Z.ltb_spec (a + i) (a + w)),
      (Z.leb_spec a (b + i)), (Z.ltb_spec (b + i) (a + w)),
      (Z.leb_spec b (b + i)), (Z.ltb_spec (b + i) (b + w)); try lia.
    all: cbn [andb]; split; f_equal; lia. }
  split.
  { intros q Hqa Hqb. rewrite Hs.
    destruct (Z.leb_spec a q), (Z.ltb_spec q (a + w)),
      (Z.leb_spec b q), (Z.ltb_spec q (b + w)); try lia; reflexivity. }
  split; [exact Hrun'|].
  intros q. rewrite Hs'. split_tests; rewrite Hs; split_tests;
    try reflexivity; f_equal; lia.
Qed.

Lemma swapHashRange_exchanges_witness :
  exists f' f'',
    swapHashRange 2 0 2 fourLeaves = Ok tt f' /\
    (forall i, 0 <= i < 2 ->
       slot f' (2 + i) = slot fourLeaves (0 + i) /\
       slot f' (0 + i) = slot fourLeaves (2 + i)) /\
    (forall q, ~ (2 <= q < 2 + 2) -> ~ (0 <= q < 0 + 2) ->
       slot f' q = slot fourLeaves q) /\
    swapHashRange 2 0 2 f' = Ok tt f'' /\
    forall q, slot f'' q = slot fourLeaves q.
Proof.
  apply (swapHashRange_exchanges fourLeaves 2 0 2); cbn; lia.
Defined.

(** *** diskForestData *)

(** The byte at an index of a file, 0 past its end. *)
Definition byteAt (c : list Z) (i : nat) : Z := default 0 (c !! i).

Lemma byteOffset_small pos :
  0 <= pos < 2 ^ 58 -> byteOffset pos = 32 * pos.
Proof.
  intros H. unfold byteOffset, leafSize. change (Z.of_nat 32) with 32.
  assert (E : 2 ^ 63 = 32 * 2 ^ 58) by reflexivity.
  rewrite u64_small by (change (2 ^ 64) with (2 * 2 ^ 63); lia).
  rewrite i64_small by lia. lia.
Qed.

(** A read buffer, filled up with zeros, byte by byte. *)
Lemma padded_read (c : list Z) (n off : nat) :
  take n (drop off c) ++ replicate (n - length (take n (drop off c))) 0
  = (fun j => byteAt c (off + j)) <$> seq 0 n.
Proof.
  apply list_eq. intros j. rewrite list_lookup_fmap.
  destruct (Nat.lt_ge_cases j n) as [Hj|Hj].
  - rewrite lookup_seq_lt by exact Hj.
    cbn [fmap option_fmap option_map Nat.add].
    unfold byteAt.
    destruct (Nat.lt_ge_cases j (length (take n (drop off c)))) as [Hl|Hl].
    + rewrite lookup_app_l by exact Hl.
      rewrite lookup_take_lt by exact Hj. rewrite lookup_drop.
      rewrite length_take, length_drop in Hl.
      destruct (lookup_lt_is_Some_2 c (off + j)) as [x Hx]; [lia|].
      now rewrite Hx.
    + rewrite lookup_app_r by exact Hl.
      rewrite lookup_replicate_2 by lia.
      rewrite length_take, length_drop in Hl.
      rewrite lookup_ge_None_2 by lia. reflexivity.
  - rewrite lookup_seq_ge by exact Hj. cbn.
    apply lookup_ge_None_2.
    rewrite length_app, length_replicate, length_take, length_drop. lia.
Qed.

(** The bytes of a file after a write. *)
Lemma byteAt_overwrite (c d : list Z) (p i : nat) :
  byteAt (overwrite c p d) i
  = if (p <=? i)%nat && (i <? p + length d)%nat then byteAt d (i - p)
    else byteAt c i.
Proof.
  unfold byteAt, overwrite.
  assert (Hlen : length (take p c ++ replicate (p - length c) 0) = p).
  { rewrite length_app, length_take, length_replicate. lia. }
  rewrite app_assoc.
  destruct (Nat.leb_spec p i) as [Hpi|Hpi]; cbn [andb].
  - rewrite lookup_app_r by lia. rewrite Hlen.
    destruct (Nat.ltb_spec i (p + length d)) as [Hid|Hid].
    + now rewrite lookup_app_l by lia.
    + rewrite lookup_app_r by lia. rewrite lookup_drop.
      do 2 f_equal. lia.
  - rewrite lookup_app_l by lia.
    destruct (Nat.lt_ge_cases i (length c)) as [Hic|Hic].
    + rewrite lookup_app_l by (rewrite length_take; lia).
      now rewrite lookup_take_lt by lia.
    + rewrite lookup_app_r by (rewrite length_take; lia).
      rewrite lookup_replicate_2 by (rewrite length_take; lia).
      now rewrite lookup_ge_None_2 by lia.
Qed.

Lemma diskRead_bytes c pos :
  0 <= pos < 2 ^ 58 ->
  diskRead c pos = (fun j => byteAt c (32 * Z.to_nat pos + j)) <$> seq 0 32.
Proof.
  intros Hp. unfold diskRead, readAt, leafSize.
  rewrite byteOffset_small by exact Hp.
  destruct (Z.ltb_spec (32 * pos) 0); [lia|].
  replace (Z.to_nat (32 * pos)) with (32 * Z.to_nat pos)%nat by lia.
  apply padded_read.
Qed.

Lemma hash_bytes (h : Hash) :
  length h = 32%nat -> (fun j => byteAt h j) <$> seq 0 32 = h.
Proof.
  intros Hl. apply list_eq. intros j. rewrite list_lookup_fmap.
  destruct (Nat.lt_ge_cases j 32) as [Hj|Hj].
  - rewrite lookup_seq_lt by exact Hj. cbn. unfold byteAt.
    destruct (lookup_lt_is_Some_2 h j) as [x Hx]; [lia|]. now rewrite Hx.
  - rewrite lookup_seq_ge by exact Hj. cbn. symmetry.
    apply lookup_ge_None_2. lia.
Qed.

Lemma diskWrite_overwrite c pos h :
  length h = 32%nat -> 0 <= pos < 2 ^ 58 ->
  diskWrite c pos h = overwrite c (32 * Z.to_nat pos) h.
Proof.
  intros Hl Hp. unfold diskWrite, writeAt.
  rewrite byteOffset_small by exact Hp.
  destruct (Z.ltb_spec (32 * pos) 0); [lia|]. rewrite Hl. cbn [Nat.eqb orb].
  f_equal. lia.
Qed.

(** What the positions of the file read as after a write. *)
Lemma diskRead_diskWrite c pos h q :
  length h = 32%nat -> 0 <= pos < 2 ^ 58 -> 0 <= q < 2 ^ 58 ->
  diskRead (diskWrite c pos h) q = if Z.eq_dec q pos then h else diskRead c q.
Proof.
  intros Hl Hp Hq. rewrite diskWrite_overwrite by assumption.
  destruct (Z.eq_dec q pos) as [->|Hne].
  - rewrite diskRead_bytes by exact Hp.
    etransitivity; [|apply (hash_bytes h Hl)].
    apply list_fmap_ext. intros i j Hj.
    apply lookup_seq in Hj as [-> Hj]. cbn [Nat.add].
    rename i into j.
    rewrite byteAt_overwrite, Hl.
    destruct (Nat.leb_spec (32 * Z.to_nat pos) (32 * Z.to_nat pos + j)),
      (Nat.ltb_spec (32 * Z.to_nat pos + j) (32 * Z.to_nat pos + 32));
      try lia.
    cbn [andb]. f_equal. lia.
  - rewrite !diskRead_bytes by exact Hq.
    apply list_fmap_ext. intros i j Hj.
    apply lookup_seq in Hj as [-> Hj]. cbn [Nat.add].
    rename i into j.
    rewrite byteAt_overwrite, Hl.
    destruct (Nat.leb_spec (32 * Z.to_nat pos) (32 * Z.to_nat q + j)),
      (Nat.ltb_spec (32 * Z.to_nat q + j) (32 * Z.to_nat pos + 32));
      try lia; reflexivity.
Qed.

(** X22: the disk backend is an array of hashes that reads EMPTY past its
    end and that a write extends: after [write(pos, h)], [read(pos)]
    gives [h], every other position reads as before, and the file has
    grown, if it had to, to the end of slot [pos]; a position past the
    end of the file reads as the EMPTY hash. *)
Theorem disk_write_then_read c pos h q :
  length h = 32%nat -> 0 <= pos < 2 ^ 58 -> 0 <= q < 2 ^ 58 ->
  diskRead (diskWrite c pos h) pos = h /\
  (q <> pos -> diskRead (diskWrite c pos h) q = diskRead c q) /\
  (Z.of_nat (length c) <= 32 * q -> diskRead c q = empty) /\
  Z.of_nat (length (diskWrite c pos h))
  = Z.max (Z.of_nat (length c)) (32 * pos + 32).
Proof.
  intros Hl Hp Hq. split; [|split; [|split]].
  - rewrite diskRead_diskWrite by assumption.
    now destruct (Z.eq_dec pos pos).
  - intros Hne. rewrite diskRead_diskWrite by assumption.
    now destruct (Z.eq_dec q pos).
  - intros Hend. unfold diskRead, readAt, leafSize.
    rewrite byteOffset_small by exact Hq.
    destruct (Z.ltb_spec (32 * q) 0); [lia|].
    rewrite drop_ge by lia. reflexivity.
  - rewrite diskWrite_overwrite by assumption. unfold overwrite.
    rewrite !length_app, length_take, length_replicate, length_drop, Hl. lia.
Qed.

Lemma disk_write_then_read_witness :
  diskRead (diskWrite [] 1 (hashOf 7)) 1 = hashOf 7 /\
  (0 <> 1 -> diskRead (diskWrite [] 1 (hashOf 7)) 0 = diskRead [] 0) /\
  (Z.of_nat (length (@nil Z)) <= 32 * 0 -> diskRead [] 0 = empty) /\
  Z.of_nat (length (diskWrite [] 1 (hashOf 7)))
  = Z.max (Z.of_nat (length (@nil Z))) (32 * 1 + 32).
Proof.
  apply (disk_write_then_read [] 1 (hashOf 7) 0); cbn; lia.
Defined.

(** *** The disk backend and the RAM backend *)

Lemma take_chunks {A} (n : nat) (chunks : list (list A)) (k : nat) :
  Forall (fun c => length c = n) chunks ->
  take (n * k) (concat chunks) = concat (take k chunks).
Proof.
  intros H. revert k. induction H as [|c chunks Hc _ IH]; intros k.
  - cbn [concat]. now rewrite !take_nil.
  - destruct k as [|k].
    + now rewrite Nat.mul_0_r.
    + cbn [concat take].
      replace (n * S k)%nat with (length c + n * k)%nat by lia.
      rewrite take_app_add' by reflexivity. f_equal. apply IH.
Qed.

Lemma toBytes_replicate k :
  toBytes (replicate k empty) = replicate (32 * k) 0.
Proof.
  unfold toBytes. induction k as [|k IH]; [reflexivity|].
  cbn [replicate concat]. rewrite IH.
  replace (32 * S k)%nat with (32 + 32 * k)%nat by lia.
  now rewrite replicate_add.
Qed.

(** X23: the disk backend does on the bytes of the file what the RAM
    backend does on its slice.  With the file holding the slots of the
    slice, 32 bytes each, whenever [read], [write], [size] or [resize]
    of the RAM backend returns, the same call on the disk backend gives
    the same hash, and leaves the file holding the slots of the slice as
    the RAM backend leaves it. *)
Theorem disk_agrees_with_ram f pos h n f' :
  wellSized (data f) ->
  Z.of_nat (length (data f)) < 2 ^ 58 ->
  (read pos f = Ok h f' -> diskRead (toBytes (data f)) pos = h) /\
  (length h = 32%nat -> write pos h f = Ok tt f' ->
   diskWrite (toBytes (data f)) pos h = toBytes (data f')) /\
  (size f = Ok n f' -> diskSize (toBytes (data f)) = n) /\
  (0 <= n < 2 ^ 64 -> resize n f = Ok tt f' ->
   diskResize (toBytes (data f)) n = Some (toBytes (data f'))).
Proof.
  intros Hws Hlen.
  assert (Hchunks : Forall (fun c => length c = 32%nat) (data f)) by exact Hws.
  split; [|split; [|split]].
  - rewrite read_slot. destruct (slot f pos) as [h'|] eqn:Hs; [|discriminate].
    intros [= -> _].
    pose proof (slot_inRange _ _ _ Hs) as Hr. apply inRange_spec in Hr.
    unfold slot in Hs. rewrite (proj2 (inRange_spec _ _) Hr) in Hs.
    unfold diskRead, readAt, leafSize.
    rewrite byteOffset_small by lia.
    destruct (Z.ltb_spec (32 * pos) 0); [lia|].
    replace (Z.to_nat (32 * pos)) with (32 * Z.to_nat pos)%nat by lia.
    unfold toBytes. rewrite (ProofReaderRuns.drop_chunks 32) by exact Hchunks.
    rewrite (drop_S _ _ _ Hs). cbn [concat].
    assert (Hh : length h = 32%nat).
    { rewrite Forall_forall in Hchunks. apply Hchunks.
      eapply list_elem_of_lookup_2. exact Hs. }
    rewrite take_app_length' by (symmetry; exact Hh).
    rewrite Hh, Nat.sub_diag. apply app_nil_r.
  - intros Hh Hw. apply write_inv in Hw as [Hr ->]. cbn [data].
    apply inRange_spec in Hr.
    unfold diskWrite, writeAt. rewrite byteOffset_small by lia.
    destruct (Z.ltb_spec (32 * pos) 0); [lia|]. rewrite Hh. cbn [Nat.eqb orb].
    replace (Z.to_nat (32 * pos)) with (32 * Z.to_nat pos)%nat by lia.
    unfold overwrite, toBytes.
    rewrite (take_chunks 32) by exact Hchunks.
    assert (Hcl : length (concat (data f)) = (32 * length (data f))%nat).
    { apply (toBytes_length (data f) Hws). }
    rewrite Hcl.
    replace (32 * Z.to_nat pos - 32 * length (data f))%nat with 0%nat by lia.
    cbn [replicate app]. rewrite Hh.
    replace (32 * Z.to_nat pos + 32)%nat with (32 * S (Z.to_nat pos))%nat
      by lia.
    rewrite (ProofReaderRuns.drop_chunks 32) by exact Hchunks.
    rewrite insert_take_drop by lia.
    rewrite concat_app. cbn [concat]. reflexivity.
  - unfold size. intros [= <- _]. unfold diskSize, leafSize.
    rewrite (toBytes_length (data f) Hws). unfold leafSize.
    rewrite Nat2Z.inj_mul, Z.mul_comm. apply Z.div_mul. lia.
  - intros Hn. unfold resize.
    set (grow := u64 (n - Z.of_nat (length (data f)))).
    destruct (_ && _) eqn:Efit; [|discriminate].
    intros [= <-]. cbn [data].
    apply andb_true_iff in Efit as [E1 E2].
    apply Z.leb_le in E1, E2. rewrite maxSlots_value in E1, E2.
    assert (Hg : 0 <= grow) by (subst grow; apply Z.mod_pos_bound; lia).
    assert (Hng : n = Z.of_nat (length (data f)) + grow).
    { subst grow. unfold u64, wrapU in *.
      destruct (Z_le_gt_dec (Z.of_nat (length (data f))) n) as [Hle|Hgt].
      - rewrite Z.mod_small by lia. lia.
      - exfalso.
        replace (n - Z.of_nat (length (data f)))
          with ((2 ^ 64 + (n - Z.of_nat (length (data f)))) + (-1) * 2 ^ 64)
          in E1 by lia.
        rewrite Z.mod_add in E1 by lia.
        rewrite Z.mod_small in E1 by lia.
        change (2 ^ 64) with (2 ^ 6 * 2 ^ 58) in *.
        change (2 ^ 58) with (2 ^ 15 * 2 ^ 43) in *. lia. }
    unfold diskResize. rewrite byteOffset_small
      by (change (2 ^ 58) with (2 ^ 15 * 2 ^ 43) in *; lia).
    destruct (Z.ltb_spec (32 * n) 0); [lia|]. f_equal.
    pose proof (toBytes_length (data f) Hws) as Hcl. unfold leafSize in Hcl.
    rewrite take_ge by lia.
    unfold toBytes at 3. rewrite concat_app.
    fold (toBytes (data f)). fold (toBytes (replicate (Z.to_nat grow) empty)).
    rewrite toBytes_replicate. f_equal. f_equal. lia.
Qed.

Lemma disk_agrees_with_ram_witness :
  diskRead (toBytes (data fourLeaves)) 1 = hashOf 2.
Proof.
  refine (proj1 (disk_agrees_with_ram fourLeaves 1 (hashOf 2) 0 fourLeaves
                   _ _) eq_refl).
  - repeat constructor.
  - cbn. lia.
Defined.

End BackendProps.

(* ===================================================================== *)
(** ** The cache of the disk backend (diskForestCache)                   *)
(* ===================================================================== *)

Module DiskCache.
Import Enc OsFile.

Record diskForestCache := mkCache {
  size : Z;              (* uint64: leaves in the cached part *)
  valid : list bool;     (* which positions are set in the cache *)
  data : list Z          (* []byte *)
}.

Record cacheRange := mkCacheRange {
  startCache : Z;        (* the start position of this range in the cache *)
  start : Z;             (* the start position of this range in the forest *)
  count : Z              (* the amount of hashes in the range *)
}.

(** [newDiskForestCache]; [None] is the panic of an allocation past the
    limit of the runtime. *)
Definition newDiskForestCache (trees : Z) : option diskForestCache :=
  let size := u64 (Z.shiftl 1 trees) in
  let slots := u64 (Z.shiftl size 1) in
  let bytes := u64 (slots * 32) in
  if (slots <=? Accumulator.maxAlloc) && (bytes <=? Accumulator.maxAlloc)
  then Some (mkCache size (replicate (Z.to_nat slots) false)
               (replicate (Z.to_nat bytes) 0))
  else None.

(** [cacheSize := cache.size; if cacheSize > hashCount>>1 { cacheSize =
    hashCount >> 1 }]. *)
Definition cappedSize (cache : diskForestCache) (hashCount : Z) : Z :=
  if Z.shiftr hashCount 1 <? size cache then Z.shiftr hashCount 1
  else size cache.

(** The loop of [includes],
      for hashesCachedOnRow := cacheSize; hashesCachedOnRow != 0;
          hashesCachedOnRow >>= 1 { ... },
    from the row [row] on.  [None]: the fuel is used up. *)
Fixpoint includesFrom (fuel : nat)
    (pos hashCount row rowOffset hashesNotCached hashesCachedOnRow : Z)
    : option (bool * Z) :=
  if hashesCachedOnRow =? 0 then Some (false, 0)
  else
    match fuel with
    | O => None
    | S k =>
        let totalHashesOnRow := Z.shiftr hashCount (u8 (row + 1)) in
        let hashesNotCached :=
          u64 (hashesNotCached + u64 (totalHashesOnRow - hashesCachedOnRow)) in
        let minPosition :=
          u64 (rowOffset + u64 (totalHashesOnRow - hashesCachedOnRow)) in
        let maxPosition := u64 (u64 (rowOffset + totalHashesOnRow) - 1) in
        if (minPosition <=? pos) && (pos <=? maxPosition)
        then Some (true, u64 (pos - hashesNotCached))
        else includesFrom k pos hashCount (u8 (row + 1))
               (u64 (rowOffset + totalHashesOnRow)) hashesNotCached
               (Z.shiftr hashesCachedOnRow 1)
    end.

(** [includes]: whether a position should be in the cache, and where. *)
Definition includes (cache : diskForestCache) (pos hashCount : Z)
    : option (bool * Z) :=
  includesFrom 64 pos hashCount 0 0 0 (cappedSize cache hashCount).

(** The loop of [rangeOverlap]. *)
Fixpoint rangeOverlapFrom (fuel : nat)
    (start r hashCount row rowOffset hashesNotCached hashesCachedOnRow : Z)
    : option (Z * Z) :=
  if hashesCachedOnRow =? 0 then Some (0, 0)
  else
    match fuel with
    | O => None
    | S k =>
        let totalHashesOnRow := Z.shiftr hashCount (u8 (row + 1)) in
        let hashesNotCached :=
          u64 (hashesNotCached + u64 (totalHashesOnRow - hashesCachedOnRow)) in
        let minPosition :=
          u64 (rowOffset + u64 (totalHashesOnRow - hashesCachedOnRow)) in
        let maxPosition := u64 (u64 (rowOffset + totalHashesOnRow) - 1) in
        if (start <? minPosition) && (minPosition <=? u64 (start + r))
        then Some (u64 (u64 (start + r) - minPosition),
                   u64 (u64 (start + r) - hashesNotCached))
        else if (minPosition <=? start) && (start <=? maxPosition)
        then Some (r, u64 (start - hashesNotCached))
        else rangeOverlapFrom k start r hashCount (u8 (row + 1))
               (u64 (rowOffset + totalHashesOnRow)) hashesNotCached
               (Z.shiftr hashesCachedOnRow 1)
    end.

(** [rangeOverlap]: the amount of hashes of the range [start, start+r)
    that are in the cache, and the cache position it returns for them. *)
Definition rangeOverlap (cache : diskForestCache) (start r hashCount : Z)
    : option (Z * Z) :=
  rangeOverlapFrom 64 start r hashCount 0 0 0 (cappedSize cache hashCount).

(** The loop of [flush]. *)
Fixpoint flushFrom (fuel : nat)
    (hashCount row rowOffset hashesNotCached hashesCachedOnRow : Z)
    : option (list cacheRange) :=
  if hashesCachedOnRow =? 0 then Some []
  else
    match fuel with
    | O => None
    | S k =>
        let totalHashesOnRow := Z.shiftr hashCount (u8 (row + 1)) in
        let minPosition :=
          u64 (rowOffset + u64 (totalHashesOnRow - hashesCachedOnRow)) in
        let hashesNotCached :=
          u64 (hashesNotCached + u64 (totalHashesOnRow - hashesCachedOnRow)) in
        match flushFrom k hashCount (u8 (row + 1))
                (u64 (rowOffset + totalHashesOnRow)) hashesNotCached
                (Z.shiftr hashesCachedOnRow 1) with
        | None => None
        | Some entries =>
            Some (mkCacheRange (u64 (minPosition - hashesNotCached))
                    minPosition hashesCachedOnRow :: entries)
        end
    end.

(** [flush]: the cache ranges, and the cache with nothing marked as
    populated ([cache.valid = make([]bool, cacheLength)]). *)
Definition flush (cache : diskForestCache) (hashCount : Z)
    : option (list cacheRange * diskForestCache) :=
  let cacheLength := u64 (Z.shiftl (size cache) 1) in
  match flushFrom 64 hashCount 0 0 0 (cappedSize cache hashCount) with
  | None => None
  | Some entries =>
      Some (entries,
            mkCache (size cache) (replicate (Z.to_nat cacheLength) false)
              (data cache))
  end.

(** The cache slot of a position as a list of ranges gives it: the first
    range that holds the position. *)
Fixpoint slotOf (entries : list cacheRange) (pos : Z) : option Z :=
  match entries with
  | [] => None
  | e :: entries' =>
      if (start e <=? pos) && (pos <? start e + count e)
      then Some (startCache e + (pos - start e))
      else slotOf entries' pos
  end.


(** *** Slots of the cache *)

(** What a function of the cache backend does: it returns, it panics (on
    an index or a slice out of range), or the model is out of fuel. *)
Inductive Run (A : Type) : Type :=
| Returns (a : A)
| Panics
| NoFuel.
Arguments Returns {A} a.
Arguments Panics {A}.
Arguments NoFuel {A}.

(** [s[lo:hi]] of a byte slice whose capacity is its length, as [make]
    gives it: [None] is the panic of bounds out of range. *)
Definition slice (s : list Z) (lo hi : Z) : option (list Z) :=
  if (lo <=? hi) && (hi <=? Z.of_nat (length s))
  then Some (take (Z.to_nat (hi - lo)) (drop (Z.to_nat lo) s))
  else None.

(** The bounds [pos*leafSize] and [(pos+1)*leafSize], in uint64. *)
Definition slotLo (pos : Z) : Z := u64 (pos * 32).
Definition slotHi (pos : Z) : Z := u64 (u64 (pos + 1) * 32).

(** [get]: the hash at a cache position and whether the cache was
    populated there. *)
Definition get (dc : diskForestCache) (pos : Z)
    : option (Accumulator.Hash * bool) :=
  match valid dc !! Z.to_nat pos with
  | None => None
  | Some false => Some (Accumulator.empty, false)
  | Some true =>
      match slice (data dc) (slotLo pos) (slotHi pos) with
      | None => None
      | Some s => Some (take 32 s ++ replicate (32 - length s) 0, true)
      end
  end.

(** [set]: [copy(cache.data[pos*leafSize:(pos+1)*leafSize], hash)], which
    copies as many bytes as the shorter of the two has, and
    [cache.valid[pos] = true]. *)
Definition set (dc : diskForestCache) (pos : Z) (hash : list Z)
    : option diskForestCache :=
  match slice (data dc) (slotLo pos) (slotHi pos) with
  | None => None
  | Some s =>
      if Z.of_nat (length (valid dc)) <=? pos then None
      else
        Some (mkCache (size dc) (<[Z.to_nat pos := true]> (valid dc))
                (overwrite (data dc) (Z.to_nat (slotLo pos))
                   (take (length s) hash)))
  end.

(** *** cacheForestData *)

Record cacheForestData := mkCacheForest {
  f : list Z;                (* the bytes of the forest file *)
  hashCount : Z;             (* uint64: the number of hashes stored *)
  cache : diskForestCache
}.

(** [read]: from the cache where the cache holds the position, from the
    file otherwise (errors ignored), populating the cache on a miss. *)
Definition read (d : cacheForestData) (pos : Z)
    : Run (Accumulator.Hash * cacheForestData) :=
  match includes (cache d) pos (hashCount d) with
  | None => NoFuel
  | Some (true, cachePos) =>
      match get (cache d) cachePos with
      | None => Panics
      | Some (h, true) => Returns (h, d)
      | Some (_, false) =>
          let h := Backends.diskRead (f d) pos in
          match set (cache d) cachePos h with
          | None => Panics
          | Some dc => Returns (h, mkCacheForest (f d) (hashCount d) dc)
          end
      end
  | Some (false, _) => Returns (Backends.diskRead (f d) pos, d)
  end.

(** [write]: to the cache if the position is included in it, to the file
    otherwise (errors ignored). *)
Definition write (d : cacheForestData) (pos : Z) (h : Accumulator.Hash)
    : Run cacheForestData :=
  match includes (cache d) pos (hashCount d) with
  | None => NoFuel
  | Some (true, cachePos) =>
      match set (cache d) cachePos h with
      | None => Panics
      | Some dc => Returns (mkCacheForest (f d) (hashCount d) dc)
      end
  | Some (false, _) =>
      Returns (mkCacheForest (Backends.diskWrite (f d) pos h) (hashCount d)
                 (cache d))
  end.

(** The loop of [close]: every range of the cache is
    written to the file,
      d.f.WriteAt(d.cache.data[r.startCache*leafSize :
                               (r.startCache+r.count)*leafSize],
                  int64(r.start*leafSize)). *)
Fixpoint writeRanges (file cdata : list Z) (ranges : list cacheRange)
    : option (list Z) :=
  match ranges with
  | [] => Some file
  | r :: ranges' =>
      match slice cdata (u64 (startCache r * 32))
              (u64 (u64 (startCache r + count r) * 32)) with
      | None => None
      | Some s =>
          writeRanges (Backends.writeAt file s (Backends.byteOffset (start r)))
            cdata ranges'
      end
  end.

(** [close]: flush the entire cache to disk. *)
Definition close (d : cacheForestData) : Run cacheForestData :=
  match flush (cache d) (hashCount d) with
  | None => NoFuel
  | Some (ranges, dc) =>
      match writeRanges (f d) (data dc) ranges with
      | None => Panics
      | Some file => Returns (mkCacheForest file (hashCount d) dc)
      end
  end.

End DiskCache.

Module DiskCacheProps.
Import Enc OsFile DiskCache.
Import Geometry ForestProps Backends BackendProps.

(** Ranges that follow one another, in the forest from [O] on and in the
    cache from [C] on without a gap. *)
Fixpoint tiled (C O : Z) (l : list cacheRange) : Prop :=
  match l with
  | [] => True
  | e :: l' =>
      startCache e = C /\ O <= start e /\ 0 < count e /\
      tiled (C + count e) (start e + count e) l'
  end.

(** What the three loops keep, at the row [r] with [k] rounds of fuel
    left. *)
Definition loopInv (k : nat) (H r O N c : Z) : Prop :=
  0 <= H < 2 ^ 64 /\ 0 <= r /\ r + Z.of_nat k <= 64 /\
  0 <= c < 2 ^ Z.of_nat k /\ 0 <= N <= O /\
  O + Z.shiftr H r <= H /\ c <= Z.shiftr H (r + 1).

Lemma shiftr_half x : 0 <= x -> 0 <= Z.shiftr x 1 /\ 2 * Z.shiftr x 1 <= x.
Proof.
  intros Hx. rewrite Z.shiftr_div_pow2 by lia. change (2 ^ 1) with 2.
  split; [apply Z.div_pos; lia | apply Z.mul_div_le; lia].
Qed.

Lemma shiftr_nonneg' x n : 0 <= x -> 0 <= Z.shiftr x n.
Proof. intros. now apply Z.shiftr_nonneg. Qed.

(** One round: the numbers of the row, and the invariant for the next. *)
Lemma loopInv_step k H r O N c :
  loopInv (S k) H r O N c -> c <> 0 ->
  let T := Z.shiftr H (r + 1) in
  u8 (r + 1) = r + 1 /\
  u64 (T - c) = T - c /\
  u64 (N + (T - c)) = N + (T - c) /\
  u64 (O + (T - c)) = O + (T - c) /\
  u64 (O + T) = O + T /\
  u64 (O + T - 1) = O + T - 1 /\
  1 <= c <= T /\
  loopInv k H (r + 1) (O + T) (N + (T - c)) (Z.shiftr c 1).
Proof.
  intros (HH & Hr & Hrk & Hc & HN & HO & HcT) Hc0 T.
  rewrite Nat2Z.inj_succ in *.
  assert (HT : T = Z.shiftr (Z.shiftr H r) 1).
  { subst T. rewrite Z.shiftr_shiftr by lia. reflexivity. }
  pose proof (shiftr_nonneg' H r ltac:(lia)) as Hs0.
  destruct (shiftr_half (Z.shiftr H r) Hs0) as [HT0 HT2].
  rewrite <- HT in HT0, HT2. fold T in HcT.
  destruct (shiftr_half c ltac:(lia)) as [Hc1 Hc2].
  destruct (shiftr_half T HT0) as [HTT0 HTT2].
  assert (Hmono : Z.shiftr c 1 <= Z.shiftr T 1).
  { rewrite !Z.shiftr_div_pow2 by lia. apply Z.div_le_mono; lia. }
  assert (Hck : Z.shiftr c 1 < 2 ^ Z.of_nat k).
  { rewrite Z.shiftr_div_pow2 by lia. change (2 ^ 1) with 2.
    apply Z.div_lt_upper_bound; [lia|].
    rewrite <- Z.pow_succ_r by lia. lia. }
  split; [apply wrapU_small; cbn; lia|].
  repeat (split; [apply u64_small; lia|]).
  split; [lia|].
  unfold loopInv.
  replace (Z.shiftr H (r + 1 + 1)) with (Z.shiftr T 1)
    by (subst T; rewrite Z.shiftr_shiftr by lia; reflexivity).
  fold T. repeat split; try lia.
Qed.

(** [flush] returns, with ranges that follow one another and end within
    twice the cached leaves. *)
Lemma flushFrom_tiled (k : nat) :
  forall H r O N c,
    loopInv k H r O N c ->
    exists l,
      flushFrom k H r O N c = Some l /\
      tiled (O - N) O l /\
      forall e, In e l ->
        startCache e + count e <= O - N + 2 * c /\
        start e + count e <= H /\ 0 <= startCache e.
Proof.
  induction k as [|k IH]; intros H r O N c HI.
  - destruct HI as (_ & _ & _ & Hc & _). cbn in Hc.
    assert (c = 0) as -> by lia. exists []. cbn. split; [reflexivity|]. split; [exact I|]. intros e [].
  - cbn [flushFrom]. destruct (Z.eqb_spec c 0) as [->|Hc0].
    { exists []. cbn. split; [reflexivity|]. split; [exact I|]. intros e []. }
    destruct (loopInv_step k H r O N c HI Hc0)
      as (E8 & E1 & E2 & E3 & E4 & E5 & HcT & HI').
    cbv zeta. rewrite E8, E1, E2, E3, E4.
    destruct (IH _ _ _ _ _ HI') as (l & Hl & Ht & Hb).
    rewrite Hl. eexists. split; [reflexivity|].
    pose proof HI as (_ & _ & _ & _ & HN & _).
    assert (Esc : u64 (O + (Z.shiftr H (r + 1) - c)
                       - (N + (Z.shiftr H (r + 1) - c))) = O - N).
    { replace (O + (Z.shiftr H (r + 1) - c) - (N + (Z.shiftr H (r + 1) - c)))
        with (O - N) by lia.
      destruct HI as (HH & _). apply u64_small.
      destruct HI' as (_ & _ & _ & _ & HN' & HO' & _).
      pose proof (shiftr_nonneg' H (r + 1) ltac:(lia)). lia. }
    rewrite Esc. cbn [tiled startCache start count].
    split.
    + split; [reflexivity|]. split; [lia|]. split; [lia|].
      replace (O - N + c) with (O + Z.shiftr H (r + 1)
                                - (N + (Z.shiftr H (r + 1) - c))) by lia.
      replace (O + (Z.shiftr H (r + 1) - c) + c)
        with (O + Z.shiftr H (r + 1)) by lia.
      exact Ht.
    + destruct (shiftr_half c ltac:(lia)) as [_ Hc2].
      destruct HI' as (_ & _ & _ & _ & HN' & HO' & _).
      pose proof (shiftr_nonneg' H (r + 1) ltac:(lia)).
      pose proof (shiftr_nonneg' H (r + 1 + 1) ltac:(lia)).
      intros e [<-|Hin]; cbn [startCache start count]; [lia|].
      specialize (Hb e Hin). lia.
Qed.

(** [includes] finds what the ranges of [flush] hold, at the cache
    position they give. *)
Lemma includesFrom_flush (k : nat) :
  forall pos H r O N c l,
    loopInv k H r O N c -> 0 <= pos < 2 ^ 64 ->
    flushFrom k H r O N c = Some l ->
    includesFrom k pos H r O N c
    = Some (match slotOf l pos with
            | Some cp => (true, cp)
            | None => (false, 0)
            end).
Proof.
  induction k as [|k IH]; intros pos H r O N c l HI Hpos.
  - destruct HI as (_ & _ & _ & Hc & _). cbn in Hc.
    assert (c = 0) as -> by lia. cbn. now intros [= <-].
  - cbn [flushFrom includesFrom]. destruct (Z.eqb_spec c 0) as [->|Hc0].
    { now intros [= <-]. }
    destruct (loopInv_step k H r O N c HI Hc0)
      as (E8 & E1 & E2 & E3 & E4 & E5 & HcT & HI').
    cbv zeta. rewrite E8, E1, E2, E3, E4, E5.
    destruct (flushFrom k _ _ _ _ _) as [l'|] eqn:El; [|discriminate].
    intros [= <-]. cbn [slotOf start count startCache].
    pose proof HI as (HH & _ & _ & _ & HN & _).
    set (T := Z.shiftr H (r + 1)) in *.
    replace (O + (T - c) + c) with (O + T) by lia.
    assert (Etest : (pos <=? O + T - 1) = (pos <? O + T)) by lia.
    rewrite Etest.
    destruct ((O + (T - c) <=? pos) && (pos <? O + T)) eqn:Ein.
    + f_equal. f_equal.
      apply andb_true_iff in Ein as [Ea Eb].
      apply Z.leb_le in Ea. apply Z.ltb_lt in Eb.
      rewrite (u64_small (O + (T - c) - (N + (T - c)))) by lia.
      rewrite u64_small by lia. lia.
    + apply IH; [exact HI' | exact Hpos | exact El].
Qed.

Lemma slotOf_bounds l :
  forall C O pos cp,
    tiled C O l -> slotOf l pos = Some cp ->
    C <= cp /\ O <= pos /\
    exists e, In e l /\ start e <= pos < start e + count e /\
              cp = startCache e + (pos - start e).
Proof.
  induction l as [|e l IH]; intros C O pos cp Ht; [discriminate|].
  cbn [slotOf]. destruct Ht as (Hs & HO & Hc & Ht).
  destruct (_ && _) eqn:Ein.
  - intros [= <-]. apply andb_true_iff in Ein as [Ea Eb].
    apply Z.leb_le in Ea. apply Z.ltb_lt in Eb.
    split; [lia|]. split; [lia|]. exists e. split; [now left|]. lia.
  - intros Hrest. destruct (IH _ _ _ _ Ht Hrest) as (HC & HP & e' & Hin & He').
    split; [lia|]. split; [lia|]. exists e'. split; [now right | exact He'].
Qed.

Lemma slotOf_inj l :
  forall C O p q cp,
    tiled C O l -> slotOf l p = Some cp -> slotOf l q = Some cp -> p = q.
Proof.
  induction l as [|e l IH]; intros C O p q cp Ht; [discriminate|].
  cbn [slotOf]. destruct Ht as (Hs & HO & Hc & Ht).
  destruct ((start e <=? p) && (p <? start e + count e)) eqn:Ep;
    destruct ((start e <=? q) && (q <? start e + count e)) eqn:Eq.
  - intros [= <-] [= E]. lia.
  - intros [= <-] Hq. exfalso.
    apply andb_true_iff in Ep as [Ea Eb].
    apply Z.leb_le in Ea. apply Z.ltb_lt in Eb.
    destruct (slotOf_bounds _ _ _ _ _ Ht Hq) as (HC & _). lia.
  - intros Hp [= <-]. exfalso.
    apply andb_true_iff in Eq as [Ea Eb].
    apply Z.leb_le in Ea. apply Z.ltb_lt in Eb.
    destruct (slotOf_bounds _ _ _ _ _ Ht Hp) as (HC & _). lia.
  - intros Hp Hq. exact (IH _ _ _ _ _ Ht Hp Hq).
Qed.

(** A cache as [newDiskForestCache] makes it: its slices have room for
    twice its leaves. *)
Definition wellFormed (dc : diskForestCache) : Prop :=
  0 <= size dc < 2 ^ 57 /\
  Z.of_nat (length (valid dc)) = 2 * size dc /\
  Z.of_nat (length (data dc)) = 64 * size dc.

(** [newDiskForestCache] makes such a cache, with no slot populated, for
    up to 42 rows (the forest uses 20). *)
Lemma newDiskForestCache_wellFormed trees :
  0 <= trees <= 42 ->
  exists dc,
    newDiskForestCache trees = Some dc /\ wellFormed dc /\
    size dc = 2 ^ trees /\ Forall (fun v => v = false) (valid dc).
Proof.
  intros Ht. unfold newDiskForestCache. cbv zeta.
  rewrite !(Z.shiftl_mul_pow2 1 trees), !Z.mul_1_l by lia.
  assert (Hp : 0 < 2 ^ trees <= 2 ^ 42).
  { split; [apply Z.pow_pos_nonneg; lia|].
    apply Z.pow_le_mono_r; lia. }
  assert (E42 : 2 ^ 42 = 4398046511104) by reflexivity.
  assert (E64 : 2 ^ 64 = 18446744073709551616) by reflexivity.
  assert (E57 : 2 ^ 57 = 144115188075855872) by reflexivity.
  assert (Ema : Accumulator.maxAlloc = 281474976710656) by reflexivity.
  rewrite (u64_small (2 ^ trees)) by lia.
  rewrite !(Z.shiftl_mul_pow2 (2 ^ trees) 1) by lia. change (2 ^ 1) with 2.
  rewrite (u64_small (2 ^ trees * 2)) by lia.
  rewrite (u64_small (2 ^ trees * 2 * 32)) by lia.
  destruct (Z.leb_spec (2 ^ trees * 2) Accumulator.maxAlloc); [|lia].
  destruct (Z.leb_spec (2 ^ trees * 2 * 32) Accumulator.maxAlloc); [|lia].
  cbn [andb]. eexists. split; [reflexivity|].
  unfold wellFormed. cbn [size valid data]. rewrite !length_replicate.
  repeat split; try lia. apply Forall_replicate. reflexivity.
Qed.

Lemma cappedSize_bounds dc H :
  0 <= size dc -> 0 <= H < 2 ^ 64 ->
  0 <= cappedSize dc H <= size dc /\
  cappedSize dc H <= Z.shiftr H 1 /\ cappedSize dc H < 2 ^ 64.
Proof.
  intros Hs HH. unfold cappedSize.
  destruct (shiftr_half H ltac:(lia)) as [H0 H2].
  destruct (Z.ltb_spec (Z.shiftr H 1) (size dc)); lia.
Qed.

Lemma loopInv_start dc H :
  0 <= size dc -> 0 <= H < 2 ^ 64 ->
  loopInv 64 H 0 0 0 (cappedSize dc H).
Proof.
  intros Hs HH. destruct (cappedSize_bounds dc H Hs HH) as (Hc & Hc1 & Hc2).
  unfold loopInv. rewrite Z.shiftr_0_r. change (Z.of_nat 64) with 64.
  change (0 + 1) with 1. repeat split; lia.
Qed.


Lemma flush_ranges dc H :
  0 <= size dc < 2 ^ 63 -> 0 <= H < 2 ^ 64 ->
  exists l,
    flushFrom 64 H 0 0 0 (cappedSize dc H) = Some l /\
    tiled 0 0 l /\
    (forall e, In e l ->
       startCache e + count e <= 2 * size dc /\
       start e + count e <= H /\ 0 <= startCache e) /\
    forall pos, 0 <= pos < 2 ^ 64 ->
      includes dc pos H
      = Some (match slotOf l pos with
              | Some cp => (true, cp)
              | None => (false, 0)
              end).
Proof.
  intros Hs HH.
  pose proof (loopInv_start dc H ltac:(lia) HH) as HI.
  destruct (flushFrom_tiled 64 _ _ _ _ _ HI) as (l & Hl & Ht & Hb).
  destruct (cappedSize_bounds dc H ltac:(lia) HH) as (Hc & _).
  exists l. split; [exact Hl|]. split; [exact Ht|].
  split; [intros e He; specialize (Hb e He); lia|].
  intros pos Hpos. unfold includes. now apply includesFrom_flush.
Qed.

(** X24: [flush] and [includes] agree.  [flush] returns, with the data
    of the cache kept and no slot marked as populated; its ranges lie one
    after the other in the forest and fill the cache from slot 0 on
    without a gap, none of them ends past twice the cached leaves or past
    the forest; and a position is included in the cache exactly when one
    of these ranges holds it, at the cache position that the range gives
    it. *)
Theorem includes_matches_flush dc H :
  0 <= size dc < 2 ^ 63 -> 0 <= H < 2 ^ 64 ->
  exists entries dc',
    flush dc H = Some (entries, dc') /\
    data dc' = data dc /\ size dc' = size dc /\
    valid dc' = replicate (Z.to_nat (2 * size dc)) false /\
    tiled 0 0 entries /\
    (forall e, In e entries ->
       startCache e + count e <= 2 * size dc /\ start e + count e <= H) /\
    forall pos, 0 <= pos < 2 ^ 64 ->
      includes dc pos H
      = Some (match slotOf entries pos with
              | Some cp => (true, cp)
              | None => (false, 0)
              end).
Proof.
  intros Hs HH.
  destruct (flush_ranges dc H Hs HH) as (l & Hl & Ht & Hb & Hinc).
  unfold flush. rewrite Hl. eexists _, _. split; [reflexivity|].
  cbn [data valid size]. split; [reflexivity|]. split; [reflexivity|].
  split.
  { f_equal. f_equal. rewrite Z.shiftl_mul_pow2 by lia.
    rewrite u64_small; [lia|]. change (2 ^ 64) with (2 * 2 ^ 63). lia. }
  split; [exact Ht|].
  split; [intros e He; specialize (Hb e He); lia | exact Hinc].
Qed.

Lemma includes_matches_flush_witness :
  exists entries dc',
    flush (mkCache 2 [true; false; false; true] (replicate 128 7)) 7
    = Some (entries, dc') /\
    data dc' = replicate 128 7 /\ size dc' = 2 /\
    valid dc' = replicate (Z.to_nat (2 * 2)) false /\
    tiled 0 0 entries /\
    (forall e, In e entries ->
       startCache e + count e <= 2 * 2 /\ start e + count e <= 7) /\
    forall pos, 0 <= pos < 2 ^ 64 ->
      includes (mkCache 2 [true; false; false; true] (replicate 128 7)) pos 7
      = Some (match slotOf entries pos with
              | Some cp => (true, cp)
              | None => (false, 0)
              end).
Proof.
  apply (includes_matches_flush
           (mkCache 2 [true; false; false; true] (replicate 128 7)) 7);
    cbn; lia.
Defined.

(** X25: a position that [includes] finds in the cache is a position of
    the forest, its cache position is inside the cache (below twice the
    cached leaves, the length of [valid]), and no other position of the
    forest has the same cache position; for a position that is not in the
    cache [includes] returns the cache position 0. *)
Theorem includes_slots_distinct dc H p q :
  0 <= size dc < 2 ^ 63 -> 0 <= H < 2 ^ 64 ->
  0 <= p < 2 ^ 64 -> 0 <= q < 2 ^ 64 ->
  exists inCache cp,
    includes dc p H = Some (inCache, cp) /\
    (inCache = false -> cp = 0) /\
    (inCache = true ->
       0 <= cp < 2 * size dc /\ p < H /\
       (includes dc q H = Some (true, cp) -> q = p)).
Proof.
  intros Hs HH Hp Hq.
  destruct (flush_ranges dc H Hs HH) as (l & Hl & Ht & Hb & Hinc).
  rewrite (Hinc p Hp), (Hinc q Hq).
  destruct (slotOf l p) as [cp|] eqn:Es.
  - exists true, cp. split; [reflexivity|]. split; [discriminate|].
    intros _.
    destruct (slotOf_bounds _ _ _ _ _ Ht Es) as (HC & _ & e & Hin & He & Ecp).
    destruct (Hb e Hin) as (Hb1 & Hb2 & Hb3).
    split; [lia|]. split; [lia|].
    destruct (slotOf l q) as [cq|] eqn:Eq; [|discriminate].
    intros [= ->]. exact (slotOf_inj _ _ _ _ _ _ Ht Eq Es).
  - exists false, 0. split; [reflexivity|]. split; [reflexivity|].
    discriminate.
Qed.

Lemma includes_slots_distinct_witness :
  exists inCache cp,
    includes (mkCache 2 [true; false; false; true] (replicate 128 7)) 2 7
    = Some (inCache, cp) /\
    (inCache = false -> cp = 0) /\
    (inCache = true ->
       0 <= cp < 2 * 2 /\ 2 < 7 /\
       (includes (mkCache 2 [true; false; false; true] (replicate 128 7)) 3 7
        = Some (true, cp) -> 3 = 2)).
Proof.
  apply (includes_slots_distinct
           (mkCache 2 [true; false; false; true] (replicate 128 7)) 7 2 3);
    cbn; lia.
Defined.

(** *** rangeOverlap *)

(** [rangeOverlap] over the ranges of [flush], one per row. *)
Fixpoint overlapOf (l : list cacheRange) (st r : Z) : Z * Z :=
  match l with
  | [] => (0, 0)
  | e :: l' =>
      if (st <? start e) && (start e <=? st + r)
      then (st + r - start e, startCache e + (st + r - start e))
      else if (start e <=? st) && (st <? start e + count e)
      then (r, startCache e + (st - start e))
      else overlapOf l' st r
  end.

Lemma rangeOverlapFrom_flush (k : nat) :
  forall st r H row O N c l,
    loopInv k H row O N c -> 0 <= st -> 0 <= r -> st + r < 2 ^ 64 ->
    flushFrom k H row O N c = Some l ->
    rangeOverlapFrom k st r H row O N c = Some (overlapOf l st r).
Proof.
  induction k as [|k IH]; intros st r H row O N c l HI Hst Hr Hsr.
  - destruct HI as (_ & _ & _ & Hc & _). cbn in Hc.
    assert (c = 0) as -> by lia. cbn. now intros [= <-].
  - cbn [flushFrom rangeOverlapFrom]. destruct (Z.eqb_spec c 0) as [->|Hc0].
    { now intros [= <-]. }
    destruct (loopInv_step k H row O N c HI Hc0)
      as (E8 & E1 & E2 & E3 & E4 & E5 & HcT & HI').
    cbv zeta. rewrite E8, E1, E2, E3, E4, E5.
    destruct (flushFrom k _ _ _ _ _) as [l'|] eqn:El; [|discriminate].
    intros [= <-]. cbn [overlapOf start count startCache].
    pose proof HI as (HH & _ & _ & _ & HN & _).
    pose proof HI' as (_ & _ & _ & _ & HN' & HO' & _).
    pose proof (shiftr_nonneg' H (row + 1 + 1) ltac:(lia)) as HT'.
    set (T := Z.shiftr H (row + 1)) in *.
    rewrite (u64_small (st + r)) by lia.
    rewrite (u64_small (O + (T - c) - (N + (T - c)))) by lia.
    replace (O + (T - c) + c) with (O + T) by lia.
    assert (Etest : (st <=? O + T - 1) = (st <? O + T)) by lia.
    rewrite Etest.
    destruct ((st <? O + (T - c)) && (O + (T - c) <=? st + r)) eqn:E1'.
    + apply andb_true_iff in E1' as [Ea Eb].
      apply Z.ltb_lt in Ea. apply Z.leb_le in Eb.
      rewrite !u64_small by lia. do 2 f_equal. lia.
    + destruct ((O + (T - c) <=? st) && (st <? O + T)) eqn:E2'.
      * apply andb_true_iff in E2' as [Ea Eb].
        apply Z.leb_le in Ea. apply Z.ltb_lt in Eb.
        rewrite u64_small by lia. do 2 f_equal. lia.
      * apply IH; [exact HI' | exact Hst | exact Hr | exact Hsr | exact El].
Qed.

Lemma overlapOf_cached l :
  forall C O st r cp,
    tiled C O l -> slotOf l st = Some cp -> overlapOf l st r = (r, cp).
Proof.
  induction l as [|e l IH]; intros C O st r cp Ht; [discriminate|].
  cbn [slotOf overlapOf]. destruct Ht as (Hs & HO & Hc & Ht).
  destruct ((start e <=? st) && (st <? start e + count e)) eqn:Ein.
  - apply andb_true_iff in Ein as [Ea Eb].
    apply Z.leb_le in Ea. apply Z.ltb_lt in Eb.
    destruct (Z.ltb_spec st (start e)); [lia|]. cbn [andb].
    now intros [= <-].
  - intros Hrest.
    destruct (slotOf_bounds _ _ _ _ _ Ht Hrest) as (_ & HP & _).
    destruct (Z.ltb_spec st (start e)); [lia|]. cbn [andb].
    exact (IH _ _ _ _ _ Ht Hrest).
Qed.

Lemma tiled_count_pos l :
  forall C O e, tiled C O l -> In e l -> 0 < count e.
Proof.
  induction l as [|e0 l IH]; intros C O e Ht; [intros []|].
  destruct Ht as (_ & _ & Hc & Ht). intros [<-|Hin]; [exact Hc|].
  exact (IH _ _ _ Ht Hin).
Qed.

(** A range that ends below the ranges of the cache has no overlap. *)
Lemma overlapOf_below l :
  forall C O st r,
    tiled C O l -> 0 <= r -> st + r < O -> overlapOf l st r = (0, 0).
Proof.
  induction l as [|e l IH]; intros C O st r Ht Hr Hlow; [reflexivity|].
  destruct Ht as (Hs & HO & Hc & Ht). cbn [overlapOf].
  destruct (Z.ltb_spec st (start e)); [|lia].
  destruct (Z.leb_spec (start e) (st + r)); [lia|]. cbn [andb].
  destruct (Z.leb_spec (start e) st); [lia|]. cbn [andb].
  apply (IH (C + count e) (start e + count e)); [exact Ht | exact Hr | lia].
Qed.

Lemma overlapOf_straddle l :
  forall C O st r e,
    tiled C O l -> slotOf l st = None -> 0 <= r ->
    find (fun e => st <? start e) l = Some e ->
    overlapOf l st r
    = (if start e <=? st + r
       then (st + r - start e, startCache e + (st + r - start e))
       else (0, 0)) /\
    slotOf l (start e) = Some (startCache e).
Proof.
  induction l as [|e0 l IH]; intros C O st r e Ht; [discriminate|].
  cbn [slotOf overlapOf find]. destruct Ht as (Hs & HO & Hc & Ht).
  destruct ((start e0 <=? st) && (st <? start e0 + count e0)) eqn:Ein;
    [discriminate|].
  intros Hnone Hr. destruct (Z.ltb_spec st (start e0)) as [Hlt|Hge].
  - intros [= <-]. cbn [andb].
    destruct (Z.leb_spec (start e0) (start e0)); [|lia].
    destruct (Z.ltb_spec (start e0) (start e0 + count e0)); [|lia].
    cbn [andb]. split; [|f_equal; lia].
    destruct (Z.leb_spec (start e0) (st + r)) as [Hin|Hout]; [reflexivity|].
    apply (overlapOf_below l (C + count e0) (start e0 + count e0));
      [exact Ht | exact Hr | lia].
  - cbn [andb]. intros Hfind.
    destruct (IH _ _ st r e Ht Hnone Hr Hfind) as [Ho Hs'].
    split; [exact Ho|].
    destruct (slotOf_bounds _ _ _ _ _ Ht Hs') as (_ & HP & _).
    destruct (Z.leb_spec (start e0) (start e)),
      (Z.ltb_spec (start e) (start e0 + count e0)); try lia; cbn [andb];
      exact Hs'.
Qed.

(** X26: when the first hash of a range is in the cache, [rangeOverlap]
    returns the cache position that [includes] gives it, and reports the
    whole range as cached, whatever its length: it does not look where
    the range ends. *)
Theorem rangeOverlap_cached_start dc H st r cp :
  0 <= size dc < 2 ^ 63 -> 0 <= H < 2 ^ 64 ->
  0 <= st -> 0 <= r -> st + r < 2 ^ 64 ->
  includes dc st H = Some (true, cp) ->
  rangeOverlap dc st r H = Some (r, cp).
Proof.
  intros Hs HH Hst Hr Hsr Hinc.
  destruct (flush_ranges dc H Hs HH) as (l & Hl & Ht & Hb & Hall).
  rewrite (Hall st ltac:(lia)) in Hinc.
  destruct (slotOf l st) as [cp'|] eqn:Es; [|discriminate].
  injection Hinc as ->.
  unfold rangeOverlap.
  rewrite (rangeOverlapFrom_flush 64 st r H 0 0 0 _ l
             (loopInv_start dc H ltac:(lia) HH) Hst Hr Hsr Hl).
  f_equal. exact (overlapOf_cached _ _ _ _ _ _ Ht Es).
Qed.

Lemma rangeOverlap_cached_start_witness :
  rangeOverlap (mkCache 2 [true; false; false; true] (replicate 128 7)) 2 1000 7
  = Some (1000, 1).
Proof.
  apply (rangeOverlap_cached_start
           (mkCache 2 [true; false; false; true] (replicate 128 7)) 7 2 1000 1);
    cbn; first [lia | reflexivity].
Defined.

(** X27: when a range starts at a position that is not in the cache and
    reaches into the cached part of a row, [rangeOverlap] returns the
    number of its hashes from the first cached position of that row on,
    and as their cache position that number of slots past the cache
    position of this first cached hash: the slot behind the cached
    hashes of the range, not their first.  A range that ends before the
    cached part of the row has no overlap. *)
Theorem rangeOverlap_straddle dc H st r entries dc' e :
  0 <= size dc < 2 ^ 63 -> 0 <= H < 2 ^ 64 ->
  0 <= st -> 0 <= r -> st + r < 2 ^ 64 ->
  flush dc H = Some (entries, dc') ->
  includes dc st H = Some (false, 0) ->
  find (fun e => st <? start e) entries = Some e ->
  includes dc (start e) H = Some (true, startCache e) /\
  rangeOverlap dc st r H
  = Some (if start e <=? st + r
          then (st + r - start e, startCache e + (st + r - start e))
          else (0, 0)).
Proof.
  intros Hs HH Hst Hr Hsr Hflush Hinc Hfind.
  destruct (flush_ranges dc H Hs HH) as (l & Hl & Ht & Hb & Hall).
  unfold flush in Hflush. rewrite Hl in Hflush. injection Hflush as <- _.
  rewrite (Hall st ltac:(lia)) in Hinc.
  destruct (slotOf l st) as [cp'|] eqn:Es; [discriminate|].
  destruct (overlapOf_straddle _ _ _ _ r _ Ht Es Hr Hfind) as [Ho Hse].
  pose proof (find_some _ _ Hfind) as [Hin _].
  destruct (Hb e Hin) as (_ & Hb2 & _).
  destruct (slotOf_bounds _ _ _ _ _ Ht Hse) as (_ & HP & _).
  pose proof (tiled_count_pos _ _ _ _ Ht Hin) as Hcnt.
  split.
  - rewrite (Hall (start e)) by lia. now rewrite Hse.
  - unfold rangeOverlap.
    rewrite (rangeOverlapFrom_flush 64 st r H 0 0 0 _ l
               (loopInv_start dc H ltac:(lia) HH) Hst Hr Hsr Hl).
    now rewrite Ho.
Qed.

Lemma rangeOverlap_straddle_witness :
  includes (mkCache 2 [true; false; false; true] (replicate 128 7)) 1 7
  = Some (true, 0) /\
  rangeOverlap (mkCache 2 [true; false; false; true] (replicate 128 7)) 0 2 7
  = Some (1, 1).
Proof.
  apply (rangeOverlap_straddle
           (mkCache 2 [true; false; false; true] (replicate 128 7)) 7 0 2
           [mkCacheRange 0 1 2; mkCacheRange 2 3 1]
           (mkCache 2 (replicate 4 false) (replicate 128 7))
           (mkCacheRange 0 1 2));
    cbn; first [lia | reflexivity].
Defined.

(** *** Reading and writing through the cache *)

(** The 32 bytes of a slot of the cache. *)
Definition slotHash (dc : diskForestCache) (cp : Z) : Accumulator.Hash :=
  (fun j => byteAt (data dc) (32 * Z.to_nat cp + j)) <$> seq 0 32.

(** What the backend holds at a position: the slot of the cache where the
    position is included in the cache and the slot is populated, what the
    file reads as otherwise. *)
Definition content (d : cacheForestData) (q : Z) : Accumulator.Hash :=
  match includes (cache d) q (hashCount d) with
  | Some (true, cp) =>
      if default false (valid (cache d) !! Z.to_nat cp)
      then slotHash (cache d) cp
      else diskRead (f d) q
  | _ => diskRead (f d) q
  end.

Lemma includes_size dc dc' pos H :
  size dc' = size dc -> includes dc' pos H = includes dc pos H.
Proof. intros E. unfold includes, cappedSize. now rewrite E. Qed.

Lemma includes_returns dc H p :
  0 <= size dc < 2 ^ 63 -> 0 <= H < 2 ^ 64 -> 0 <= p < 2 ^ 64 ->
  (exists cp, includes dc p H = Some (true, cp) /\
              0 <= cp < 2 * size dc /\ p < H) \/
  includes dc p H = Some (false, 0).
Proof.
  intros Hs HH Hp.
  destruct (flush_ranges dc H Hs HH) as (l & Hl & Ht & Hb & Hinc).
  rewrite (Hinc p Hp).
  destruct (slotOf l p) as [cp|] eqn:Es; [left | now right].
  exists cp. split; [reflexivity|].
  destruct (slotOf_bounds _ _ _ _ _ Ht Es) as (HC & _ & e & Hin & He & Ecp).
  destruct (Hb e Hin) as (Hb1 & Hb2 & Hb3). lia.
Qed.

Lemma includes_inj dc H p q cp :
  0 <= size dc < 2 ^ 63 -> 0 <= H < 2 ^ 64 ->
  0 <= p < 2 ^ 64 -> 0 <= q < 2 ^ 64 ->
  includes dc p H = Some (true, cp) -> includes dc q H = Some (true, cp) ->
  q = p.
Proof.
  intros Hs HH Hp Hq.
  destruct (flush_ranges dc H Hs HH) as (l & Hl & Ht & Hb & Hinc).
  rewrite (Hinc p Hp), (Hinc q Hq).
  destruct (slotOf l p) as [cp1|] eqn:Es; [|discriminate].
  destruct (slotOf l q) as [cp2|] eqn:Eq; [|discriminate].
  intros [= ->] [= ->]. exact (slotOf_inj _ _ _ _ _ _ Ht Eq Es).
Qed.

Lemma slot_bounds dc cp :
  wellFormed dc -> 0 <= cp < 2 * size dc ->
  slotLo cp = 32 * cp /\
  slice (data dc) (slotLo cp) (slotHi cp)
  = Some (take 32 (drop (Z.to_nat (32 * cp)) (data dc))) /\
  length (take 32 (drop (Z.to_nat (32 * cp)) (data dc))) = 32%nat.
Proof.
  intros (Hs & Hv & Hd) Hcp. unfold slotLo, slotHi.
  assert (E63 : 2 ^ 64 = 128 * 2 ^ 57) by reflexivity.
  rewrite (u64_small (cp * 32)) by lia.
  rewrite (u64_small (cp + 1)) by lia.
  rewrite (u64_small ((cp + 1) * 32)) by lia.
  split; [lia|]. unfold slice.
  destruct (Z.leb_spec (cp * 32) ((cp + 1) * 32)); [|lia].
  destruct (Z.leb_spec ((cp + 1) * 32) (Z.of_nat (length (data dc)))); [|lia].
  cbn [andb].
  replace (Z.to_nat ((cp + 1) * 32 - cp * 32)) with 32%nat by lia.
  replace (cp * 32) with (32 * cp) by lia.
  split; [reflexivity|].
  rewrite length_take, length_drop. lia.
Qed.

Lemma get_populated dc cp :
  wellFormed dc -> 0 <= cp < 2 * size dc ->
  get dc cp
  = Some (if default false (valid dc !! Z.to_nat cp)
          then (slotHash dc cp, true) else (Accumulator.empty, false)).
Proof.
  intros Hwf Hcp. destruct (slot_bounds dc cp Hwf Hcp) as (Elo & Esl & Elen).
  destruct Hwf as (Hs & Hv & Hd). unfold get.
  destruct (lookup_lt_is_Some_2 (valid dc) (Z.to_nat cp)) as [b Hb]; [lia|].
  rewrite Hb. cbn [default]. destruct b; [|reflexivity].
  rewrite Esl. do 2 f_equal.
  rewrite take_take, Nat.min_id.
  replace (Z.to_nat (32 * cp)) with (32 * Z.to_nat cp)%nat by lia.
  apply padded_read.
Qed.

Lemma set_slot dc cp h :
  wellFormed dc -> 0 <= cp < 2 * size dc -> length h = 32%nat ->
  exists dc',
    set dc cp h = Some dc' /\ wellFormed dc' /\ size dc' = size dc /\
    forall cq, 0 <= cq < 2 * size dc ->
      default false (valid dc' !! Z.to_nat cq)
      = (if Z.eq_dec cq cp then true
         else default false (valid dc !! Z.to_nat cq)) /\
      slotHash dc' cq = if Z.eq_dec cq cp then h else slotHash dc cq.
Proof.
  intros Hwf Hcp Hl. destruct (slot_bounds dc cp Hwf Hcp) as (Elo & Esl & Elen).
  destruct Hwf as (Hs & Hv & Hd). unfold set. rewrite Esl, Elen, Elo.
  destruct (Z.leb_spec (Z.of_nat (length (valid dc))) cp); [lia|].
  rewrite (take_ge h) by lia.
  eexists. split; [reflexivity|]. split; [|split; [reflexivity|]].
  - unfold wellFormed. cbn [size valid data].
    rewrite length_insert. split; [exact Hs|]. split; [exact Hv|].
    unfold overwrite.
    rewrite !length_app, length_take, length_replicate, length_drop, Hl. lia.
  - intros cq Hcq. cbn [valid]. split.
    + destruct (Z.eq_dec cq cp) as [->|Hne].
      * rewrite list_lookup_insert_eq by lia. reflexivity.
      * rewrite list_lookup_insert_ne by lia. reflexivity.
    + unfold slotHash. cbn [data].
      replace (Z.to_nat (32 * cp)) with (32 * Z.to_nat cp)%nat by lia.
      destruct (Z.eq_dec cq cp) as [->|Hne].
      * etransitivity; [|apply (hash_bytes h Hl)].
        apply list_fmap_ext. intros i j Hj.
        apply lookup_seq in Hj as [-> Hj]. cbn [Nat.add].
        rename i into j. rewrite byteAt_overwrite, Hl.
        destruct (Nat.leb_spec (32 * Z.to_nat cp) (32 * Z.to_nat cp + j)),
          (Nat.ltb_spec (32 * Z.to_nat cp + j) (32 * Z.to_nat cp + 32));
          try lia.
        cbn [andb]. f_equal. lia.
      * apply list_fmap_ext. intros i j Hj.
        apply lookup_seq in Hj as [-> Hj]. cbn [Nat.add].
        rename i into j. rewrite byteAt_overwrite, Hl.
        destruct (Nat.leb_spec (32 * Z.to_nat cp) (32 * Z.to_nat cq + j)),
          (Nat.ltb_spec (32 * Z.to_nat cq + j) (32 * Z.to_nat cp + 32));
          try lia; reflexivity.
Qed.

Lemma diskRead_length c q : length (diskRead c q) = 32%nat.
Proof.
  unfold diskRead, Accumulator.leafSize.
  rewrite length_app, length_replicate.
  assert (length (readAt c 32 (byteOffset q)) <= 32)%nat; [|lia].
  unfold readAt. destruct (_ <? _); [cbn; lia|].
  rewrite length_take. lia.
Qed.

(** The state of the backend and the bounds of the arguments. *)
Definition usable (d : cacheForestData) : Prop :=
  wellFormed (cache d) /\ 0 <= hashCount d < 2 ^ 64.

(** [read] returns the content, and populates the cache without a change
    of the contents. *)
Lemma read_content d q :
  usable d -> 0 <= q < 2 ^ 58 ->
  exists d1,
    read d q = Returns (content d q, d1) /\
    usable d1 /\ f d1 = f d /\ hashCount d1 = hashCount d /\
    read d1 q = Returns (content d q, d1) /\
    forall q', 0 <= q' < 2 ^ 58 -> content d1 q' = content d q'.
Proof.
  intros (Hwf & HH) Hq. pose proof Hwf as (Hs & Hv & Hd).
  assert (E58 : 2 ^ 64 = 64 * 2 ^ 58) by reflexivity.
  assert (E57 : 2 ^ 63 = 64 * 2 ^ 57) by reflexivity.
  unfold read, content.
  destruct (includes_returns (cache d) (hashCount d) q ltac:(lia) HH
              ltac:(lia)) as [(cp & Ei & Hcp & HqH)|Ei]; rewrite Ei.
  2:{ exists d. rewrite Ei.
      repeat split; first [assumption | reflexivity | lia]. }
  rewrite (get_populated _ _ Hwf Hcp).
  destruct (default false (valid (cache d) !! Z.to_nat cp)) eqn:Ev.
  - exists d. rewrite Ei, (get_populated _ _ Hwf Hcp), Ev.
    repeat split; first [assumption | reflexivity | lia].
  - destruct (set_slot (cache d) cp (diskRead (f d) q) Hwf
                ltac:(lia) (diskRead_length _ _))
      as (dc' & Eset & Hwf' & Esz & Hslots).
    rewrite Eset. eexists. split; [reflexivity|].
    cbn [cache f hashCount].
    split; [split; assumption|]. split; [reflexivity|].
    split; [reflexivity|].
    rewrite (includes_size _ _ _ _ Esz), Ei.
    assert (Hcp' : 0 <= cp < 2 * size dc') by lia.
    rewrite (get_populated _ _ Hwf' Hcp').
    destruct (Hslots cp ltac:(lia)) as [Hv1 Hs1].
    destruct (Z.eq_dec cp cp); [|contradiction].
    rewrite Hv1, Hs1. split; [reflexivity|].
    intros q' Hq'. rewrite (includes_size _ _ _ _ Esz).
    destruct (includes_returns (cache d) (hashCount d) q' ltac:(lia) HH
                ltac:(lia)) as [(cq & Ei' & Hcq & _)|Ei']; rewrite Ei';
      [|reflexivity].
    destruct (Hslots cq ltac:(lia)) as [Hv2 Hs2].
    rewrite Hv2, Hs2. destruct (Z.eq_dec cq cp) as [->|Hne]; [|reflexivity].
    rewrite Ev.
    assert (q' = q) as ->; [|reflexivity].
    apply (includes_inj (cache d) (hashCount d) q q' cp);
      first [assumption | lia].
Qed.

(** [write] returns and changes the content at its position only. *)
Lemma write_content d pos h :
  usable d -> 0 <= pos < 2 ^ 58 -> length h = 32%nat ->
  exists d',
    write d pos h = Returns d' /\
    usable d' /\ hashCount d' = hashCount d /\
    forall q, 0 <= q < 2 ^ 58 ->
      content d' q = if Z.eq_dec q pos then h else content d q.
Proof.
  intros (Hwf & HH) Hp Hl. pose proof Hwf as (Hs & Hv & Hd).
  assert (E58 : 2 ^ 64 = 64 * 2 ^ 58) by reflexivity.
  assert (E57 : 2 ^ 63 = 64 * 2 ^ 57) by reflexivity.
  unfold write.
  destruct (includes_returns (cache d) (hashCount d) pos ltac:(lia) HH
              ltac:(lia)) as [(cp & Ei & Hcp & HpH)|Ei]; rewrite Ei.
  - destruct (set_slot (cache d) cp h Hwf ltac:(lia) Hl)
      as (dc' & Eset & Hwf' & Esz & Hslots).
    rewrite Eset. eexists. split; [reflexivity|].
    cbn [cache f hashCount].
    split; [split; assumption|]. split; [reflexivity|].
    intros q Hq. unfold content. cbn [cache f hashCount].
    rewrite (includes_size _ _ _ _ Esz).
    destruct (includes_returns (cache d) (hashCount d) q ltac:(lia) HH
                ltac:(lia)) as [(cq & Ei' & Hcq & _)|Ei']; rewrite Ei'.
    + destruct (Hslots cq ltac:(lia)) as [Hv2 Hs2]. rewrite Hv2, Hs2.
      destruct (Z.eq_dec cq cp) as [->|Hne].
      * assert (q = pos) as ->.
        { apply (includes_inj (cache d) (hashCount d) pos q cp);
            first [assumption | lia]. }
        now destruct (Z.eq_dec pos pos).
      * destruct (Z.eq_dec q pos) as [->|]; [|reflexivity].
        rewrite Ei in Ei'. congruence.
    + destruct (Z.eq_dec q pos) as [->|]; [|reflexivity].
      rewrite Ei in Ei'. discriminate.
  - eexists. split; [reflexivity|]. cbn [cache f hashCount].
    split; [split; assumption|]. split; [reflexivity|].
    intros q Hq. unfold content. cbn [cache f hashCount].
    rewrite (diskRead_diskWrite _ _ _ q Hl Hp Hq).
    destruct (includes_returns (cache d) (hashCount d) q ltac:(lia) HH
                ltac:(lia)) as [(cq & Ei' & Hcq & _)|Ei']; rewrite Ei'.
    + destruct (Z.eq_dec q pos) as [->|]; [|reflexivity].
      rewrite Ei in Ei'. discriminate.
    + reflexivity.
Qed.

(** X28: the cached backend is an array of hashes.  [write(pos, h)]
    returns, whether the position is in the cache or on disk only; a
    [read(pos)] after it gives [h], and any other position reads after
    the write as it read before. *)
Theorem cache_write_then_read d pos h q :
  wellFormed (cache d) -> 0 <= hashCount d < 2 ^ 64 ->
  length h = 32%nat -> 0 <= pos < 2 ^ 58 -> 0 <= q < 2 ^ 58 ->
  exists d' d'',
    write d pos h = Returns d' /\
    wellFormed (cache d') /\ hashCount d' = hashCount d /\
    read d' pos = Returns (h, d'') /\
    (q <> pos ->
     exists x d1 d2,
       read d q = Returns (x, d1) /\ read d' q = Returns (x, d2)).
Proof.
  intros Hwf HH Hl Hp Hq.
  destruct (write_content d pos h (conj Hwf HH) Hp Hl)
    as (d' & Ew & Hu' & EH & Hc).
  destruct (read_content d' pos Hu' Hp) as (d'' & Er & _).
  exists d', d''. split; [exact Ew|]. split; [exact (proj1 Hu')|].
  split; [exact EH|]. split.
  - rewrite Er, (Hc pos Hp). now destruct (Z.eq_dec pos pos).
  - intros Hne.
    destruct (read_content d q (conj Hwf HH) Hq) as (d1 & Er1 & _).
    destruct (read_content d' q Hu' Hq) as (d2 & Er2 & _).
    exists (content d q), d1, d2. split; [exact Er1|].
    rewrite Er2, (Hc q Hq). now destruct (Z.eq_dec q pos).
Qed.

(** X29: [read] changes nothing that can be read.  It returns, never
    writes to the file, a second [read] of the position gives the same
    hash and leaves the state as it is, and any position reads after a
    [read] as it reads before; so the copy into the cache on a miss is
    invisible. *)
Theorem read_keeps_contents d q q' :
  wellFormed (cache d) -> 0 <= hashCount d < 2 ^ 64 ->
  0 <= q < 2 ^ 58 -> 0 <= q' < 2 ^ 58 ->
  exists x y d1 d2 d3,
    read d q = Returns (x, d1) /\
    f d1 = f d /\ hashCount d1 = hashCount d /\ wellFormed (cache d1) /\
    read d1 q = Returns (x, d1) /\
    read d q' = Returns (y, d2) /\
    read d1 q' = Returns (y, d3).
Proof.
  intros Hwf HH Hq Hq'.
  destruct (read_content d q (conj Hwf HH) Hq)
    as (d1 & Er & Hu1 & Ef & EH & Er' & Hc).
  destruct (read_content d q' (conj Hwf HH) Hq') as (d2 & Er2 & _).
  destruct (read_content d1 q' Hu1 Hq') as (d3 & Er3 & _).
  exists (content d q), (content d q'), d1, d2, d3.
  split; [exact Er|]. split; [exact Ef|]. split; [exact EH|].
  split; [exact (proj1 Hu1)|]. split; [exact Er'|]. split; [exact Er2|].
  rewrite Er3, (Hc q' Hq'). reflexivity.
Qed.

Lemma cache_write_then_read_witness :
  exists d' d'',
    write (mkCacheForest (replicate 224 9) 7
             (mkCache 2 (replicate 4 false) (replicate 128 0)))
      1 (hashOf 5) = Returns d' /\
    wellFormed (cache d') /\ hashCount d' = 7 /\
    read d' 1 = Returns (hashOf 5, d'') /\
    (4 <> 1 ->
     exists x d1 d2,
       read (mkCacheForest (replicate 224 9) 7
               (mkCache 2 (replicate 4 false) (replicate 128 0))) 4
       = Returns (x, d1) /\
       read d' 4 = Returns (x, d2)).
Proof.
  apply (cache_write_then_read
           (mkCacheForest (replicate 224 9) 7
              (mkCache 2 (replicate 4 false) (replicate 128 0)))
           1 (hashOf 5) 4);
    [repeat split; cbn; lia | cbn; lia | reflexivity | lia | lia].
Defined.

Lemma read_keeps_contents_witness :
  exists x y d1 d2 d3,
    read (mkCacheForest (replicate 224 9) 7
            (mkCache 2 (replicate 4 false) (replicate 128 0))) 1
    = Returns (x, d1) /\
    f d1 = replicate 224 9 /\ hashCount d1 = 7 /\ wellFormed (cache d1) /\
    read d1 1 = Returns (x, d1) /\
    read (mkCacheForest (replicate 224 9) 7
            (mkCache 2 (replicate 4 false) (replicate 128 0))) 2
    = Returns (y, d2) /\
    read d1 2 = Returns (y, d3).
Proof.
  apply (read_keeps_contents
           (mkCacheForest (replicate 224 9) 7
              (mkCache 2 (replicate 4 false) (replicate 128 0)))
           1 2);
    [repeat split; cbn; lia | cbn; lia | lia | lia].
Defined.

(** *** Closing *)

Lemma slice_range (cdata : list Z) (sc cnt : Z) :
  0 <= sc -> 0 < cnt -> 32 * (sc + cnt) <= Z.of_nat (length cdata) ->
  Z.of_nat (length cdata) < 2 ^ 63 ->
  slice cdata (u64 (sc * 32)) (u64 (u64 (sc + cnt) * 32))
  = Some (take (32 * Z.to_nat cnt) (drop (32 * Z.to_nat sc) cdata)) /\
  length (take (32 * Z.to_nat cnt) (drop (32 * Z.to_nat sc) cdata))
  = (32 * Z.to_nat cnt)%nat.
Proof.
  intros Hsc Hcnt Hlen H63.
  assert (E64 : 2 ^ 64 = 2 * 2 ^ 63) by reflexivity.
  rewrite (u64_small (sc * 32)) by lia.
  rewrite (u64_small (sc + cnt)) by lia.
  rewrite (u64_small ((sc + cnt) * 32)) by lia.
  unfold slice.
  destruct (Z.leb_spec (sc * 32) ((sc + cnt) * 32)); [|lia].
  destruct (Z.leb_spec ((sc + cnt) * 32) (Z.of_nat (length cdata))); [|lia].
  cbn [andb].
  replace (Z.to_nat ((sc + cnt) * 32 - sc * 32)) with (32 * Z.to_nat cnt)%nat
    by lia.
  replace (Z.to_nat (sc * 32)) with (32 * Z.to_nat sc)%nat by lia.
  split; [reflexivity|]. rewrite length_take, length_drop. lia.
Qed.

Lemma byteAt_take_drop (c : list Z) (n off i : nat) :
  (i < n)%nat -> byteAt (take n (drop off c)) i = byteAt c (off + i).
Proof.
  intros Hi. unfold byteAt.
  now rewrite lookup_take_lt, lookup_drop by exact Hi.
Qed.

(** The bytes of the file after the ranges of the cache were written. *)
Lemma writeRanges_bytes (cdata : list Z) (S H : Z) l :
  forall file C O,
    tiled C O l -> 0 <= C -> 0 <= O ->
    (forall e, In e l ->
       startCache e + count e <= 2 * S /\ start e + count e <= H) ->
    64 * S <= Z.of_nat (length cdata) -> Z.of_nat (length cdata) < 2 ^ 63 ->
    H < 2 ^ 58 ->
    exists file',
      writeRanges file cdata l = Some file' /\
      forall q j, 0 <= q -> (j < 32)%nat ->
        byteAt file' (32 * Z.to_nat q + j)
        = match slotOf l q with
          | Some cp => byteAt cdata (32 * Z.to_nat cp + j)
          | None => byteAt file (32 * Z.to_nat q + j)
          end.
Proof.
  induction l as [|e l IH]; intros file C O Ht HC HO Hb Hlen H63 HH.
  - exists file. split; reflexivity.
  - destruct Ht as (Hs & HOe & Hc & Ht).
    destruct (Hb e (or_introl eq_refl)) as [Hb1 Hb2].
    cbn [writeRanges].
    destruct (slice_range cdata (startCache e) (count e)) as [Esl Esl'];
      [lia | lia | lia | lia |].
    rewrite Esl.
    set (s := take (32 * Z.to_nat (count e))
                (drop (32 * Z.to_nat (startCache e)) cdata)) in *.
    assert (Ew : writeAt file s (byteOffset (start e))
                 = overwrite file (32 * Z.to_nat (start e)) s).
    { unfold writeAt. rewrite byteOffset_small by lia.
      destruct (Z.ltb_spec (32 * start e) 0); [lia|].
      destruct (Nat.eqb_spec (length s) 0); [lia|]. cbn [orb].
      f_equal. lia. }
    rewrite Ew.
    destruct (IH (overwrite file (32 * Z.to_nat (start e)) s)
                (C + count e) (start e + count e) Ht)
      as (file' & Erun & Hbytes); try lia.
    { intros e' He'. apply Hb. now right. }
    exists file'. split; [exact Erun|].
    intros q j Hq Hj. rewrite (Hbytes q j Hq Hj). cbn [slotOf].
    destruct (slotOf l q) as [cp|] eqn:Es.
    + destruct (slotOf_bounds _ _ _ _ _ Ht Es) as (_ & HP & _).
      destruct (Z.ltb_spec q (start e + count e)); [lia|].
      now rewrite andb_false_r.
    + rewrite byteAt_overwrite, Esl'.
      destruct (Z.leb_spec (start e) q), (Z.ltb_spec q (start e + count e));
        cbn [andb].
      * destruct (Nat.leb_spec (32 * Z.to_nat (start e))
                    (32 * Z.to_nat q + j)); [|lia].
        destruct (Nat.ltb_spec (32 * Z.to_nat q + j)
                    (32 * Z.to_nat (start e) + 32 * Z.to_nat (count e)));
          [|lia].
        cbn [andb]. subst s. rewrite byteAt_take_drop by lia.
        f_equal. lia.
      * destruct (Nat.ltb_spec (32 * Z.to_nat q + j)
                    (32 * Z.to_nat (start e) + 32 * Z.to_nat (count e)));
          [lia|].
        now rewrite andb_false_r.
      * destruct (Nat.leb_spec (32 * Z.to_nat (start e))
                    (32 * Z.to_nat q + j)); [lia|]. reflexivity.
      * lia.
Qed.

(** X30: [close] returns and writes every slot of the cache to the file,
    the ones that were never populated as well: afterwards the file
    holds, at each position that the cache includes, the bytes of its
    cache slot, whatever [valid] says about the slot, and at every other
    position what it held before.  So the hash of an included position
    that was neither read nor written through the cache is lost. *)
Theorem close_writes_all_slots d :
  wellFormed (cache d) -> 0 <= hashCount d < 2 ^ 58 ->
  exists d',
    close d = Returns d' /\
    hashCount d' = hashCount d /\
    data (cache d') = data (cache d) /\
    Forall (fun v => v = false) (valid (cache d')) /\
    forall q, 0 <= q < 2 ^ 58 ->
      diskRead (f d') q
      = match includes (cache d) q (hashCount d) with
        | Some (true, cp) => slotHash (cache d) cp
        | _ => diskRead (f d) q
        end.
Proof.
  intros Hwf HH. pose proof Hwf as (Hs & Hv & Hd).
  assert (E58 : 2 ^ 64 = 64 * 2 ^ 58) by reflexivity.
  assert (E57 : 2 ^ 63 = 64 * 2 ^ 57) by reflexivity.
  destruct (flush_ranges (cache d) (hashCount d) ltac:(lia) ltac:(lia))
    as (l & Hl & Ht & Hb & Hinc).
  unfold close, flush. rewrite Hl. cbn [data].
  destruct (writeRanges_bytes (data (cache d)) (size (cache d)) (hashCount d)
              l (f d) 0 0 Ht ltac:(lia) ltac:(lia))
    as (file' & Erun & Hbytes); try lia.
  { intros e He. destruct (Hb e He) as (? & ? & ?). lia. }
  rewrite Erun. eexists. split; [reflexivity|].
  cbn [hashCount cache data valid f].
  split; [reflexivity|]. split; [reflexivity|].
  split; [apply Forall_replicate; reflexivity|].
  intros q Hq. rewrite (Hinc q ltac:(lia)).
  rewrite !diskRead_bytes by exact Hq.
  destruct (slotOf l q) as [cp|] eqn:Es.
  - unfold slotHash. apply list_fmap_ext. intros i j Hj.
    apply lookup_seq in Hj as [-> Hj]. cbn [Nat.add].
    rewrite (Hbytes q i ltac:(lia) Hj), Es. reflexivity.
  - apply list_fmap_ext. intros i j Hj.
    apply lookup_seq in Hj as [-> Hj]. cbn [Nat.add].
    rewrite (Hbytes q i ltac:(lia) Hj), Es. reflexivity.
Qed.

Lemma close_writes_all_slots_witness :
  exists d',
    close (mkCacheForest (replicate 224 9) 7
             (mkCache 2 (replicate 4 false) (replicate 128 0)))
    = Returns d' /\
    hashCount d' = 7 /\
    data (cache d') = replicate 128 0 /\
    Forall (fun v => v = false) (valid (cache d')) /\
    forall q, 0 <= q < 2 ^ 58 ->
      diskRead (f d') q
      = match includes (mkCache 2 (replicate 4 false) (replicate 128 0)) q 7
        with
        | Some (true, cp) =>
            slotHash (mkCache 2 (replicate 4 false) (replicate 128 0)) cp
        | _ => diskRead (replicate 224 9) q
        end.
Proof.
  apply (close_writes_all_slots
           (mkCacheForest (replicate 224 9) 7
              (mkCache 2 (replicate 4 false) (replicate 128 0))));
    [repeat split; cbn; lia | cbn; lia].
Defined.
End DiskCacheProps.
